(** * SimpleVector: a shallow embedding of [simple_vector.h]

    The container keeps three members: [size_], [capacity_] (both [size_t])
    and [data_], an [ArrayPtr<Type>] that exclusively owns one heap array.

    - [size_t] values are integers of [Z]; every arithmetic result of the
      source ([capacity_ * 2], [++size_], [--size_]) is reduced modulo 2^64.
    - An [ArrayPtr] cannot be copied, so it is represented by the contents of
      the array it owns, a [list Type].  Raw pointers into that array
      ([data_.Get() + i], iterators) are offsets from [data_.Get()].
    - The standard algorithms are written as the element loops they are, so
      that overlapping ranges and moved-from sources behave as in the source.
    - [assert] is taken as enabled: a violated assertion ends the call with
      [AssertFailed].  Allocation is assumed to succeed.
    - Objects live in a store, a finite map from addresses to containers, so
      that [this != &rhs] and calls on two objects can be expressed.  A call
      on an address that holds no object, a constructor on an address that
      holds one, and a read outside the array give [Undefined].
    - An argument passed by reference is either an object outside the
      container, which no step of the call changes and which is therefore
      passed as its value, or a slot of the container's own array, which is
      read at the point where the source reads it ([PushBack_own],
      [Insert_own]); [PushBack_ref] and [Insert_ref] take either.
    - Which object owns which array is kept in a second layer, a memory of
      objects and arrays: an object holds its counters and the address of
      its array, and every call allocates, writes and releases arrays where
      the source does. *)

From Stdlib Require Import ZArith Lia String.
From stdpp Require Import base list gmap.

Local Open Scope Z_scope.

(** ** Results of calls *)

Inductive Result (A : Type) : Type :=
  | Ok (a : A)
  | Throw_out_of_range (what : string)
  | AssertFailed
  | Undefined.
Arguments Ok {A} a.
Arguments Throw_out_of_range {A} what.
Arguments AssertFailed {A}.
Arguments Undefined {A}.

Definition Result_bind {A B : Type} (r : Result A) (k : A -> Result B) : Result B :=
  match r with
  | Ok a => k a
  | Throw_out_of_range what => Throw_out_of_range what
  | AssertFailed => AssertFailed
  | Undefined => Undefined
  end.

Definition Result_map {A B : Type} (f : A -> B) (r : Result A) : Result B :=
  Result_bind r (fun a => Ok (f a)).

(** ** [size_t] *)

Definition SIZE_MAX : Z := 2 ^ 64 - 1.

Definition size_t_wrap (x : Z) : Z := x mod 2 ^ 64.

Section SimpleVector.

(** [Type], the value [Type()] and the state a moved-from object is left in
    (the identity for trivially copyable types). *)
Variable T : Type.
Variable Type_default : T.
Variable moved_from : T -> T.

(** [operator==] of [Type]. *)
Variable Type_eq : T -> T -> bool.

(** [operator<] of [Type]. *)
Variable Type_lt : T -> T -> bool.

(** ** Standard algorithms, as loops over array offsets *)

(** [std::copy(src + first, src + first + n, dst + d_first)] between two
    distinct arrays.  Reading outside [src] is undefined; the loop stops. *)
Fixpoint std_copy (src : list T) (first n : nat) (dst : list T) (d_first : nat)
  : list T :=
  match n with
  | O => dst
  | S n' =>
      match src !! first with
      | Some x => std_copy src (S first) n' (<[d_first := x]> dst) (S d_first)
      | None => dst
      end
  end.

(** [std::move(src + first, src + first + n, dst + d_first)] between two
    distinct arrays: every source slot is left moved-from.  Returns the
    source and the destination arrays. *)
Fixpoint std_move (src : list T) (first n : nat) (dst : list T) (d_first : nat)
  : list T * list T :=
  match n with
  | O => (src, dst)
  | S n' =>
      match src !! first with
      | Some x =>
          std_move (<[first := moved_from x]> src) (S first) n'
                   (<[d_first := x]> dst) (S d_first)
      | None => (src, dst)
      end
  end.

(** [std::copy_backward(buf + first, buf + first + n, buf + d_last)] inside
    one array: [while (first != last) *(--d_last) = *(--last);]. *)
Fixpoint std_copy_backward (buf : list T) (first n d_last : nat) : list T :=
  match n with
  | O => buf
  | S n' =>
      match buf !! (first + n')%nat with
      | Some x => std_copy_backward (<[pred d_last := x]> buf) first n' (pred d_last)
      | None => buf
      end
  end.

(** [std::move_backward], the same loop with move assignment. *)
Fixpoint std_move_backward (buf : list T) (first n d_last : nat) : list T :=
  match n with
  | O => buf
  | S n' =>
      match buf !! (first + n')%nat with
      | Some x =>
          std_move_backward
            (<[pred d_last := x]> (<[(first + n')%nat := moved_from x]> buf))
            first n' (pred d_last)
      | None => buf
      end
  end.

(** [std::copy(std::make_move_iterator(buf + first),
              std::make_move_iterator(buf + first + n), buf + d_first)]
    inside one array: a forward loop of move assignments. *)
Fixpoint std_copy_move_iterator (buf : list T) (first n d_first : nat) : list T :=
  match n with
  | O => buf
  | S n' =>
      match buf !! first with
      | Some x =>
          std_copy_move_iterator
            (<[d_first := x]> (<[first := moved_from x]> buf))
            (S first) n' (S d_first)
      | None => buf
      end
  end.

(** [std::fill(buf + first, buf + first + n, value)]. *)
Fixpoint std_fill (buf : list T) (first n : nat) (value : T) : list T :=
  match n with
  | O => buf
  | S n' => std_fill (<[first := value]> buf) (S first) n' value
  end.

(** [std::generate(buf + first, buf + first + n, g)], the generator [g]
    carrying its captured state. *)
Fixpoint std_generate {St : Type} (g : St -> T * St) (s : St)
    (buf : list T) (first n : nat) : list T * St :=
  match n with
  | O => (buf, s)
  | S n' =>
      let '(x, s') := g s in
      std_generate g s' (<[first := x]> buf) (S first) n'
  end.

(** The lambda [[](){ return Type(); }]. *)
Definition gen_default (_ : unit) : T * unit := (Type_default, tt).

(** The lambda [[&value]() { return std::move(value); }]: each call hands
    out the captured object and leaves it moved-from. *)
Definition gen_move (value : T) : T * T := (value, moved_from value).

(** ** ArrayPtr *)

(** Modelled from the spec: [array_ptr.h] is not part of the sources.  The
    spec's owned buffer: [ArrayPtr(size)] acquires exactly [size]
    default-constructed slots; size 0 holds no storage. *)
Definition ArrayPtr_new (size : Z) : list T :=
  replicate (Z.to_nat size) Type_default.

(** Modelled from the spec: the default [ArrayPtr] holds no storage. *)
Definition ArrayPtr_null : list T := [].

(** ** The container *)

Record SimpleVector : Type := mkSimpleVector {
  size_ : Z;
  capacity_ : Z;
  data_ : list T
}.

(** Iterators are [Type*]; here, the offset from [data_.Get()]. *)
Definition Iterator : Type := Z.

(** [SimpleVector() noexcept = default], from the member initialisers. *)
Definition SimpleVector_default : SimpleVector :=
  {| size_ := 0; capacity_ := 0; data_ := ArrayPtr_null |}.

(** [ReserveProxyObj] and the free function [Reserve]. *)
Record ReserveProxyObj : Type := mkReserveProxyObj { reserved_capacity : Z }.

Definition ReserveProxyObj_GetCapacity (obj : ReserveProxyObj) : Z :=
  reserved_capacity obj.

Definition Reserve_proxy (capacity_to_reserve : Z) : ReserveProxyObj :=
  mkReserveProxyObj capacity_to_reserve.

(** [SimpleVector(const ReserveProxyObj& obj)]. *)
Definition SimpleVector_reserved (obj : ReserveProxyObj) : SimpleVector :=
  {| size_ := 0;
     capacity_ := ReserveProxyObj_GetCapacity obj;
     data_ := ArrayPtr_new (ReserveProxyObj_GetCapacity obj) |}.

(** [explicit SimpleVector(size_t size)]. *)
Definition SimpleVector_sized (size : Z) : SimpleVector :=
  {| size_ := size;
     capacity_ := size;
     data_ := fst (std_generate gen_default tt (ArrayPtr_new size) 0 (Z.to_nat size)) |}.

(** [SimpleVector(size_t size, const Type& value)]. *)
Definition SimpleVector_filled (size : Z) (value : T) : SimpleVector :=
  {| size_ := size;
     capacity_ := size;
     data_ := std_fill (ArrayPtr_new size) 0 (Z.to_nat size) value |}.

(** [SimpleVector(size_t size, Type&& value)]; also returns what is left of
    the caller's [value]. *)
Definition SimpleVector_filled_move (size : Z) (value : T) : SimpleVector * T :=
  let '(buf, value') := std_generate gen_move value (ArrayPtr_new size) 0 (Z.to_nat size) in
  ({| size_ := size; capacity_ := size; data_ := buf |}, value').

(** [SimpleVector(std::initializer_list<Type> init)]. *)
Definition SimpleVector_init (init : list T) : SimpleVector :=
  let n := Z.of_nat (length init) in
  {| size_ := n;
     capacity_ := n;
     data_ := std_copy init 0 (length init) (ArrayPtr_new n) 0 |}.

(** [GetSize], [GetCapacity], [IsEmpty]. *)
Definition GetSize (v : SimpleVector) : Z := size_ v.
Definition GetCapacity (v : SimpleVector) : Z := capacity_ v.
Definition IsEmpty (v : SimpleVector) : bool := size_ v =? 0.

(** [begin()] and [end()]. *)
Definition begin (v : SimpleVector) : Iterator := 0.
Definition end_ (v : SimpleVector) : Iterator := 0 + size_ v.

(** [swap(SimpleVector& other)]: returns [*this] and [other]. *)
Definition swap (v other : SimpleVector) : SimpleVector * SimpleVector :=
  ({| size_ := size_ other; capacity_ := capacity_ other; data_ := data_ other |},
   {| size_ := size_ v; capacity_ := capacity_ v; data_ := data_ v |}).

(** [SimpleVector(const SimpleVector& other)]: [*this] starts from the
    member initialisers, is swapped with [tmp_vector], and [tmp_vector] is
    destroyed. *)
Definition SimpleVector_copy (other : SimpleVector) : SimpleVector :=
  let tmp_vector := SimpleVector_sized (GetSize other) in
  let tmp_vector :=
    {| size_ := size_ tmp_vector;
       capacity_ := capacity_ tmp_vector;
       data_ := std_copy (data_ other) (Z.to_nat (begin other))
                  (Z.to_nat (end_ other) - Z.to_nat (begin other))
                  (data_ tmp_vector) (Z.to_nat (begin tmp_vector)) |} in
  fst (swap SimpleVector_default tmp_vector).

(** [SimpleVector(SimpleVector&& other)]: returns [*this] and [other]. *)
Definition SimpleVector_move (other : SimpleVector) : SimpleVector * SimpleVector :=
  swap SimpleVector_default other.

(** [operator[]], reading. *)
Definition index (idx : Z) (v : SimpleVector) : Result T :=
  if idx <? size_ v then
    match data_ v !! Z.to_nat idx with
    | Some x => Ok x
    | None => Undefined
    end
  else AssertFailed.

(** [At], reading. *)
Definition At (idx : Z) (v : SimpleVector) : Result T :=
  if size_ v <=? idx then Throw_out_of_range "index out of range"
  else
    match data_ v !! Z.to_nat idx with
    | Some x => Ok x
    | None => Undefined
    end.

(** Assignment through the reference [operator[]] returns. *)
Definition index_assign (idx : Z) (x : T) (v : SimpleVector) : Result SimpleVector :=
  if idx <? size_ v then
    Ok {| size_ := size_ v; capacity_ := capacity_ v;
          data_ := <[Z.to_nat idx := x]> (data_ v) |}
  else AssertFailed.

(** Assignment through the reference [At] returns. *)
Definition At_assign (idx : Z) (x : T) (v : SimpleVector) : Result SimpleVector :=
  if size_ v <=? idx then Throw_out_of_range "index out of range"
  else
    Ok {| size_ := size_ v; capacity_ := capacity_ v;
          data_ := <[Z.to_nat idx := x]> (data_ v) |}.

(** [Clear]. *)
Definition Clear (v : SimpleVector) : SimpleVector :=
  {| size_ := 0; capacity_ := capacity_ v; data_ := data_ v |}.

(** [Reserve]. *)
Definition Reserve (new_capacity : Z) (v : SimpleVector) : SimpleVector :=
  if capacity_ v <? new_capacity then
    let new_data := ArrayPtr_new new_capacity in
    let '(_, new_data) :=
      std_move (data_ v) 0 (Z.to_nat (size_ v)) new_data 0 in
    {| size_ := size_ v; capacity_ := new_capacity; data_ := new_data |}
  else v.

(** [Resize]. *)
Definition Resize (new_size : Z) (v : SimpleVector) : SimpleVector :=
  if new_size <=? size_ v then
    {| size_ := new_size; capacity_ := capacity_ v; data_ := data_ v |}
  else if new_size <=? capacity_ v then
    {| size_ := new_size;
       capacity_ := capacity_ v;
       data_ := fst (std_generate gen_default tt (data_ v)
                       (Z.to_nat (size_ v))
                       (Z.to_nat new_size - Z.to_nat (size_ v))) |}
  else
    let new_capacity := Z.max new_size (size_t_wrap (capacity_ v * 2)) in
    let new_data := ArrayPtr_new new_capacity in
    let '(_, new_data) :=
      std_move (data_ v) 0 (Z.to_nat (size_ v)) new_data 0 in
    let new_data :=
      fst (std_generate gen_default tt new_data
             (Z.to_nat (size_ v))
             (Z.to_nat new_size - Z.to_nat (size_ v))) in
    {| size_ := new_size; capacity_ := new_capacity; data_ := new_data |}.

(** [PushBack(const Type& item)] for an [item] that is not an element of
    the container itself: [std::move] of a const reference copies. *)
Definition PushBack (item : T) (v : SimpleVector) : SimpleVector :=
  if size_ v =? capacity_ v then
    let new_capacity :=
      if capacity_ v =? 0 then 1 else size_t_wrap (capacity_ v * 2) in
    let new_data := ArrayPtr_new new_capacity in
    let '(_, new_data) :=
      std_move (data_ v) 0 (Z.to_nat (size_ v)) new_data 0 in
    let new_data := <[Z.to_nat (size_ v) := item]> new_data in
    {| size_ := size_t_wrap (size_ v + 1);
       capacity_ := new_capacity;
       data_ := new_data |}
  else
    {| size_ := size_t_wrap (size_ v + 1);
       capacity_ := capacity_ v;
       data_ := <[Z.to_nat (size_ v) := item]> (data_ v) |}.

(** [PushBack(Type&& item)]: the same steps; the caller's [item] is left
    moved-from. *)
Definition PushBack_move (item : T) (v : SimpleVector) : SimpleVector * T :=
  if size_ v =? capacity_ v then
    let new_capacity :=
      if capacity_ v =? 0 then 1 else size_t_wrap (capacity_ v * 2) in
    let new_data := ArrayPtr_new new_capacity in
    let '(_, new_data) :=
      std_move (data_ v) 0 (Z.to_nat (size_ v)) new_data 0 in
    let new_data := <[Z.to_nat (size_ v) := item]> new_data in
    ({| size_ := size_t_wrap (size_ v + 1);
        capacity_ := new_capacity;
        data_ := new_data |}, moved_from item)
  else
    ({| size_ := size_t_wrap (size_ v + 1);
        capacity_ := capacity_ v;
        data_ := <[Z.to_nat (size_ v) := item]> (data_ v) |}, moved_from item).

(** [Insert(ConstIterator pos, const Type& value)] for a [value] that is
    not an element of the container itself. *)
Definition Insert (pos : Iterator) (value : T) (v : SimpleVector)
  : Result (Iterator * SimpleVector) :=
  if (begin v <=? pos) && (pos <=? end_ v) then
    let it := pos - 0 in
    if size_ v =? capacity_ v then
      let new_capacity :=
        if capacity_ v =? 0 then 1 else size_t_wrap (capacity_ v * 2) in
      let new_data := ArrayPtr_new new_capacity in
      let new_data := std_copy (data_ v) 0 (Z.to_nat it) new_data 0 in
      let new_data := <[Z.to_nat it := value]> new_data in
      let new_data :=
        std_copy (data_ v) (Z.to_nat it) (Z.to_nat (size_ v) - Z.to_nat it)
                 new_data (Z.to_nat (it + 1)) in
      Ok (0 + it,
          {| size_ := size_t_wrap (size_ v + 1);
             capacity_ := new_capacity;
             data_ := new_data |})
    else
      let buf :=
        std_copy_backward (data_ v) (Z.to_nat it)
          (Z.to_nat (size_ v) - Z.to_nat it) (Z.to_nat (size_ v + 1)) in
      let buf := <[Z.to_nat it := value]> buf in
      Ok (0 + it,
          {| size_ := size_t_wrap (size_ v + 1);
             capacity_ := capacity_ v;
             data_ := buf |})
  else AssertFailed.

(** [Insert(ConstIterator pos, Type&& value)]. *)
Definition Insert_move (pos : Iterator) (value : T) (v : SimpleVector)
  : Result (Iterator * SimpleVector) :=
  if (begin v <=? pos) && (pos <=? end_ v) then
    let it := pos - 0 in
    if size_ v =? capacity_ v then
      let new_capacity :=
        if capacity_ v =? 0 then 1 else size_t_wrap (capacity_ v * 2) in
      let new_data := ArrayPtr_new new_capacity in
      let '(old_data, new_data) :=
        std_move (data_ v) 0 (Z.to_nat it) new_data 0 in
      let new_data := <[Z.to_nat it := value]> new_data in
      let '(_, new_data) :=
        std_move old_data (Z.to_nat it) (Z.to_nat (size_ v) - Z.to_nat it)
                 new_data (Z.to_nat (it + 1)) in
      Ok (0 + it,
          {| size_ := size_t_wrap (size_ v + 1);
             capacity_ := new_capacity;
             data_ := new_data |})
    else
      let buf :=
        std_move_backward (data_ v) (Z.to_nat it)
          (Z.to_nat (size_ v) - Z.to_nat it) (Z.to_nat (size_ v + 1)) in
      let buf := <[Z.to_nat it := value]> buf in
      Ok (0 + it,
          {| size_ := size_t_wrap (size_ v + 1);
             capacity_ := capacity_ v;
             data_ := buf |})
  else AssertFailed.

(** [PopBack]. *)
Definition PopBack (v : SimpleVector) : Result SimpleVector :=
  if 0 <? size_ v then
    Ok {| size_ := size_t_wrap (size_ v - 1);
          capacity_ := capacity_ v;
          data_ := data_ v |}
  else AssertFailed.

(** [Erase]. *)
Definition Erase (pos : Iterator) (v : SimpleVector)
  : Result (Iterator * SimpleVector) :=
  if (begin v <=? pos) && (pos <? end_ v) then
    let it := pos - 0 in
    let buf :=
      std_copy_move_iterator (data_ v) (Z.to_nat (it + 1))
        (Z.to_nat (size_ v) - Z.to_nat (it + 1)) (Z.to_nat it) in
    Ok (0 + it,
        {| size_ := size_t_wrap (size_ v - 1);
           capacity_ := capacity_ v;
           data_ := buf |})
  else AssertFailed.

(** The live elements, slots [[0, size_)]. *)
Definition elements (v : SimpleVector) : list T :=
  take (Z.to_nat (size_ v)) (data_ v).

(** Representation invariant: both counters are [size_t] values, the array
    has [capacity_] slots and the live prefix fits in it. *)
Definition wf (v : SimpleVector) : Prop :=
  0 <= size_ v <= capacity_ v /\
  capacity_ v <= SIZE_MAX /\
  length (data_ v) = Z.to_nat (capacity_ v).

(** [capacity_ * 2] does not wrap.  Every array that exists occupies at most
    [PTRDIFF_MAX = 2^63 - 1] bytes, so this holds of every container a
    program can hold. *)
Definition growth_fits (v : SimpleVector) : Prop :=
  capacity_ v * 2 <= SIZE_MAX.

(** [PushBack] of each item in turn. *)
Definition PushBack_all (items : list T) (v : SimpleVector) : SimpleVector :=
  fold_left (fun acc item => PushBack item acc) items v.

(** The capacity reached by pushing [n] items into a default-constructed
    container: 0, then the powers of two 1, 2, 4, 8, ... *)
Definition doubled_capacity (n : Z) : Z :=
  if n =? 0 then 0 else 2 ^ Z.log2_up n.

(** ** Comparison *)

(** [std::equal(l1 + first1, l1 + first1 + n, l2 + first2)]. *)
Fixpoint std_equal (l1 : list T) (first1 n : nat) (l2 : list T) (first2 : nat)
  : bool :=
  match n with
  | O => true
  | S n' =>
      match l1 !! first1, l2 !! first2 with
      | Some x, Some y =>
          if Type_eq x y then std_equal l1 (S first1) n' l2 (S first2)
          else false
      | _, _ => false
      end
  end.

(** [operator==] and [operator!=] on containers. *)
Definition operator_eq (lhs rhs : SimpleVector) : bool :=
  (GetSize lhs =? GetSize rhs)
  && std_equal (data_ lhs) (Z.to_nat (begin lhs))
       (Z.to_nat (end_ lhs) - Z.to_nat (begin lhs))
       (data_ rhs) (Z.to_nat (begin rhs)).

Definition operator_ne (lhs rhs : SimpleVector) : bool :=
  negb (operator_eq lhs rhs).

(** ** Assignment between two distinct objects *)

(** The body of [operator=(const SimpleVector& rhs)] under [this != &rhs]:
    [rhs_copy] is built, swapped with [*this] and destroyed. *)
Definition copy_assign_body (v rhs : SimpleVector) : SimpleVector :=
  let rhs_copy := SimpleVector_copy rhs in
  fst (swap v rhs_copy).

(** Modelled from the spec: move assignment of [ArrayPtr], which
    [array_ptr.h] would define.  Ownership of the source's array passes to
    the destination and the source is left without storage.  Returns the
    destination and the source. *)
Definition ArrayPtr_move_assign (dst src : list T) : list T * list T :=
  (src, ArrayPtr_null).

(** The body of [operator=(SimpleVector&& rhs)] under [this != &rhs]:
    returns [*this] and [rhs], whose counters stay as they were. *)
Definition move_assign_body (v rhs : SimpleVector) : SimpleVector * SimpleVector :=
  let '(d, rd) := ArrayPtr_move_assign (data_ v) (data_ rhs) in
  ({| size_ := size_ rhs; capacity_ := capacity_ rhs; data_ := d |},
   {| size_ := size_ rhs; capacity_ := capacity_ rhs; data_ := rd |}).

(** ** Objects in a store *)

(** A member function that changes its object only. *)
Definition on_object (this : nat) (f : SimpleVector -> Result SimpleVector)
    (st : gmap nat SimpleVector) : Result (gmap nat SimpleVector) :=
  match st !! this with
  | Some v => Result_map (fun v' => <[this := v']> st) (f v)
  | None => Undefined
  end.

(** A constructor needs storage that holds no object yet. *)
Definition construct (this : nat) (v : SimpleVector)
    (st : gmap nat SimpleVector) : Result (gmap nat SimpleVector) :=
  match st !! this with
  | Some _ => Undefined
  | None => Ok (<[this := v]> st)
  end.

(** [SimpleVector(const SimpleVector& other)] at [this]. *)
Definition construct_copy (this other : nat) (st : gmap nat SimpleVector)
  : Result (gmap nat SimpleVector) :=
  match st !! other with
  | Some o => construct this (SimpleVector_copy o) st
  | None => Undefined
  end.

(** [SimpleVector(SimpleVector&& other)] at [this]. *)
Definition construct_move (this other : nat) (st : gmap nat SimpleVector)
  : Result (gmap nat SimpleVector) :=
  match st !! other with
  | Some o =>
      let '(v, o') := SimpleVector_move o in
      construct this v (<[other := o']> st)
  | None => Undefined
  end.

(** [operator=(const SimpleVector& rhs)]. *)
Definition operator_assign_copy (this rhs : nat) (st : gmap nat SimpleVector)
  : Result (gmap nat SimpleVector) :=
  match st !! this, st !! rhs with
  | Some v, Some r =>
      if decide (this <> rhs) then Ok (<[this := copy_assign_body v r]> st)
      else Ok st
  | _, _ => Undefined
  end.

(** [operator=(SimpleVector&& rhs)]. *)
Definition operator_assign_move (this rhs : nat) (st : gmap nat SimpleVector)
  : Result (gmap nat SimpleVector) :=
  match st !! this, st !! rhs with
  | Some v, Some r =>
      if decide (this <> rhs) then
        let '(v', r') := move_assign_body v r in
        Ok (<[this := v']> (<[rhs := r']> st))
      else Ok st
  | _, _ => Undefined
  end.

(** [this->swap(other)] on two objects of the store. *)
Definition swap_objects (this other : nat) (st : gmap nat SimpleVector)
  : Result (gmap nat SimpleVector) :=
  match st !! this, st !! other with
  | Some v, Some o =>
      let '(v', o') := swap v o in
      Ok (<[this := v']> (<[other := o']> st))
  | _, _ => Undefined
  end.

(** The public operations, as calls on the store. *)
Inductive call : Type :=
  | new_default (this : nat)
  | new_reserved (this : nat) (obj : ReserveProxyObj)
  | new_sized (this : nat) (size : Z)
  | new_filled (this : nat) (size : Z) (value : T)
  | new_filled_move (this : nat) (size : Z) (value : T)
  | new_init (this : nat) (init : list T)
  | new_copy (this other : nat)
  | new_move (this other : nat)
  | assign_copy (this rhs : nat)
  | assign_move (this rhs : nat)
  | call_GetSize (this : nat)
  | call_GetCapacity (this : nat)
  | call_IsEmpty (this : nat)
  | call_index (this : nat) (idx : Z)
  | call_index_assign (this : nat) (idx : Z) (x : T)
  | call_At (this : nat) (idx : Z)
  | call_At_assign (this : nat) (idx : Z) (x : T)
  | call_Clear (this : nat)
  | call_Reserve (this : nat) (new_capacity : Z)
  | call_Resize (this : nat) (new_size : Z)
  | call_PushBack (this : nat) (item : T)
  | call_PushBack_move (this : nat) (item : T)
  | call_Insert (this : nat) (pos : Iterator) (value : T)
  | call_Insert_move (this : nat) (pos : Iterator) (value : T)
  | call_PopBack (this : nat)
  | call_Erase (this : nat) (pos : Iterator)
  | call_swap (this other : nat).

Definition run (c : call) (st : gmap nat SimpleVector)
  : Result (gmap nat SimpleVector) :=
  match c with
  | new_default this => construct this SimpleVector_default st
  | new_reserved this obj => construct this (SimpleVector_reserved obj) st
  | new_sized this size => construct this (SimpleVector_sized size) st
  | new_filled this size value => construct this (SimpleVector_filled size value) st
  | new_filled_move this size value =>
      construct this (fst (SimpleVector_filled_move size value)) st
  | new_init this init => construct this (SimpleVector_init init) st
  | new_copy this other => construct_copy this other st
  | new_move this other => construct_move this other st
  | assign_copy this rhs => operator_assign_copy this rhs st
  | assign_move this rhs => operator_assign_move this rhs st
  | call_GetSize this => on_object this (fun v => Ok v) st
  | call_GetCapacity this => on_object this (fun v => Ok v) st
  | call_IsEmpty this => on_object this (fun v => Ok v) st
  | call_index this idx =>
      on_object this (fun v => Result_map (fun _ => v) (index idx v)) st
  | call_index_assign this idx x => on_object this (index_assign idx x) st
  | call_At this idx =>
      on_object this (fun v => Result_map (fun _ => v) (At idx v)) st
  | call_At_assign this idx x => on_object this (At_assign idx x) st
  | call_Clear this => on_object this (fun v => Ok (Clear v)) st
  | call_Reserve this new_capacity =>
      on_object this (fun v => Ok (Reserve new_capacity v)) st
  | call_Resize this new_size =>
      on_object this (fun v => Ok (Resize new_size v)) st
  | call_PushBack this item => on_object this (fun v => Ok (PushBack item v)) st
  | call_PushBack_move this item =>
      on_object this (fun v => Ok (fst (PushBack_move item v))) st
  | call_Insert this pos value =>
      on_object this (fun v => Result_map snd (Insert pos value v)) st
  | call_Insert_move this pos value =>
      on_object this (fun v => Result_map snd (Insert_move pos value v)) st
  | call_PopBack this => on_object this PopBack st
  | call_Erase this pos =>
      on_object this (fun v => Result_map snd (Erase pos v)) st
  | call_swap this other => swap_objects this other st
  end.

(** Calls one after the other, stopping at the first that fails. *)
Fixpoint run_all (cs : list call) (st : gmap nat SimpleVector)
  : Result (gmap nat SimpleVector) :=
  match cs with
  | [] => Ok st
  | c :: cs' => Result_bind (run c st) (run_all cs')
  end.

(** The objects a call may change. *)
Definition written (c : call) : list nat :=
  match c with
  | new_default this | new_reserved this _ | new_sized this _
  | new_filled this _ _ | new_filled_move this _ _ | new_init this _
  | new_copy this _ | assign_copy this _
  | call_GetSize this | call_GetCapacity this | call_IsEmpty this
  | call_index this _ | call_index_assign this _ _
  | call_At this _ | call_At_assign this _ _
  | call_Clear this | call_Reserve this _ | call_Resize this _
  | call_PushBack this _ | call_PushBack_move this _
  | call_Insert this _ _ | call_Insert_move this _ _
  | call_PopBack this | call_Erase this _ => [this]
  | new_move this other | assign_move this other | call_swap this other =>
      [this; other]
  end.

(** The counters of a container: [0 <= size_ <= capacity_]. *)
Definition sized (v : SimpleVector) : Prop :=
  0 <= size_ v <= capacity_ v.

(** The values of type [size_t]. *)
Definition is_size_t (n : Z) : Prop := 0 <= n <= SIZE_MAX.

(** A call the program can make in store [st]: its [size_t] arguments are
    [size_t] values, and doubling does not wrap for an object the call may
    have to grow. *)
Definition call_fits (c : call) (st : gmap nat SimpleVector) : Prop :=
  match c with
  | new_reserved _ obj => is_size_t (ReserveProxyObj_GetCapacity obj)
  | new_sized _ size | new_filled _ size _ | new_filled_move _ size _ =>
      is_size_t size
  | call_index _ idx | call_index_assign _ idx _
  | call_At _ idx | call_At_assign _ idx _ => is_size_t idx
  | call_Reserve _ n | call_Resize _ n => is_size_t n
  | call_PushBack this _ | call_PushBack_move this _
  | call_Insert this _ _ | call_Insert_move this _ _ =>
      forall v, st !! this = Some v -> growth_fits v
  | _ => True
  end.

(** Every call of a run fits the store it is made in. *)
Fixpoint all_fit (cs : list call) (st : gmap nat SimpleVector) : Prop :=
  match cs with
  | [] => True
  | c :: cs' =>
      call_fits c st /\
      match run c st with
      | Ok st' => all_fit cs' st'
      | _ => True
      end
  end.

(** ** Ordering *)

(** [cbegin()] and [cend()]. *)
Definition cbegin (v : SimpleVector) : Iterator := begin v.
Definition cend (v : SimpleVector) : Iterator := end_ v.

(** [std::lexicographical_compare(l1 + first1, l1 + first1 + n1,
                                  l2 + first2, l2 + first2 + n2)]:
    the loop runs while both ranges have elements and returns at the first
    pair that [operator<] tells apart; after it, the first range is smaller
    exactly when it ended and the second did not. *)
Fixpoint std_lexicographical_compare
    (l1 : list T) (first1 n1 : nat) (l2 : list T) (first2 n2 : nat) : bool :=
  match n1, n2 with
  | S n1', S n2' =>
      match l1 !! first1, l2 !! first2 with
      | Some x, Some y =>
          if Type_lt x y then true
          else if Type_lt y x then false
          else std_lexicographical_compare l1 (S first1) n1' l2 (S first2) n2'
      | _, _ => false
      end
  | O, S _ => true
  | _, O => false
  end.

(** [operator<], [operator>], [operator<=] and [operator>=] on containers. *)
Definition operator_lt (lhs rhs : SimpleVector) : bool :=
  std_lexicographical_compare
    (data_ lhs) (Z.to_nat (begin lhs))
    (Z.to_nat (end_ lhs) - Z.to_nat (begin lhs))
    (data_ rhs) (Z.to_nat (begin rhs))
    (Z.to_nat (end_ rhs) - Z.to_nat (begin rhs)).

Definition operator_gt (lhs rhs : SimpleVector) : bool :=
  operator_lt rhs lhs.

Definition operator_le (lhs rhs : SimpleVector) : bool :=
  negb (operator_gt lhs rhs).

Definition operator_ge (lhs rhs : SimpleVector) : bool :=
  negb (operator_lt lhs rhs).

(** The lexicographic order on lists, for comparison with [operator<]. *)
Fixpoint lexicographic_lt (xs ys : list T) : bool :=
  match xs, ys with
  | [], [] => false
  | [], _ :: _ => true
  | _ :: _, [] => false
  | x :: xs', y :: ys' =>
      if Type_lt x y then true
      else if Type_lt y x then false
      else lexicographic_lt xs' ys'
  end.

(** ** Arguments that refer to the container's own elements *)

(** [v.PushBack(v[idx])]: the argument of [PushBack(const Type& item)] is a
    reference to slot [idx] of the array, read when the source reads
    [item], that is after the elements were moved out of the old array. *)
Definition PushBack_own (idx : Z) (v : SimpleVector) : Result SimpleVector :=
  if idx <? size_ v then
    if size_ v =? capacity_ v then
      let new_capacity :=
        if capacity_ v =? 0 then 1 else size_t_wrap (capacity_ v * 2) in
      let new_data := ArrayPtr_new new_capacity in
      let '(old_data, new_data) :=
        std_move (data_ v) 0 (Z.to_nat (size_ v)) new_data 0 in
      match old_data !! Z.to_nat idx with
      | Some item =>
          Ok {| size_ := size_t_wrap (size_ v + 1);
                capacity_ := new_capacity;
                data_ := <[Z.to_nat (size_ v) := item]> new_data |}
      | None => Undefined
      end
    else
      match data_ v !! Z.to_nat idx with
      | Some item =>
          Ok {| size_ := size_t_wrap (size_ v + 1);
                capacity_ := capacity_ v;
                data_ := <[Z.to_nat (size_ v) := item]> (data_ v) |}
      | None => Undefined
      end
  else AssertFailed.

(** [v.Insert(pos, v[idx])]: the argument of
    [Insert(ConstIterator pos, const Type& value)] is a reference to slot
    [idx] of the array, read when the source reads [value], that is after
    the suffix was shifted when the array is kept. *)
Definition Insert_own (pos : Iterator) (idx : Z) (v : SimpleVector)
  : Result (Iterator * SimpleVector) :=
  if idx <? size_ v then
    if (begin v <=? pos) && (pos <=? end_ v) then
      let it := pos - 0 in
      if size_ v =? capacity_ v then
        let new_capacity :=
          if capacity_ v =? 0 then 1 else size_t_wrap (capacity_ v * 2) in
        let new_data := ArrayPtr_new new_capacity in
        let new_data := std_copy (data_ v) 0 (Z.to_nat it) new_data 0 in
        match data_ v !! Z.to_nat idx with
        | Some value =>
            let new_data := <[Z.to_nat it := value]> new_data in
            let new_data :=
              std_copy (data_ v) (Z.to_nat it)
                (Z.to_nat (size_ v) - Z.to_nat it)
                new_data (Z.to_nat (it + 1)) in
            Ok (0 + it,
                {| size_ := size_t_wrap (size_ v + 1);
                   capacity_ := new_capacity;
                   data_ := new_data |})
        | None => Undefined
        end
      else
        let buf :=
          std_copy_backward (data_ v) (Z.to_nat it)
            (Z.to_nat (size_ v) - Z.to_nat it) (Z.to_nat (size_ v + 1)) in
        match buf !! Z.to_nat idx with
        | Some value =>
            Ok (0 + it,
                {| size_ := size_t_wrap (size_ v + 1);
                   capacity_ := capacity_ v;
                   data_ := <[Z.to_nat it := value]> buf |})
        | None => Undefined
        end
    else AssertFailed
  else AssertFailed.

(** An argument of type [const Type&]: an object outside the container, or
    slot [idx] of the container's own array, as in [v.PushBack(v[idx])]. *)
Inductive Arg : Type :=
  | Outside (x : T)
  | Own (idx : Z).

(** The value the argument refers to when the call starts. *)
Definition Arg_value (a : Arg) (v : SimpleVector) : Result T :=
  match a with
  | Outside x => Ok x
  | Own idx => index idx v
  end.

(** [PushBack(const Type& item)] for either kind of argument. *)
Definition PushBack_ref (item : Arg) (v : SimpleVector) : Result SimpleVector :=
  match item with
  | Outside x => Ok (PushBack x v)
  | Own idx => PushBack_own idx v
  end.

(** [Insert(ConstIterator pos, const Type& value)] for either kind of
    argument. *)
Definition Insert_ref (pos : Iterator) (value : Arg) (v : SimpleVector)
  : Result (Iterator * SimpleVector) :=
  match value with
  | Outside x => Insert pos x v
  | Own idx => Insert_own pos idx v
  end.

(** ** Calls that keep the array in step with the counters *)

(** The object a call leaves with counters that no longer describe its
    array: the source of a move assignment between two objects. *)
Definition stale_source (c : call) : option nat :=
  match c with
  | assign_move this rhs => if decide (this <> rhs) then Some rhs else None
  | _ => None
  end.

(** An initializer list has a [size_t] number of elements. *)
Definition init_fits (c : call) : Prop :=
  match c with
  | new_init _ init => Z.of_nat (length init) <= SIZE_MAX
  | _ => True
  end.

(** The member functions that work on one object and keep its array or
    replace it by a larger one. *)
Definition member_call (c : call) : option nat :=
  match c with
  | call_GetSize this | call_GetCapacity this | call_IsEmpty this
  | call_index this _ | call_index_assign this _ _
  | call_At this _ | call_At_assign this _ _
  | call_Clear this | call_Reserve this _ | call_Resize this _
  | call_PushBack this _ | call_PushBack_move this _
  | call_Insert this _ _ | call_Insert_move this _ _
  | call_PopBack this | call_Erase this _ => Some this
  | _ => None
  end.

(** ** Objects and arrays in memory *)

(** An object as it lies in memory: the two counters and [raw_ptr_], the
    pointer its [ArrayPtr] holds ([None] is [nullptr]). *)
Record Object : Type := mkObject {
  obj_size : Z;
  obj_capacity : Z;
  raw_ptr_ : option nat
}.

(** The memory: the objects by address, the arrays by address, and the
    address the next [new Type[n]] returns. *)
Record Memory : Type := mkMemory {
  objects : gmap nat Object;
  arrays : gmap nat (list T);
  next_array : nat
}.

(** The array a pointer refers to; nothing behind [nullptr]. *)
Definition array_at (m : Memory) (p : option nat) : list T :=
  match p with
  | Some l => default [] (arrays m !! l)
  | None => []
  end.

(** The container an object stands for: its counters and the contents of the
    array its pointer refers to. *)
Definition load (m : Memory) (o : Object) : SimpleVector :=
  {| size_ := obj_size o; capacity_ := obj_capacity o;
     data_ := array_at m (raw_ptr_ o) |}.

Definition view (m : Memory) (a : nat) : option SimpleVector :=
  load m <$> objects m !! a.

(** All objects of the memory as containers: the store of [run]. *)
Definition views (m : Memory) : gmap nat SimpleVector :=
  load m <$> objects m.

(** Modelled from the spec: [ArrayPtr(size)] allocates a new array, and size
    0 holds no storage.  [contents] is what the constructor or member
    function has written to the array by the time it returns. *)
Definition ArrayPtr_alloc (size : Z) (contents : list T) (m : Memory)
  : option nat * Memory :=
  if size =? 0 then (None, m)
  else
    (Some (next_array m),
     {| objects := objects m;
        arrays := <[next_array m := contents]> (arrays m);
        next_array := S (next_array m) |}).

(** Modelled from the spec: the destructor of [ArrayPtr] releases the array
    it owns, if any. *)
Definition ArrayPtr_release (p : option nat) (m : Memory) : Memory :=
  match p with
  | Some l =>
      {| objects := objects m; arrays := delete l (arrays m);
         next_array := next_array m |}
  | None => m
  end.

(** Writes through [data_.Get()]: the array is changed where it lies. *)
Definition ArrayPtr_write (p : option nat) (contents : list T) (m : Memory)
  : Memory :=
  match p with
  | Some l =>
      {| objects := objects m; arrays := <[l := contents]> (arrays m);
         next_array := next_array m |}
  | None => m
  end.

Definition set_object (a : nat) (o : Object) (m : Memory) : Memory :=
  {| objects := <[a := o]> (objects m); arrays := arrays m;
     next_array := next_array m |}.

(** A constructor that leaves the container [v]: [this] holds no object yet,
    the array is allocated and filled, and [*this] takes it over. *)
Definition mem_construct (this : nat) (v : SimpleVector) (m : Memory)
  : Result Memory :=
  match objects m !! this with
  | Some _ => Undefined
  | None =>
      let '(p, m1) := ArrayPtr_alloc (capacity_ v) (data_ v) m in
      Ok (set_object this (mkObject (size_ v) (capacity_ v) p) m1)
  end.

(** [SimpleVector(const SimpleVector& other)] at [this]: [tmp_vector]
    allocates an array of its own, the elements of [other] are copied into
    it, and the swap hands it to [*this]. *)
Definition mem_construct_copy (this other : nat) (m : Memory) : Result Memory :=
  match view m other with
  | Some o => mem_construct this (SimpleVector_copy o) m
  | None => Undefined
  end.

(** [SimpleVector(SimpleVector&& other)] at [this]: the swap exchanges the
    counters and the pointers of [other] and of the default-initialised
    [*this]. *)
Definition mem_construct_move (this other : nat) (m : Memory) : Result Memory :=
  match objects m !! other with
  | Some o =>
      let m1 := set_object other (mkObject 0 0 None) m in
      match objects m1 !! this with
      | Some _ => Undefined
      | None => Ok (set_object this o m1)
      end
  | None => Undefined
  end.

(** [operator=(const SimpleVector& rhs)]: under [this != &rhs], [rhs_copy]
    is copy-constructed with an array of its own, the swap hands that array
    to [*this], and the destructor of [rhs_copy] releases the array [*this]
    held before. *)
Definition mem_assign_copy (this rhs : nat) (m : Memory) : Result Memory :=
  match objects m !! this, view m rhs with
  | Some t, Some r =>
      if decide (this <> rhs) then
        let rhs_copy := SimpleVector_copy r in
        let '(p, m1) :=
          ArrayPtr_alloc (capacity_ rhs_copy) (data_ rhs_copy) m in
        Ok (set_object this
              (mkObject (size_ rhs_copy) (capacity_ rhs_copy) p)
              (ArrayPtr_release (raw_ptr_ t) m1))
      else Ok m
  | _, _ => Undefined
  end.

(** [operator=(SimpleVector&& rhs)]: under [this != &rhs] the array of
    [*this] is released, the pointer of [rhs] passes to [*this] and [rhs]
    keeps [nullptr] (modelled from the spec, as [ArrayPtr_move_assign]);
    both counters are copied. *)
Definition mem_assign_move (this rhs : nat) (m : Memory) : Result Memory :=
  match objects m !! this, objects m !! rhs with
  | Some t, Some r =>
      if decide (this <> rhs) then
        Ok (set_object this (mkObject (obj_size r) (obj_capacity r) (raw_ptr_ r))
              (set_object rhs (mkObject (obj_size r) (obj_capacity r) None)
                 (ArrayPtr_release (raw_ptr_ t) m)))
      else Ok m
  | _, _ => Undefined
  end.

(** [this->swap(other)]: the counters and the pointers change places; no
    element is touched. *)
Definition mem_swap (this other : nat) (m : Memory) : Result Memory :=
  match objects m !! this, objects m !! other with
  | Some t, Some o => Ok (set_object this o (set_object other t m))
  | _, _ => Undefined
  end.

(** A member function [f] on the object at [this].  In the branches where
    the source allocates [new_data] ([reallocates]), the new array is
    allocated and filled, [data_.swap(new_data)] hands it to the object, and
    the destructor of [new_data] releases the old one.  In every other
    branch the source writes through [data_.Get()], into the array the
    object already holds. *)
Definition mem_member (this : nat) (f : SimpleVector -> Result SimpleVector)
    (reallocates : SimpleVector -> bool) (m : Memory) : Result Memory :=
  match objects m !! this with
  | None => Undefined
  | Some o =>
      let v := load m o in
      Result_map
        (fun v' =>
           if reallocates v then
             let '(p, m1) := ArrayPtr_alloc (capacity_ v') (data_ v') m in
             set_object this (mkObject (size_ v') (capacity_ v') p)
               (ArrayPtr_release (raw_ptr_ o) m1)
           else
             set_object this (mkObject (size_ v') (capacity_ v') (raw_ptr_ o))
               (ArrayPtr_write (raw_ptr_ o) (data_ v') m))
        (f v)
  end.

(** The branch conditions under which the source allocates a new array. *)
Definition Reserve_reallocates (new_capacity : Z) (v : SimpleVector) : bool :=
  capacity_ v <? new_capacity.

Definition Resize_reallocates (new_size : Z) (v : SimpleVector) : bool :=
  negb (new_size <=? size_ v) && negb (new_size <=? capacity_ v).

Definition PushBack_reallocates (v : SimpleVector) : bool :=
  size_ v =? capacity_ v.

Definition Insert_reallocates (v : SimpleVector) : bool :=
  size_ v =? capacity_ v.

Definition keeps_array (v : SimpleVector) : bool := false.

(** The calls of [call] on the memory. *)
Definition mem_run (c : call) (m : Memory) : Result Memory :=
  match c with
  | new_default this => mem_construct this SimpleVector_default m
  | new_reserved this obj => mem_construct this (SimpleVector_reserved obj) m
  | new_sized this size => mem_construct this (SimpleVector_sized size) m
  | new_filled this size value =>
      mem_construct this (SimpleVector_filled size value) m
  | new_filled_move this size value =>
      mem_construct this (fst (SimpleVector_filled_move size value)) m
  | new_init this init => mem_construct this (SimpleVector_init init) m
  | new_copy this other => mem_construct_copy this other m
  | new_move this other => mem_construct_move this other m
  | assign_copy this rhs => mem_assign_copy this rhs m
  | assign_move this rhs => mem_assign_move this rhs m
  | call_GetSize this => mem_member this (fun v => Ok v) keeps_array m
  | call_GetCapacity this => mem_member this (fun v => Ok v) keeps_array m
  | call_IsEmpty this => mem_member this (fun v => Ok v) keeps_array m
  | call_index this idx =>
      mem_member this (fun v => Result_map (fun _ => v) (index idx v))
        keeps_array m
  | call_index_assign this idx x =>
      mem_member this (index_assign idx x) keeps_array m
  | call_At this idx =>
      mem_member this (fun v => Result_map (fun _ => v) (At idx v))
        keeps_array m
  | call_At_assign this idx x =>
      mem_member this (At_assign idx x) keeps_array m
  | call_Clear this => mem_member this (fun v => Ok (Clear v)) keeps_array m
  | call_Reserve this new_capacity =>
      mem_member this (fun v => Ok (Reserve new_capacity v))
        (Reserve_reallocates new_capacity) m
  | call_Resize this new_size =>
      mem_member this (fun v => Ok (Resize new_size v))
        (Resize_reallocates new_size) m
  | call_PushBack this item =>
      mem_member this (fun v => Ok (PushBack item v)) PushBack_reallocates m
  | call_PushBack_move this item =>
      mem_member this (fun v => Ok (fst (PushBack_move item v)))
        PushBack_reallocates m
  | call_Insert this pos value =>
      mem_member this (fun v => Result_map snd (Insert pos value v))
        Insert_reallocates m
  | call_Insert_move this pos value =>
      mem_member this (fun v => Result_map snd (Insert_move pos value v))
        Insert_reallocates m
  | call_PopBack this => mem_member this PopBack keeps_array m
  | call_Erase this pos =>
      mem_member this (fun v => Result_map snd (Erase pos v)) keeps_array m
  | call_swap this other => mem_swap this other m
  end.

(** A call on the memory: one of [call], whose reference arguments are
    objects outside the container, or a [PushBack] or an [Insert] whose
    argument is an element of the receiver itself. *)
Inductive mem_call : Type :=
  | by_value (c : call)
  | call_PushBack_own (this : nat) (idx : Z)
  | call_Insert_own (this : nat) (pos : Iterator) (idx : Z).

Definition mem_step (c : mem_call) (m : Memory) : Result Memory :=
  match c with
  | by_value c => mem_run c m
  | call_PushBack_own this idx =>
      mem_member this (PushBack_own idx) PushBack_reallocates m
  | call_Insert_own this pos idx =>
      mem_member this (fun v => Result_map snd (Insert_own pos idx v))
        Insert_reallocates m
  end.

Fixpoint mem_step_all (cs : list mem_call) (m : Memory) : Result Memory :=
  match cs with
  | [] => Ok m
  | c :: cs' => Result_bind (mem_step c m) (mem_step_all cs')
  end.

(** The objects a call may change. *)
Definition mem_written (c : mem_call) : list nat :=
  match c with
  | by_value c => written c
  | call_PushBack_own this _ | call_Insert_own this _ _ => [this]
  end.

(** Exclusive ownership: every pointer an object holds refers to an array
    that exists, no two objects hold the same pointer, and every array lies
    below the next address to be handed out. *)
Definition owns (m : Memory) : Prop :=
  (forall a o l, objects m !! a = Some o -> raw_ptr_ o = Some l ->
     is_Some (arrays m !! l)) /\
  (forall a b o1 o2 l, objects m !! a = Some o1 -> objects m !! b = Some o2 ->
     raw_ptr_ o1 = Some l -> raw_ptr_ o2 = Some l -> a = b) /\
  (forall l, is_Some (arrays m !! l) -> (l < next_array m)%nat).

(** ** Facts about the element loops *)

Lemma size_t_wrap_small (x : Z) : 0 <= x <= SIZE_MAX -> size_t_wrap x = x.
Proof.
  unfold size_t_wrap, SIZE_MAX. intros H. apply Z.mod_small. lia.
Qed.

Lemma length_std_copy src first n dst d_first :
  length (std_copy src first n dst d_first) = length dst.
Proof.
  revert first dst d_first.
  induction n as [|n IH]; intros first dst d_first; simpl; [done|].
  destruct (src !! first); [|done].
  by rewrite IH, length_insert.
Qed.

Lemma std_copy_closed src first n dst d_first :
  (first + n <= length src)%nat ->
  (d_first + n <= length dst)%nat ->
  std_copy src first n dst d_first
  = take d_first dst ++ take n (drop first src) ++ drop (d_first + n) dst.
Proof.
  revert first dst d_first.
  induction n as [|n IH]; intros first dst d_first Hs Hd; simpl.
  - rewrite Nat.add_0_r. by rewrite take_drop.
  - destruct (lookup_lt_is_Some_2 src first) as [x Hx]; [lia|].
    rewrite Hx.
    rewrite IH by (rewrite ?length_insert; lia).
    rewrite (drop_S _ _ _ Hx). simpl.
    rewrite (take_S_r (<[d_first:=x]> dst) d_first x)
      by (apply list_lookup_insert_eq; lia).
    rewrite take_insert_ge by lia.
    rewrite drop_insert_lt by lia.
    rewrite <- app_assoc. simpl. repeat f_equal. lia.
Qed.

(** Two source arrays that agree on the range read give the same copy. *)
Lemma std_copy_ext src src' first n dst d_first :
  (forall i, (first <= i < first + n)%nat -> src !! i = src' !! i) ->
  std_copy src first n dst d_first = std_copy src' first n dst d_first.
Proof.
  revert first dst d_first.
  induction n as [|n IH]; intros first dst d_first Hag; simpl; [done|].
  rewrite <- (Hag first) by lia.
  destruct (src !! first); [|done].
  apply IH. intros i Hi. apply Hag. lia.
Qed.

(** The destination of [std::move] is the destination of [std::copy]. *)
Lemma std_move_snd src first n dst d_first :
  snd (std_move src first n dst d_first) = std_copy src first n dst d_first.
Proof.
  revert src first dst d_first.
  induction n as [|n IH]; intros src first dst d_first; simpl; [done|].
  destruct (src !! first) as [x|] eqn:Hx; [|done].
  rewrite IH. apply std_copy_ext.
  intros i Hi. apply list_lookup_insert_ne. lia.
Qed.

(** The source of [std::move] changes only inside the range moved. *)
Lemma std_move_fst_lookup src first n dst d_first i :
  (i < first \/ first + n <= i)%nat ->
  fst (std_move src first n dst d_first) !! i = src !! i.
Proof.
  revert src first dst d_first.
  induction n as [|n IH]; intros src first dst d_first Hi; simpl; [done|].
  destruct (src !! first) as [x|] eqn:Hx; [|done].
  rewrite IH by lia. apply list_lookup_insert_ne. lia.
Qed.

Lemma length_std_move_fst src first n dst d_first :
  length (fst (std_move src first n dst d_first)) = length src.
Proof.
  revert src first dst d_first.
  induction n as [|n IH]; intros src first dst d_first; simpl; [done|].
  destruct (src !! first) as [x|] eqn:Hx; [|done].
  by rewrite IH, length_insert.
Qed.

Lemma length_std_copy_backward buf first n d_last :
  length (std_copy_backward buf first n d_last) = length buf.
Proof.
  revert buf d_last.
  induction n as [|n IH]; intros buf d_last; simpl; [done|].
  destruct (buf !! (first + n)%nat); [|done].
  by rewrite IH, length_insert.
Qed.

(** Copying backward to a range that starts at or after the source range
    reads every element before it is overwritten. *)
Lemma std_copy_backward_closed buf first n d_last :
  (first + n <= d_last)%nat ->
  (d_last <= length buf)%nat ->
  std_copy_backward buf first n d_last
  = take (d_last - n) buf ++ take n (drop first buf) ++ drop d_last buf.
Proof.
  revert buf d_last.
  induction n as [|n IH]; intros buf d_last Hs Hd; simpl.
  - rewrite Nat.sub_0_r. by rewrite take_drop.
  - destruct (lookup_lt_is_Some_2 buf (first + n)) as [x Hx]; [lia|].
    rewrite Hx.
    rewrite IH by (rewrite ?length_insert; lia).
    rewrite take_insert_ge by lia.
    replace (pred d_last - n)%nat with (d_last - S n)%nat by lia.
    f_equal.
    rewrite (take_drop_commute (<[_ := _]> buf)).
    rewrite take_insert_ge by lia.
    rewrite <- take_drop_commute.
    rewrite (drop_S (<[pred d_last:=x]> buf) x (pred d_last))
      by (apply list_lookup_insert_eq; lia).
    rewrite drop_insert_lt by lia.
    replace (S (pred d_last)) with d_last by lia.
    replace (S n) with (n + 1)%nat by lia.
    rewrite <- (take_take_drop (drop first buf) n 1).
    rewrite <- app_assoc. f_equal.
    rewrite drop_drop.
    by rewrite (drop_S _ _ _ Hx).
Qed.

Lemma length_std_move_backward buf first n d_last :
  length (std_move_backward buf first n d_last) = length buf.
Proof.
  revert buf d_last.
  induction n as [|n IH]; intros buf d_last; simpl; [done|].
  destruct (buf !! (first + n)%nat); [|done].
  by rewrite IH, !length_insert.
Qed.

(** Shifting right by one slot: moving and copying backward differ at most
    in the slot the shift frees.  The arrays may already differ in the slot
    that the next assignment overwrites. *)
Lemma std_move_backward_shift buf1 buf2 first n :
  length buf1 = length buf2 ->
  (first + n < length buf1)%nat ->
  (forall i, i <> (first + n)%nat -> buf1 !! i = buf2 !! i) ->
  forall i, i <> first ->
    std_move_backward buf1 first n (S (first + n)) !! i
    = std_copy_backward buf2 first n (S (first + n)) !! i.
Proof.
  revert buf1 buf2.
  induction n as [|n IH]; intros buf1 buf2 Hlen Hn Hag i Hi; simpl.
  - apply Hag. lia.
  - rewrite <- (Hag (first + n)%nat) by lia.
    destruct (lookup_lt_is_Some_2 buf1 (first + n)) as [x Hx]; [lia|].
    rewrite Hx.
    replace (first + S n)%nat with (S (first + n)) by lia.
    apply IH; rewrite ?length_insert; [done|lia| |done].
    intros j Hj.
    destruct (decide (j = S (first + n))) as [->|Hne].
    + rewrite !list_lookup_insert_eq; rewrite ?length_insert; [done|lia|lia].
    + rewrite !list_lookup_insert_ne by lia. apply Hag. lia.
Qed.

Lemma length_std_copy_move_iterator buf first n d_first :
  length (std_copy_move_iterator buf first n d_first) = length buf.
Proof.
  revert buf first d_first.
  induction n as [|n IH]; intros buf first d_first; simpl; [done|].
  destruct (buf !! first); [|done].
  by rewrite IH, !length_insert.
Qed.

(** Shifting left by one slot: the slots up to the new end hold the array
    without the slot at [d_first]. *)
Lemma std_copy_move_iterator_shift buf d_first n :
  (S d_first + n <= length buf)%nat ->
  take (d_first + n) (std_copy_move_iterator buf (S d_first) n d_first)
  = take d_first buf ++ take n (drop (S d_first) buf).
Proof.
  revert buf d_first.
  induction n as [|n IH]; intros buf d_first Hlen; simpl.
  - rewrite Nat.add_0_r. by rewrite take_0, app_nil_r.
  - destruct (lookup_lt_is_Some_2 buf (S d_first)) as [x Hx]; [lia|].
    rewrite Hx.
    replace (d_first + S n)%nat with (S d_first + n)%nat by lia.
    rewrite IH by (rewrite !length_insert; lia).
    rewrite (take_S_r _ d_first x)
      by (apply list_lookup_insert_eq; rewrite length_insert; lia).
    rewrite !take_insert_ge by lia.
    rewrite !drop_insert_lt by lia.
    rewrite (drop_S _ _ _ Hx).
    rewrite <- app_assoc. done.
Qed.

(** The slots from the old end on are not assigned by the left shift. *)
Lemma std_copy_move_iterator_tail buf d_first n i :
  (S d_first + n <= i)%nat ->
  std_copy_move_iterator buf (S d_first) n d_first !! i = buf !! i.
Proof.
  revert buf d_first.
  induction n as [|n IH]; intros buf d_first Hi; simpl; [done|].
  destruct (buf !! S d_first) as [x|] eqn:Hx; [|done].
  rewrite IH by lia.
  by rewrite !list_lookup_insert_ne by lia.
Qed.

Lemma length_std_fill buf first n value :
  length (std_fill buf first n value) = length buf.
Proof.
  revert buf first.
  induction n as [|n IH]; intros buf first; simpl; [done|].
  by rewrite IH, length_insert.
Qed.

Lemma std_fill_closed buf first n value :
  (first + n <= length buf)%nat ->
  std_fill buf first n value
  = take first buf ++ replicate n value ++ drop (first + n) buf.
Proof.
  revert buf first.
  induction n as [|n IH]; intros buf first Hlen; simpl.
  - rewrite Nat.add_0_r. by rewrite take_drop.
  - rewrite IH by (rewrite length_insert; lia).
    rewrite (take_S_r _ first value) by (apply list_lookup_insert_eq; lia).
    rewrite take_insert_ge by lia.
    rewrite drop_insert_lt by lia.
    rewrite <- app_assoc. simpl. repeat f_equal. lia.
Qed.

Lemma length_std_generate {St : Type} (g : St -> T * St) s buf first n :
  length (fst (std_generate g s buf first n)) = length buf.
Proof.
  revert s buf first.
  induction n as [|n IH]; intros s buf first; simpl; [done|].
  destruct (g s) as [x s'].
  by rewrite IH, length_insert.
Qed.

(** Generating with [Type()] is filling with [Type()]. *)
Lemma std_generate_default buf first n :
  fst (std_generate gen_default tt buf first n)
  = std_fill buf first n Type_default.
Proof.
  revert buf first.
  induction n as [|n IH]; intros buf first; simpl; [done|].
  apply IH.
Qed.

(** ** Facts about the operations *)

(** Names the destination of a [std::move] between arrays and forgets the
    moved-from source. *)
Ltac std_move_dest :=
  match goal with
  | |- context [std_move ?s ?f ?n ?d ?df] =>
      let H := fresh "Hmv" in
      let old := fresh "old_data" in
      let new := fresh "new_data" in
      pose proof (std_move_snd s f n d df) as H;
      destruct (std_move s f n d df) as [old new]; simpl in H; subst new
  end.

Lemma wf_length v : wf v -> length (data_ v) = Z.to_nat (capacity_ v).
Proof. by intros (_ & _ & H). Qed.

Lemma length_elements v : wf v -> length (elements v) = Z.to_nat (size_ v).
Proof.
  intros (Hs & _ & Hl). unfold elements. rewrite length_take. lia.
Qed.

(** Relocating the live elements into a fresh array that can hold them. *)
Lemma relocate_closed v n :
  wf v -> size_ v <= n ->
  std_copy (data_ v) 0 (Z.to_nat (size_ v)) (ArrayPtr_new n) 0
  = elements v ++ replicate (Z.to_nat n - Z.to_nat (size_ v)) Type_default.
Proof.
  intros (Hs & Hc & Hl) Hn. unfold ArrayPtr_new, elements.
  rewrite std_copy_closed by (rewrite ?length_replicate; lia).
  rewrite take_0, drop_0, drop_replicate. done.
Qed.

(** Writing the slot just after a prefix of known length. *)
Lemma take_insert_after (l r : list T) k x :
  length l = k -> r <> [] ->
  take (S k) (<[k := x]> (l ++ r)) = l ++ [x].
Proof.
  intros <- Hr. destruct r as [|y r]; [done|].
  replace (length l) with (length l + 0)%nat at 2 by lia.
  rewrite insert_app_r. simpl.
  replace (S (length l)) with (length l + 1)%nat by lia.
  by rewrite take_app_add.
Qed.

Lemma PushBack_spec item v :
  wf v -> (size_ v = capacity_ v -> growth_fits v) ->
  size_ (PushBack item v) = size_ v + 1 /\
  capacity_ (PushBack item v)
  = (if size_ v =? capacity_ v
     then if capacity_ v =? 0 then 1 else capacity_ v * 2
     else capacity_ v) /\
  elements (PushBack item v) = elements v ++ [item] /\
  wf (PushBack item v).
Proof.
  intros Hwf Hfit. pose proof Hwf as (Hs & Hc & Hl).
  unfold PushBack, growth_fits in *.
  destruct (size_ v =? capacity_ v) eqn:Hfull.
  - apply Z.eqb_eq in Hfull. specialize (Hfit Hfull).
    set (new_capacity := if capacity_ v =? 0 then 1 else size_t_wrap (capacity_ v * 2)).
    assert (Hnc : new_capacity
                  = if capacity_ v =? 0 then 1 else capacity_ v * 2).
    { unfold new_capacity. destruct (capacity_ v =? 0); [done|].
      apply size_t_wrap_small. lia. }
    assert (Hgt : size_ v < new_capacity).
    { rewrite Hnc. destruct (capacity_ v =? 0) eqn:H0; lia. }
    assert (Hmax : new_capacity <= SIZE_MAX).
    { rewrite Hnc. destruct (capacity_ v =? 0) eqn:H0; [done|lia]. }
    clearbody new_capacity.
    std_move_dest.
    rewrite relocate_closed by (done || lia).
    unfold elements; simpl.
    rewrite size_t_wrap_small by lia.
    split; [done|]. split; [exact Hnc|]. split.
    + replace (Z.to_nat (size_ v + 1)) with (S (Z.to_nat (size_ v))) by lia.
      apply take_insert_after.
      * rewrite length_take. lia.
      * intros Hnil. apply (f_equal length) in Hnil.
        rewrite length_replicate in Hnil. simpl in Hnil. lia.
    + unfold wf; simpl.
      rewrite length_insert, length_app, length_take, length_replicate. lia.
  - apply Z.eqb_neq in Hfull.
    unfold elements; simpl.
    rewrite size_t_wrap_small by lia.
    split; [done|]. split; [done|]. split.
    + replace (Z.to_nat (size_ v + 1)) with (S (Z.to_nat (size_ v))) by lia.
      rewrite <- (take_drop (Z.to_nat (size_ v)) (data_ v)) at 1.
      apply take_insert_after.
      * rewrite length_take. lia.
      * intros Hnil. apply (f_equal length) in Hnil.
        rewrite length_drop in Hnil. simpl in Hnil. lia.
    + unfold wf; simpl. rewrite length_insert. lia.
Qed.

Lemma PushBack_move_fst item v :
  fst (PushBack_move item v) = PushBack item v.
Proof.
  unfold PushBack_move, PushBack.
  destruct (size_ v =? capacity_ v); [|done].
  by destruct (std_move _ _ _ _ _).
Qed.

Lemma doubled_capacity_ge n : 0 <= n -> n <= doubled_capacity n.
Proof.
  intros Hn. unfold doubled_capacity.
  destruct (n =? 0) eqn:H0; [lia|]. apply Z.eqb_neq in H0.
  destruct (decide (n = 1)) as [->|H1]; [done|].
  apply Z.log2_up_spec. lia.
Qed.

(** One more item doubles a full power-of-two capacity and leaves any other
    as it is. *)
Lemma doubled_capacity_succ n :
  0 <= n ->
  doubled_capacity (n + 1)
  = if n =? doubled_capacity n
    then if doubled_capacity n =? 0 then 1 else doubled_capacity n * 2
    else doubled_capacity n.
Proof.
  intros Hn. unfold doubled_capacity.
  destruct (n =? 0) eqn:H0.
  { apply Z.eqb_eq in H0. by subst n. }
  apply Z.eqb_neq in H0.
  replace (n + 1 =? 0) with false by (symmetry; apply Z.eqb_neq; lia).
  assert (Hpos : 0 < 2 ^ Z.log2_up n).
  { apply Z.pow_pos_nonneg; [lia|apply Z.log2_up_nonneg]. }
  replace (2 ^ Z.log2_up n =? 0) with false by (symmetry; apply Z.eqb_neq; lia).
  change (n + 1) with (Z.succ n).
  destruct (n =? 2 ^ Z.log2_up n) eqn:Hp.
  - apply Z.eqb_eq in Hp.
    assert (Hs : Z.log2_up (Z.succ n) = Z.succ (Z.log2_up n)).
    { apply Z.log2_up_eq_succ_iff_pow2; [lia|].
      by exists (Z.log2_up n). }
    rewrite Hs, Z.pow_succ_r by apply Z.log2_up_nonneg. lia.
  - apply Z.eqb_neq in Hp.
    destruct (Z.log2_up_succ_or n) as [Hs|Hs]; [|by rewrite Hs].
    apply Z.log2_up_eq_succ_iff_pow2 in Hs; [|lia].
    destruct Hs as (b & Hnb).
    assert (0 <= b).
    { destruct (Z.le_gt_cases 0 b) as [|Hneg]; [done|].
      rewrite Z.pow_neg_r in Hnb by done. lia. }
    exfalso. apply Hp. rewrite Hnb at 2. by rewrite Z.log2_up_pow2.
Qed.

Lemma PushBack_all_spec items v :
  wf v ->
  size_ v + Z.of_nat (length items) <= 2 ^ 63 ->
  capacity_ v = doubled_capacity (size_ v) ->
  size_ (PushBack_all items v) = size_ v + Z.of_nat (length items) /\
  capacity_ (PushBack_all items v)
  = doubled_capacity (size_ v + Z.of_nat (length items)) /\
  elements (PushBack_all items v) = elements v ++ items /\
  wf (PushBack_all items v).
Proof.
  revert v.
  induction items as [|x items IH]; intros v Hwf Hlen Hcap;
    cbn [length fold_left PushBack_all] in *.
  - rewrite Z.add_0_r, app_nil_r. done.
  - pose proof Hwf as (Hs & Hc & Hl).
    rewrite Nat2Z.inj_succ in *.
    destruct (PushBack_spec x v Hwf) as (Hs1 & Hc1 & He1 & Hwf1).
    { intros Hfull. unfold growth_fits, SIZE_MAX. lia. }
    destruct (IH (PushBack x v) Hwf1) as (Hs2 & Hc2 & He2 & Hwf2).
    + lia.
    + rewrite Hc1, Hs1, Hcap. symmetry. apply doubled_capacity_succ. lia.
    + unfold PushBack_all in *. cbn [fold_left].
      rewrite Hs2, Hc2, He2, Hs1, He1.
      rewrite <- app_assoc. simpl.
      replace (size_ v + 1 + Z.of_nat (length items))
        with (size_ v + Z.succ (Z.of_nat (length items))) by lia.
      done.
Qed.

Lemma Reserve_grow n v :
  wf v -> capacity_ v < n <= SIZE_MAX ->
  size_ (Reserve n v) = size_ v /\
  capacity_ (Reserve n v) = n /\
  elements (Reserve n v) = elements v /\
  wf (Reserve n v).
Proof.
  intros Hwf Hn. pose proof Hwf as (Hs & Hc & Hl).
  unfold Reserve.
  replace (capacity_ v <? n) with true by (symmetry; apply Z.ltb_lt; lia).
  std_move_dest.
  rewrite relocate_closed by (done || lia).
  split; [done|]. split; [done|]. split.
  - unfold elements at 1; simpl.
    rewrite take_app_length'; [done|].
    by rewrite length_elements.
  - unfold wf; simpl.
    rewrite length_app, length_replicate, length_elements by done. lia.
Qed.

Lemma Reserve_noop n v : n <= capacity_ v -> Reserve n v = v.
Proof.
  intros Hn. unfold Reserve.
  by replace (capacity_ v <? n) with false by (symmetry; apply Z.ltb_ge; lia).
Qed.

(** Filling the slots after a prefix, seen up to the end of the filled range. *)
Lemma take_std_fill buf first n value :
  (first + n <= length buf)%nat ->
  take (first + n) (std_fill buf first n value)
  = take first buf ++ replicate n value.
Proof.
  intros Hlen. rewrite std_fill_closed by done.
  rewrite app_assoc. rewrite take_app_length'; [done|].
  rewrite length_app, length_take, length_replicate. lia.
Qed.

Lemma Resize_spec n v :
  wf v -> 0 <= n <= SIZE_MAX ->
  size_ (Resize n v) = n /\
  capacity_ (Resize n v)
  = (if n <=? capacity_ v then capacity_ v
     else Z.max n (size_t_wrap (capacity_ v * 2))) /\
  elements (Resize n v)
  = take (Z.to_nat n) (elements v)
    ++ replicate (Z.to_nat n - Z.to_nat (size_ v)) Type_default /\
  (n <= size_ v -> data_ (Resize n v) = data_ v) /\
  wf (Resize n v).
Proof.
  intros Hwf Hn. pose proof Hwf as (Hs & Hc & Hl).
  unfold Resize.
  destruct (n <=? size_ v) eqn:H1.
  { apply Z.leb_le in H1.
    replace (n <=? capacity_ v) with true by (symmetry; apply Z.leb_le; lia).
    unfold elements, wf; simpl.
    replace (Z.to_nat n - Z.to_nat (size_ v))%nat with 0%nat by lia.
    rewrite take_take, app_nil_r.
    replace (Z.to_nat n `min` Z.to_nat (size_ v))%nat with (Z.to_nat n) by lia.
    repeat split; (done || lia). }
  apply Z.leb_gt in H1.
  assert (Htake : take (Z.to_nat n) (elements v) = elements v).
  { apply take_ge. rewrite length_elements by done. lia. }
  rewrite Htake.
  destruct (n <=? capacity_ v) eqn:H2.
  - apply Z.leb_le in H2.
    rewrite std_generate_default.
    split; [done|]. split; [done|]. split; [|split; [lia|]].
    + unfold elements at 1; simpl.
      replace (Z.to_nat n)
        with (Z.to_nat (size_ v) + (Z.to_nat n - Z.to_nat (size_ v)))%nat
        at 1 by lia.
      apply take_std_fill. lia.
    + unfold wf; simpl. rewrite length_std_fill. lia.
  - apply Z.leb_gt in H2.
    assert (Hw : 0 <= size_t_wrap (capacity_ v * 2) <= SIZE_MAX).
    { unfold size_t_wrap, SIZE_MAX.
      pose proof (Z.mod_pos_bound (capacity_ v * 2) (2 ^ 64)). lia. }
    set (new_capacity := Z.max n (size_t_wrap (capacity_ v * 2))) in *.
    assert (Hnc : n <= new_capacity <= SIZE_MAX) by lia.
    clearbody new_capacity.
    std_move_dest.
    rewrite relocate_closed by (done || lia).
    rewrite std_generate_default.
    split; [done|]. split; [done|]. split; [|split; [lia|]].
    + unfold elements at 1; simpl.
      replace (Z.to_nat n)
        with (Z.to_nat (size_ v) + (Z.to_nat n - Z.to_nat (size_ v)))%nat
        at 1 by lia.
      rewrite take_std_fill.
      * rewrite take_app_length'; [done|]. by rewrite length_elements.
      * rewrite length_app, length_replicate, length_elements by done. lia.
    + unfold wf; simpl.
      rewrite length_std_fill, length_app, length_replicate,
        length_elements by done.
      lia.
Qed.

(** The live elements after an insertion, from the three pieces the source
    assembles: the prefix with the new value, the shifted suffix, the rest. *)
Lemma elements_spliced (v : SimpleVector) (it k : nat) value (a rest : list T) :
  wf v -> (it <= Z.to_nat (size_ v))%nat ->
  a = take it (data_ v) ++ [value] ->
  k = S (Z.to_nat (size_ v)) ->
  take k (a ++ take (Z.to_nat (size_ v) - it) (drop it (data_ v)) ++ rest)
  = take it (elements v) ++ value :: drop it (elements v).
Proof.
  intros (Hs & Hc & Hl) Hit -> ->. unfold elements.
  rewrite take_take, Nat.min_l by lia.
  rewrite app_assoc, take_app_length'.
  - rewrite <- app_assoc. simpl. do 2 f_equal.
    rewrite take_drop_commute. do 2 f_equal. lia.
  - rewrite !length_app, !length_take, length_drop. simpl. lia.
Qed.

Lemma Insert_spec pos value v :
  wf v -> 0 <= pos <= size_ v ->
  (size_ v = capacity_ v -> growth_fits v) ->
  exists v',
    Insert pos value v = Ok (pos, v') /\
    size_ v' = size_ v + 1 /\
    capacity_ v'
    = (if size_ v =? capacity_ v
       then if capacity_ v =? 0 then 1 else capacity_ v * 2
       else capacity_ v) /\
    elements v'
    = take (Z.to_nat pos) (elements v)
      ++ value :: drop (Z.to_nat pos) (elements v) /\
    wf v'.
Proof.
  intros Hwf Hpos Hfit. pose proof Hwf as (Hs & Hc & Hl).
  unfold Insert, begin, end_, growth_fits in *.
  replace ((0 <=? pos) && (pos <=? 0 + size_ v)) with true
    by (symmetry; apply andb_true_iff; split; apply Z.leb_le; lia).
  replace (pos - 0) with pos by lia. replace (0 + pos) with pos by lia.
  destruct (size_ v =? capacity_ v) eqn:Hfull.
  - apply Z.eqb_eq in Hfull. specialize (Hfit Hfull).
    set (new_capacity := if capacity_ v =? 0 then 1 else size_t_wrap (capacity_ v * 2)).
    assert (Hnc : new_capacity
                  = if capacity_ v =? 0 then 1 else capacity_ v * 2).
    { unfold new_capacity. destruct (capacity_ v =? 0); [done|].
      apply size_t_wrap_small. lia. }
    assert (Hgt : size_ v < new_capacity <= SIZE_MAX).
    { rewrite Hnc. destruct (capacity_ v =? 0) eqn:H0;
        unfold SIZE_MAX in *; lia. }
    clearbody new_capacity.
    eexists. split; [reflexivity|]. simpl.
    rewrite size_t_wrap_small by lia.
    split; [done|]. split; [exact Hnc|].
    unfold ArrayPtr_new.
    rewrite (std_copy_closed _ 0 (Z.to_nat pos))
      by (rewrite ?length_replicate; lia).
    rewrite take_0, drop_0, drop_replicate. simpl.
    replace (Z.to_nat (pos + 1)) with (S (Z.to_nat pos)) by lia.
    split.
    + unfold elements at 1; simpl.
      rewrite std_copy_closed
        by (rewrite ?length_insert, ?length_app, ?length_take,
              ?length_replicate; lia).
      rewrite take_insert_after.
      * apply elements_spliced; (done || lia).
      * rewrite length_take. lia.
      * intros Hnil. apply (f_equal length) in Hnil.
        rewrite length_replicate in Hnil. simpl in Hnil. lia.
    + unfold wf; simpl.
      rewrite length_std_copy, length_insert, length_app, length_take,
        length_replicate.
      lia.
  - apply Z.eqb_neq in Hfull.
    eexists. split; [reflexivity|]. simpl.
    rewrite size_t_wrap_small by lia.
    split; [done|]. split; [done|].
    rewrite std_copy_backward_closed by lia.
    replace (Z.to_nat (size_ v + 1) - (Z.to_nat (size_ v) - Z.to_nat pos))%nat
      with (S (Z.to_nat pos)) by lia.
    destruct (lookup_lt_is_Some_2 (data_ v) (Z.to_nat pos)) as [y Hy]; [lia|].
    rewrite (take_S_r _ _ _ Hy), <- app_assoc.
    rewrite insert_app_r_alt by (rewrite length_take; lia).
    rewrite length_take.
    replace (Z.to_nat pos - Z.to_nat pos `min` length (data_ v))%nat
      with 0%nat by lia.
    simpl.
    split.
    + unfold elements at 1; simpl.
      change (value :: ?l) with ([value] ++ l). rewrite app_assoc.
      apply elements_spliced; (done || lia).
    + unfold wf; simpl.
      rewrite length_app, length_take. simpl.
      rewrite length_app, length_take, !length_drop. lia.
Qed.


(** Inserting by move leaves the container as inserting by copy does. *)
Lemma Insert_move_eq pos value v :
  wf v -> 0 <= pos <= size_ v ->
  Insert_move pos value v = Insert pos value v.
Proof.
  intros (Hs & Hc & Hl) Hpos. unfold Insert_move, Insert, begin, end_.
  destruct ((0 <=? pos) && (pos <=? 0 + size_ v)); [|done].
  replace (pos - 0) with pos by lia.
  destruct (size_ v =? capacity_ v) eqn:Hfull.
  - set (new_capacity :=
           if capacity_ v =? 0 then 1 else size_t_wrap (capacity_ v * 2)).
    clearbody new_capacity.
    assert (Hold : forall i, (Z.to_nat pos <= i)%nat ->
              fst (std_move (data_ v) 0 (Z.to_nat pos)
                     (ArrayPtr_new new_capacity) 0) !! i = data_ v !! i).
    { intros i Hi. apply std_move_fst_lookup. lia. }
    pose proof (std_move_snd (data_ v) 0 (Z.to_nat pos)
                  (ArrayPtr_new new_capacity) 0) as Hnew.
    destruct (std_move (data_ v) 0 (Z.to_nat pos) _ 0) as [old_data new_data].
    simpl in Hold, Hnew. subst new_data.
    std_move_dest.
    do 3 f_equal. apply std_copy_ext. intros i Hi. apply Hold. lia.
  - apply Z.eqb_neq in Hfull.
    do 3 f_equal. apply list_eq. intros i.
    destruct (decide (i = Z.to_nat pos)) as [->|Hne].
    + rewrite !list_lookup_insert_eq;
        rewrite ?length_std_move_backward, ?length_std_copy_backward;
        [done|lia|lia].
    + rewrite !list_lookup_insert_ne by done.
      replace (Z.to_nat (size_ v + 1))
        with (S (Z.to_nat pos + (Z.to_nat (size_ v) - Z.to_nat pos))) by lia.
      apply std_move_backward_shift; [done|lia|done|done].
Qed.

Lemma Erase_spec pos v :
  wf v -> 0 <= pos < size_ v ->
  exists v',
    Erase pos v = Ok (pos, v') /\
    size_ v' = size_ v - 1 /\
    capacity_ v' = capacity_ v /\
    elements v'
    = take (Z.to_nat pos) (elements v)
      ++ drop (S (Z.to_nat pos)) (elements v) /\
    wf v'.
Proof.
  intros (Hs & Hc & Hl) Hpos. unfold Erase, begin, end_.
  replace ((0 <=? pos) && (pos <? 0 + size_ v)) with true
    by (symmetry; apply andb_true_iff; split;
        [apply Z.leb_le|apply Z.ltb_lt]; lia).
  replace (pos - 0) with pos by lia. replace (0 + pos) with pos by lia.
  eexists. split; [reflexivity|]. simpl.
  rewrite size_t_wrap_small by lia.
  split; [done|]. split; [done|].
  replace (Z.to_nat (pos + 1)) with (S (Z.to_nat pos)) by lia.
  split.
  - unfold elements; simpl.
    replace (Z.to_nat (size_ v - 1))
      with (Z.to_nat pos + (Z.to_nat (size_ v) - S (Z.to_nat pos)))%nat by lia.
    rewrite std_copy_move_iterator_shift by lia.
    rewrite take_take, Nat.min_l by lia.
    f_equal. rewrite take_drop_commute. do 2 f_equal. lia.
  - unfold wf; simpl. rewrite length_std_copy_move_iterator. lia.
Qed.

Lemma PopBack_spec v :
  wf v -> 0 < size_ v ->
  PopBack v
  = Ok {| size_ := size_ v - 1; capacity_ := capacity_ v; data_ := data_ v |}.
Proof.
  intros (Hs & Hc & Hl) Hpos. unfold PopBack.
  replace (0 <? size_ v) with true by (symmetry; apply Z.ltb_lt; lia).
  rewrite size_t_wrap_small by lia. done.
Qed.

(** [At] throws exactly when the index is not below the size. *)
Lemma At_throws idx v :
  (exists what, At idx v = Throw_out_of_range what) <-> size_ v <= idx.
Proof.
  unfold At. destruct (size_ v <=? idx) eqn:H.
  - apply Z.leb_le in H. split; [done|]. intros _. by eexists.
  - apply Z.leb_gt in H. split; [|lia].
    intros [what Hw]. by destruct (data_ v !! Z.to_nat idx).
Qed.

Lemma At_ok idx v :
  wf v -> 0 <= idx < size_ v ->
  exists x, At idx v = Ok x /\ elements v !! Z.to_nat idx = Some x.
Proof.
  intros (Hs & Hc & Hl) Hidx. unfold At, elements.
  replace (size_ v <=? idx) with false by (symmetry; apply Z.leb_gt; lia).
  destruct (lookup_lt_is_Some_2 (data_ v) (Z.to_nat idx)) as [x Hx]; [lia|].
  rewrite Hx. exists x. split; [done|].
  rewrite lookup_take_lt by lia. done.
Qed.

(** ** The counters stay ordered *)

Lemma size_t_wrap_bounds (x : Z) : 0 <= x -> 0 <= size_t_wrap x <= x.
Proof.
  intros Hx. unfold size_t_wrap. split.
  - apply Z.mod_pos_bound. lia.
  - apply Z.mod_le; lia.
Qed.

Lemma wf_sized v : wf v -> sized v.
Proof. by intros (H & _). Qed.

(** Counters after a call, whatever the arrays hold. *)
Ltac counters :=
  unfold sized, growth_fits, is_size_t, begin, end_ in *; simpl in *;
  repeat match goal with
    | |- context [size_t_wrap ?x] =>
        lazymatch goal with
        | _ : 0 <= size_t_wrap x <= x |- _ => fail
        | _ => idtac
        end;
        let H := fresh "Hw" in
        assert (H : 0 <= size_t_wrap x <= x)
          by (apply size_t_wrap_bounds; lia)
    end;
  try lia.

Lemma PushBack_sized item v :
  sized v -> growth_fits v -> sized (PushBack item v).
Proof.
  intros Hs Hf. unfold PushBack.
  destruct (size_ v =? capacity_ v) eqn:Hfull.
  - apply Z.eqb_eq in Hfull. destruct (std_move _ _ _ _ _) as [? ?].
    destruct (capacity_ v =? 0) eqn:H0.
    + apply Z.eqb_eq in H0. unfold sized in *; simpl.
      rewrite Hfull, H0. done.
    + apply Z.eqb_neq in H0. unfold sized, growth_fits in *; simpl.
      rewrite !size_t_wrap_small by lia. lia.
  - apply Z.eqb_neq in Hfull. counters.
Qed.

Lemma Insert_sized pos value v it v' :
  sized v -> growth_fits v ->
  Insert pos value v = Ok (it, v') -> sized v'.
Proof.
  intros Hs Hf. unfold Insert.
  destruct (_ && _); [|done].
  destruct (size_ v =? capacity_ v) eqn:Hfull; intros [= <- <-].
  - apply Z.eqb_eq in Hfull.
    destruct (capacity_ v =? 0) eqn:H0.
    + apply Z.eqb_eq in H0. unfold sized in *; simpl.
      rewrite Hfull, H0. done.
    + apply Z.eqb_neq in H0. unfold sized, growth_fits in *; simpl.
      rewrite !size_t_wrap_small by lia. lia.
  - apply Z.eqb_neq in Hfull. counters.
Qed.

Lemma Insert_move_sized pos value v it v' :
  sized v -> growth_fits v ->
  Insert_move pos value v = Ok (it, v') -> sized v'.
Proof.
  intros Hs Hf. unfold Insert_move.
  destruct (_ && _); [|done].
  destruct (size_ v =? capacity_ v) eqn:Hfull.
  - destruct (std_move _ _ _ _ _) as [? ?].
    destruct (std_move _ _ _ _ _) as [? ?].
    intros [= <- <-]. apply Z.eqb_eq in Hfull.
    destruct (capacity_ v =? 0) eqn:H0.
    + apply Z.eqb_eq in H0. unfold sized in *; simpl.
      rewrite Hfull, H0. done.
    + apply Z.eqb_neq in H0. unfold sized, growth_fits in *; simpl.
      rewrite !size_t_wrap_small by lia. lia.
  - intros [= <- <-]. apply Z.eqb_neq in Hfull. counters.
Qed.

Lemma Erase_sized pos v it v' :
  sized v -> Erase pos v = Ok (it, v') -> sized v'.
Proof.
  intros Hs. unfold Erase.
  destruct (_ && _) eqn:Hpos; [|done]. intros [= <- <-].
  apply andb_true_iff in Hpos as [H1%Z.leb_le H2%Z.ltb_lt].
  counters.
Qed.

Lemma PopBack_sized v v' : sized v -> PopBack v = Ok v' -> sized v'.
Proof.
  intros Hs. unfold PopBack.
  destruct (0 <? size_ v) eqn:Hpos; [|done]. intros [= <-].
  apply Z.ltb_lt in Hpos. counters.
Qed.

Lemma Resize_sized n v : sized v -> is_size_t n -> sized (Resize n v).
Proof.
  intros Hs Hn. unfold Resize.
  destruct (n <=? size_ v) eqn:H1.
  { apply Z.leb_le in H1. counters. }
  destruct (n <=? capacity_ v) eqn:H2.
  { apply Z.leb_le in H2. counters. }
  destruct (std_move _ _ _ _ _) as [? ?]. counters.
Qed.

Lemma Reserve_sized n v : sized v -> sized (Reserve n v).
Proof.
  intros Hs. unfold Reserve.
  destruct (capacity_ v <? n) eqn:H1; [|done].
  apply Z.ltb_lt in H1. destruct (std_move _ _ _ _ _) as [? ?]. counters.
Qed.

Lemma SimpleVector_copy_sized o : sized o -> sized (SimpleVector_copy o).
Proof. intros Hs. unfold SimpleVector_copy, GetSize. counters. Qed.

(** ** Calls on the store *)

Lemma Result_map_Ok {A B : Type} (f : A -> B) (r : Result A) (b : B) :
  Result_map f r = Ok b -> exists a, r = Ok a /\ b = f a.
Proof. destruct r; simpl; intros [= <-]. by eexists. Qed.

Lemma on_object_Ok this f st st' :
  on_object this f st = Ok st' ->
  exists v v', st !! this = Some v /\ f v = Ok v' /\ st' = <[this := v']> st.
Proof.
  unfold on_object. destruct (st !! this) as [v|]; [|done].
  intros (v' & Hf & ->)%Result_map_Ok. by exists v, v'.
Qed.

Lemma construct_Ok this v st st' :
  construct this v st = Ok st' ->
  st !! this = None /\ st' = <[this := v]> st.
Proof.
  unfold construct. destruct (st !! this); [done|]. by intros [= <-].
Qed.

(** One call keeps the counters of every object ordered. *)
Lemma run_sized c st st' :
  map_Forall (fun _ v => sized v) st ->
  call_fits c st ->
  run c st = Ok st' ->
  map_Forall (fun _ v => sized v) st'.
Proof.
  intros Hinv Hfit Hrun.
  destruct c; simpl in Hrun, Hfit;
    try (apply construct_Ok in Hrun as [_ ->];
         apply map_Forall_insert_2; [|done]);
    try (apply on_object_Ok in Hrun as (v & v' & Hv & Hf & ->);
         apply map_Forall_insert_2; [|done];
         pose proof (Hinv _ _ Hv) as Hs).
  - counters.
  - unfold SimpleVector_reserved. counters.
  - unfold SimpleVector_sized. counters.
  - unfold SimpleVector_filled. counters.
  - unfold SimpleVector_filled_move. destruct (std_generate _ _ _ _ _).
    counters.
  - unfold SimpleVector_init. counters.
  - unfold construct_copy in Hrun.
    destruct (st !! other) as [o|] eqn:Ho; [|done].
    apply construct_Ok in Hrun as [_ ->].
    apply map_Forall_insert_2; [|done].
    apply SimpleVector_copy_sized. by apply (Hinv other).
  - unfold construct_move in Hrun.
    destruct (st !! other) as [o|] eqn:Ho; [|done]. simpl in Hrun.
    apply construct_Ok in Hrun as [_ ->].
    pose proof (Hinv _ _ Ho).
    apply map_Forall_insert_2; [done|].
    apply map_Forall_insert_2; [|done]. counters.
  - unfold operator_assign_copy in Hrun.
    destruct (st !! this) as [v|] eqn:Hv; [|done].
    destruct (st !! rhs) as [r|] eqn:Hr; [|done].
    destruct (decide (this <> rhs)); injection Hrun as <-; [|done].
    apply map_Forall_insert_2; [|done].
    unfold copy_assign_body. simpl.
    apply SimpleVector_copy_sized. by apply (Hinv rhs).
  - unfold operator_assign_move in Hrun.
    destruct (st !! this) as [v|] eqn:Hv; [|done].
    destruct (st !! rhs) as [r|] eqn:Hr; [|done].
    destruct (decide (this <> rhs)); injection Hrun as <-; [|done].
    pose proof (Hinv _ _ Hr).
    apply map_Forall_insert_2; [done|].
    apply map_Forall_insert_2; done.
  - by injection Hf as <-.
  - by injection Hf as <-.
  - by injection Hf as <-.
  - by apply Result_map_Ok in Hf as (x & _ & ->).
  - unfold index_assign in Hf. destruct (idx <? size_ v); [|done].
    injection Hf as <-. counters.
  - by apply Result_map_Ok in Hf as (x & _ & ->).
  - unfold At_assign in Hf. destruct (size_ v <=? idx); [done|].
    injection Hf as <-. counters.
  - injection Hf as <-. counters.
  - injection Hf as <-. by apply Reserve_sized.
  - injection Hf as <-. by apply Resize_sized.
  - injection Hf as <-. apply PushBack_sized; eauto.
  - injection Hf as <-. rewrite PushBack_move_fst.
    apply PushBack_sized; eauto.
  - apply Result_map_Ok in Hf as ([it w] & Hf & ->).
    eapply Insert_sized; eauto.
  - apply Result_map_Ok in Hf as ([it w] & Hf & ->).
    eapply Insert_move_sized; eauto.
  - by eapply PopBack_sized.
  - apply Result_map_Ok in Hf as ([it w] & Hf & ->).
    by eapply Erase_sized.
  - unfold swap_objects in Hrun.
    destruct (st !! this) as [v|] eqn:Hv; [|done].
    destruct (st !! other) as [o|] eqn:Ho; [|done].
    simpl in Hrun. injection Hrun as <-.
    pose proof (Hinv _ _ Hv). pose proof (Hinv _ _ Ho).
    apply map_Forall_insert_2; [done|].
    apply map_Forall_insert_2; done.
Qed.

(** The address of an object a call does not write differs from the
    addresses it writes. *)
Ltac not_written :=
  intros ->;
  match goal with
  | H : _ ∉ _ |- _ => apply H; rewrite !elem_of_cons; auto
  end.

(** A call changes only the objects it may write. *)
Lemma run_frame c st st' a :
  run c st = Ok st' -> a ∉ written c -> st' !! a = st !! a.
Proof.
  intros Hrun Ha.
  destruct c; simpl in Hrun, Ha;
    try (apply construct_Ok in Hrun as [_ ->];
         apply lookup_insert_ne; not_written);
    try (apply on_object_Ok in Hrun as (v & v' & Hv & Hf & ->);
         apply lookup_insert_ne; not_written).
  - unfold construct_copy in Hrun.
    destruct (st !! other) as [o|]; [|done].
    apply construct_Ok in Hrun as [_ ->].
    apply lookup_insert_ne. not_written.
  - unfold construct_move in Hrun.
    destruct (st !! other) as [o|]; [|done]. simpl in Hrun.
    apply construct_Ok in Hrun as [_ ->].
    rewrite !lookup_insert_ne by not_written. done.
  - unfold operator_assign_copy in Hrun.
    destruct (st !! this) as [v|]; [|done].
    destruct (st !! rhs) as [r|]; [|done].
    destruct (decide (this <> rhs)); injection Hrun as <-; [|done].
    apply lookup_insert_ne. not_written.
  - unfold operator_assign_move in Hrun.
    destruct (st !! this) as [v|]; [|done].
    destruct (st !! rhs) as [r|]; [|done].
    destruct (decide (this <> rhs)); injection Hrun as <-; [|done].
    rewrite !lookup_insert_ne by not_written. done.
  - unfold swap_objects in Hrun.
    destruct (st !! this) as [v|]; [|done].
    destruct (st !! other) as [o|]; [|done].
    simpl in Hrun. injection Hrun as <-.
    rewrite !lookup_insert_ne by not_written. done.
Qed.

Lemma run_all_frame cs st st' a :
  run_all cs st = Ok st' ->
  Forall (fun c => a ∉ written c) cs ->
  st' !! a = st !! a.
Proof.
  revert st.
  induction cs as [|c cs IH]; intros st Hrun Hcs; simpl in Hrun.
  - by injection Hrun as <-.
  - apply Forall_cons in Hcs as [Hc Hcs].
    destruct (run c st) as [st1| | |] eqn:Hc1; try done. simpl in Hrun.
    rewrite (IH _ Hrun Hcs). by eapply run_frame.
Qed.

Lemma on_object_Throw this f st what :
  on_object this f st = Throw_out_of_range what ->
  exists v, st !! this = Some v /\ f v = Throw_out_of_range what.
Proof.
  unfold on_object. destruct (st !! this) as [v|]; [|done].
  intros Hf. exists v. split; [done|].
  destruct (f v); simpl in Hf; congruence.
Qed.

(** Only [At] throws, and only for an index that is not below the size. *)
Lemma run_throws c st what :
  run c st = Throw_out_of_range what ->
  exists this idx v,
    (c = call_At this idx \/ exists x, c = call_At_assign this idx x) /\
    st !! this = Some v /\ size_ v <= idx.
Proof.
  intros Hrun.
  destruct c; simpl in Hrun;
    try (by unfold construct in Hrun; destruct (st !! _));
    try (apply on_object_Throw in Hrun as (v & Hv & Hf); try done).
  - unfold construct_copy, construct in Hrun.
    by destruct (st !! other), (st !! this).
  - unfold construct_move, construct in Hrun.
    destruct (st !! other); [|done]. simpl in Hrun.
    by destruct (_ !! this).
  - unfold operator_assign_copy in Hrun.
    destruct (st !! this), (st !! rhs); try done.
    by destruct (decide (this <> rhs)).
  - unfold operator_assign_move in Hrun.
    destruct (st !! this), (st !! rhs); try done.
    by destruct (decide (this <> rhs)).
  - unfold index in Hf. destruct (idx <? size_ v); [|done].
    by destruct (data_ v !! Z.to_nat idx).
  - unfold index_assign in Hf. by destruct (idx <? size_ v).
  - exists this, idx, v. split; [by left|]. split; [done|].
    apply At_throws. exists what.
    destruct (At idx v); simpl in Hf; congruence.
  - exists this, idx, v. split; [right; by exists x|]. split; [done|].
    unfold At_assign in Hf.
    destruct (size_ v <=? idx) eqn:H; [|done]. by apply Z.leb_le.
  - unfold Insert in Hf. destruct (_ && _); [|done].
    by destruct (size_ v =? capacity_ v).
  - unfold Insert_move in Hf. destruct (_ && _); [|done].
    destruct (size_ v =? capacity_ v); [|done].
    by do 2 destruct (std_move _ _ _ _ _).
  - unfold PopBack in Hf. by destruct (0 <? size_ v).
  - unfold Erase in Hf. by destruct (_ && _).
  - unfold swap_objects in Hrun.
    by destruct (st !! this), (st !! other).
Qed.

Lemma SimpleVector_sized_spec n :
  is_size_t n ->
  elements (SimpleVector_sized n) = replicate (Z.to_nat n) Type_default /\
  wf (SimpleVector_sized n).
Proof.
  intros [Hn0 Hn]. unfold SimpleVector_sized, elements, wf; simpl.
  rewrite std_generate_default, length_std_fill.
  unfold ArrayPtr_new. rewrite length_replicate.
  split; [|lia].
  replace (Z.to_nat n) with (0 + Z.to_nat n)%nat at 1 by lia.
  rewrite take_std_fill by (rewrite length_replicate; lia).
  by rewrite take_0.
Qed.

Lemma SimpleVector_copy_spec o :
  wf o ->
  size_ (SimpleVector_copy o) = size_ o /\
  capacity_ (SimpleVector_copy o) = size_ o /\
  elements (SimpleVector_copy o) = elements o /\
  wf (SimpleVector_copy o).
Proof.
  intros Hwf. pose proof Hwf as (Hs & Hc & Hl).
  destruct (SimpleVector_sized_spec (size_ o)) as (_ & _ & _ & Hlen).
  { unfold is_size_t. lia. }
  simpl in Hlen.
  assert (Hdata : data_ (SimpleVector_copy o) = elements o).
  { unfold SimpleVector_copy, GetSize, begin, end_; simpl.
    rewrite std_copy_closed by lia.
    rewrite take_0, drop_0, Z.add_0_l, Nat.sub_0_r. simpl.
    rewrite drop_ge by lia. by rewrite app_nil_r. }
  split; [done|]. split; [done|]. split.
  - unfold elements at 1. rewrite Hdata.
    apply take_ge. rewrite length_elements by done.
    unfold SimpleVector_copy, GetSize; simpl. lia.
  - unfold wf. rewrite Hdata, length_elements by done.
    unfold SimpleVector_copy, GetSize; simpl. lia.
Qed.



(** Pushing into spare capacity never reallocates. *)
Lemma PushBack_all_spare items v :
  wf v ->
  size_ v + Z.of_nat (length items) <= capacity_ v ->
  size_ (PushBack_all items v) = size_ v + Z.of_nat (length items) /\
  capacity_ (PushBack_all items v) = capacity_ v /\
  elements (PushBack_all items v) = elements v ++ items /\
  wf (PushBack_all items v).
Proof.
  revert v.
  induction items as [|x items IH]; intros v Hwf Hlen;
    cbn [length fold_left PushBack_all] in *.
  - rewrite Z.add_0_r, app_nil_r. done.
  - rewrite Nat2Z.inj_succ in *.
    destruct (PushBack_spec x v Hwf) as (Hs1 & Hc1 & He1 & Hwf1); [lia|].
    replace (size_ v =? capacity_ v) with false in Hc1
      by (symmetry; apply Z.eqb_neq; lia).
    destruct (IH (PushBack x v) Hwf1) as (Hs2 & Hc2 & He2 & Hwf2); [lia|].
    unfold PushBack_all in *. cbn [fold_left].
    rewrite Hs2, Hc2, He2, Hs1, He1, Hc1, <- app_assoc.
    split; [lia|]. split; [done|]. split; done.
Qed.

Lemma SimpleVector_default_wf : wf SimpleVector_default.
Proof. unfold wf, SimpleVector_default, SIZE_MAX; simpl. lia. Qed.

Lemma SimpleVector_init_spec init :
  Z.of_nat (length init) <= SIZE_MAX ->
  size_ (SimpleVector_init init) = Z.of_nat (length init) /\
  capacity_ (SimpleVector_init init) = Z.of_nat (length init) /\
  elements (SimpleVector_init init) = init /\
  wf (SimpleVector_init init).
Proof.
  intros Hlen. unfold SimpleVector_init, elements, wf, ArrayPtr_new; simpl.
  rewrite length_std_copy, length_replicate.
  rewrite std_copy_closed by (rewrite ?length_replicate; lia).
  rewrite take_0, drop_0, drop_replicate, Nat2Z.id, Nat.sub_diag. simpl.
  rewrite firstn_all, app_nil_r, firstn_all.
  repeat split; (done || lia).
Qed.

(** ** The claims *)

(** C1.  [length <= capacity] is an invariant of the store: when it holds of
    every object, it holds of every object after any run of public
    operations (constructors, copy and move construction and assignment,
    element access, [Clear], [Reserve], [Resize], [PushBack], [Insert],
    [PopBack], [Erase], [swap]) that the program can make. *)
Theorem size_le_capacity_invariant
    (cs : list call) (st st' : gmap nat SimpleVector) :
  (forall a v, st !! a = Some v -> 0 <= size_ v <= capacity_ v) ->
  all_fit cs st ->
  run_all cs st = Ok st' ->
  forall a v, st' !! a = Some v -> 0 <= size_ v <= capacity_ v.
Proof.
  revert st.
  induction cs as [|c cs IH]; intros st Hinv Hfit Hrun; simpl in Hrun.
  - by injection Hrun as <-.
  - destruct Hfit as [Hc Hcs].
    destruct (run c st) as [st1| | |] eqn:Hc1; try done. simpl in Hrun.
    apply (IH st1); [|done|done].
    by apply (run_sized c st st1).
Qed.

(** C3.  [Resize] has three cases.  A size not above the current one only
    sets [size_]; a larger size within the capacity default-constructs the
    new slots and sets [size_]; a size above the capacity moves the live
    elements, in order, into an array of [max(new_size, capacity_ * 2)]
    slots, default-constructs the new slots and sets [size_].  In
    particular [Resize(0)] then [Resize(3)] on four elements leaves three
    default values. *)
Theorem Resize_three_way (new_size : Z) (v : SimpleVector) (a b c d : T) :
  wf v ->
  is_size_t new_size ->
  (new_size <= size_ v ->
   Resize new_size v
   = {| size_ := new_size; capacity_ := capacity_ v; data_ := data_ v |}) /\
  (size_ v < new_size <= capacity_ v ->
   size_ (Resize new_size v) = new_size /\
   capacity_ (Resize new_size v) = capacity_ v /\
   elements (Resize new_size v)
   = elements v
     ++ replicate (Z.to_nat new_size - Z.to_nat (size_ v)) Type_default) /\
  (capacity_ v < new_size -> growth_fits v ->
   size_ (Resize new_size v) = new_size /\
   capacity_ (Resize new_size v) = Z.max new_size (capacity_ v * 2) /\
   length (data_ (Resize new_size v))
   = Z.to_nat (Z.max new_size (capacity_ v * 2)) /\
   elements (Resize new_size v)
   = elements v
     ++ replicate (Z.to_nat new_size - Z.to_nat (size_ v)) Type_default) /\
  elements (Resize 3 (Resize 0 (SimpleVector_init [a; b; c; d])))
  = [Type_default; Type_default; Type_default].
Proof.
  intros Hwf Hn. pose proof Hwf as (Hs & Hc & Hl).
  destruct (Resize_spec new_size v Hwf Hn) as (Rs & Rc & Re & Rd & Rwf).
  assert (Htake : size_ v < new_size ->
            take (Z.to_nat new_size) (elements v) = elements v).
  { intros Hlt. apply take_ge. rewrite length_elements by done. lia. }
  split; [|split; [|split]].
  - intros Hle. unfold Resize.
    by replace (new_size <=? size_ v) with true
      by (symmetry; apply Z.leb_le; lia).
  - intros [Hlt Hle]. rewrite Htake in Re by done.
    replace (new_size <=? capacity_ v) with true in Rc
      by (symmetry; apply Z.leb_le; lia).
    done.
  - intros Hlt Hfit. rewrite Htake in Re by lia.
    replace (new_size <=? capacity_ v) with false in Rc
      by (symmetry; apply Z.leb_gt; lia).
    unfold growth_fits, is_size_t in *.
    rewrite size_t_wrap_small in Rc by lia.
    destruct Rwf as (_ & _ & Rl). rewrite Rc in Rl.
    done.
  - reflexivity.
Qed.

(** C5.  For a position in [[begin, end)] of a non-empty container, [Erase]
    removes the element there, moves the later ones one slot down, takes one
    from the size and returns the same position, which now holds the
    element that followed the erased one, or is [end] when the last element
    was erased. *)
Theorem Erase_at_position (pos : Iterator) (v : SimpleVector) :
  wf v ->
  begin v <= pos < end_ v ->
  exists v',
    Erase pos v = Ok (pos, v') /\
    elements v'
    = take (Z.to_nat pos) (elements v)
      ++ drop (S (Z.to_nat pos)) (elements v) /\
    size_ v' = size_ v - 1 /\
    capacity_ v' = capacity_ v /\
    elements v' !! Z.to_nat pos = elements v !! S (Z.to_nat pos) /\
    (pos = size_ v - 1 -> pos = end_ v') /\
    wf v'.
Proof.
  intros Hwf Hpos. unfold begin, end_ in Hpos.
  assert (Hpos' : 0 <= pos < size_ v) by lia.
  destruct (Erase_spec pos v Hwf Hpos') as (v' & Her & Hs & Hc & He & Hwf').
  exists v'. split; [done|]. split; [done|]. split; [done|].
  split; [done|]. split; [|split; [|done]].
  - rewrite He.
    rewrite lookup_app_r; rewrite length_take, length_elements by done; [|lia].
    rewrite lookup_drop. f_equal. lia.
  - intros ->. unfold end_. lia.
Qed.

(** C6, as amended.  [Reserve] with a capacity above the current one makes
    the capacity exactly that value and keeps the size and the elements;
    otherwise it changes nothing; the capacity never shrinks.  After
    [Reserve(k)], pushes that keep the size within [max(k, capacity_)] never
    reallocate: the capacity is [max(k, capacity_)] after each of them. *)
Theorem Reserve_then_PushBack (k : Z) (v : SimpleVector) (items : list T) :
  wf v ->
  is_size_t k ->
  size_ v + Z.of_nat (length items) <= Z.max k (capacity_ v) ->
  (capacity_ v < k ->
   capacity_ (Reserve k v) = k /\
   size_ (Reserve k v) = size_ v /\
   elements (Reserve k v) = elements v) /\
  (k <= capacity_ v -> Reserve k v = v) /\
  capacity_ v <= capacity_ (Reserve k v) /\
  forall j, (j <= length items)%nat ->
    capacity_ (PushBack_all (take j items) (Reserve k v))
    = Z.max k (capacity_ v) /\
    elements (PushBack_all (take j items) (Reserve k v))
    = elements v ++ take j items.
Proof.
  intros Hwf Hk Hlen. pose proof Hwf as (Hs & Hc & Hl).
  assert (Hres : size_ (Reserve k v) = size_ v /\
                 capacity_ (Reserve k v) = Z.max k (capacity_ v) /\
                 elements (Reserve k v) = elements v /\
                 wf (Reserve k v)).
  { destruct (Z.lt_ge_cases (capacity_ v) k) as [Hlt|Hge].
    - destruct (Reserve_grow k v Hwf) as (Rs & Rc & Re & Rwf);
        [unfold is_size_t in Hk; lia|].
      split; [done|]. split; [lia|]. done.
    - rewrite Reserve_noop by done.
      split; [done|]. split; [lia|]. done. }
  destruct Hres as (Rs & Rc & Re & Rwf).
  split; [|split; [|split]].
  - intros Hlt. split; [lia|]. done.
  - apply Reserve_noop.
  - lia.
  - intros j Hj.
    destruct (PushBack_all_spare (take j items) (Reserve k v) Rwf)
      as (_ & Pc & Pe & _).
    { rewrite length_take. lia. }
    by rewrite Pc, Pe, Rc, Re.
Qed.

(** C7.  [At] throws [std::out_of_range] exactly when the index is not below
    the size, and otherwise gives the element at that index.  [At(size)]
    always throws and, in a non-empty container, [At(size - 1)] succeeds.
    No other public operation throws. *)
Theorem At_checked_access (idx : Z) (v : SimpleVector) :
  wf v ->
  is_size_t idx ->
  ((exists what, At idx v = Throw_out_of_range what) <-> size_ v <= idx) /\
  (idx < size_ v ->
   exists x, At idx v = Ok x /\ elements v !! Z.to_nat idx = Some x) /\
  (exists what, At (size_ v) v = Throw_out_of_range what) /\
  (0 < size_ v -> exists x, At (size_ v - 1) v = Ok x) /\
  (forall c st what,
     run c st = Throw_out_of_range what ->
     exists this i,
       c = call_At this i \/ exists x, c = call_At_assign this i x).
Proof.
  intros Hwf [Hidx _].
  split; [apply At_throws|]. split; [|split; [|split]].
  - intros Hlt. apply At_ok; [done|lia].
  - apply At_throws. lia.
  - intros Hpos. destruct (At_ok (size_ v - 1) v Hwf) as (x & Hx & _); [lia|].
    by exists x.
  - intros c st what Hrun.
    destruct (run_throws c st what Hrun) as (this & i & _ & Hc & _).
    by exists this, i.
Qed.

(** C9.  The constructor taking [Reserve(n)] gives a container of size 0 and
    capacity [n], with an array of [n] slots. *)
Theorem reserved_constructor (n : Z) :
  is_size_t n ->
  size_ (SimpleVector_reserved (Reserve_proxy n)) = 0 /\
  capacity_ (SimpleVector_reserved (Reserve_proxy n)) = n /\
  elements (SimpleVector_reserved (Reserve_proxy n)) = [] /\
  wf (SimpleVector_reserved (Reserve_proxy n)).
Proof.
  intros [Hn0 Hn].
  unfold SimpleVector_reserved, Reserve_proxy, elements, wf, ArrayPtr_new;
    simpl.
  rewrite length_replicate. repeat split; (done || lia).
Qed.

(** C10.  Copy assignment and move assignment of an object to itself leave
    the store, and so the object's size, capacity and elements, as they
    were. *)
Theorem self_assignment_unchanged
    (this : nat) (v : SimpleVector) (st : gmap nat SimpleVector) :
  st !! this = Some v ->
  run (assign_copy this this) st = Ok st /\
  run (assign_move this this) st = Ok st.
Proof.
  intros Hv. simpl. unfold operator_assign_copy, operator_assign_move.
  rewrite Hv. by destruct (decide (this <> this)).
Qed.

(** ** Further properties: construction *)

Lemma record_eta (v : SimpleVector) :
  {| size_ := size_ v; capacity_ := capacity_ v; data_ := data_ v |} = v.
Proof. by destruct v. Qed.

(** X1.  [SimpleVector(size)] holds [size] elements, each [Type()], in an
    array of exactly [size] slots. *)
Theorem SimpleVector_sized_defaults (size : Z) :
  is_size_t size ->
  size_ (SimpleVector_sized size) = size /\
  capacity_ (SimpleVector_sized size) = size /\
  elements (SimpleVector_sized size)
  = replicate (Z.to_nat size) Type_default /\
  wf (SimpleVector_sized size).
Proof.
  intros Hn. destruct (SimpleVector_sized_spec size Hn) as [He Hwf].
  done.
Qed.

Lemma SimpleVector_filled_spec (size : Z) (value : T) :
  is_size_t size ->
  elements (SimpleVector_filled size value)
  = replicate (Z.to_nat size) value /\
  wf (SimpleVector_filled size value).
Proof.
  intros [Hn0 Hn]. unfold SimpleVector_filled, elements, wf, ArrayPtr_new; simpl.
  rewrite length_std_fill, length_replicate.
  split; [|lia].
  replace (Z.to_nat size) with (0 + Z.to_nat size)%nat at 1 by lia.
  rewrite take_std_fill by (rewrite length_replicate; lia).
  by rewrite take_0.
Qed.

(** X2.  [SimpleVector(size, value)] holds [size] copies of [value] in an
    array of exactly [size] slots. *)
Theorem SimpleVector_filled_copies (size : Z) (value : T) :
  is_size_t size ->
  size_ (SimpleVector_filled size value) = size /\
  capacity_ (SimpleVector_filled size value) = size /\
  elements (SimpleVector_filled size value)
  = replicate (Z.to_nat size) value /\
  wf (SimpleVector_filled size value).
Proof.
  intros Hn. destruct (SimpleVector_filled_spec size value Hn) as [He Hwf].
  done.
Qed.

(** Generating from a captured object that each call moves from. *)
Lemma std_generate_move value buf first n :
  (first + n <= length buf)%nat ->
  std_generate gen_move value buf first n
  = (take first buf
       ++ ((fun i => Nat.iter i moved_from value) <$> seq 0 n)
       ++ drop (first + n) buf,
     Nat.iter n moved_from value).
Proof.
  revert value buf first.
  induction n as [|n IH]; intros value buf first Hlen.
  - simpl. rewrite Nat.add_0_r. by rewrite take_drop.
  - cbn [std_generate gen_move].
    rewrite IH by (rewrite length_insert; lia).
    rewrite <- Nat.iter_succ_r. f_equal.
    rewrite (take_S_r _ first value) by (apply list_lookup_insert_eq; lia).
    rewrite take_insert_ge by lia.
    rewrite drop_insert_lt by lia.
    rewrite <- app_assoc. f_equal.
    cbn [seq fmap list_fmap app]. f_equal.
    replace (S first + n)%nat with (first + S n)%nat by lia.
    f_equal.
    rewrite <- seq_shift, <- list_fmap_compose.
    apply list_fmap_ext. intros i k _. unfold compose.
    by rewrite Nat.iter_succ_r.
Qed.

Lemma SimpleVector_filled_move_wf (size : Z) (value : T) :
  is_size_t size -> wf (fst (SimpleVector_filled_move size value)).
Proof.
  intros [Hn0 Hn]. unfold SimpleVector_filled_move, ArrayPtr_new.
  rewrite std_generate_move by (rewrite length_replicate; lia).
  unfold wf; simpl.
  rewrite length_app, length_fmap, length_seq, length_drop, length_replicate.
  lia.
Qed.

(** X3.  [SimpleVector(size, Type&& value)] moves from the same object for
    every slot: slot [i] receives what [i] moves have left of [value], and
    the caller's object is left as [size] moves leave it. *)
Theorem SimpleVector_filled_move_chain (size : Z) (value : T) :
  is_size_t size ->
  elements (fst (SimpleVector_filled_move size value))
  = (fun i => Nat.iter i moved_from value) <$> seq 0 (Z.to_nat size) /\
  snd (SimpleVector_filled_move size value)
  = Nat.iter (Z.to_nat size) moved_from value /\
  size_ (fst (SimpleVector_filled_move size value)) = size /\
  capacity_ (fst (SimpleVector_filled_move size value)) = size /\
  wf (fst (SimpleVector_filled_move size value)).
Proof.
  intros Hsize. pose proof (SimpleVector_filled_move_wf size value Hsize) as Hwf.
  destruct Hsize as [Hn0 Hn]. revert Hwf.
  unfold SimpleVector_filled_move, ArrayPtr_new.
  rewrite std_generate_move by (rewrite length_replicate; lia).
  unfold elements; simpl.
  rewrite drop_replicate, Nat.sub_diag. simpl. rewrite app_nil_r.
  intros Hwf.
  split; [|split; [done|split; [done|split; [done|done]]]].
  apply take_ge. rewrite length_fmap, length_seq. lia.
Qed.

(** X4.  [SimpleVector(std::initializer_list)] holds the elements of the
    list, in order, in an array of exactly as many slots. *)
Theorem SimpleVector_init_elements (init : list T) :
  Z.of_nat (length init) <= SIZE_MAX ->
  size_ (SimpleVector_init init) = Z.of_nat (length init) /\
  capacity_ (SimpleVector_init init) = Z.of_nat (length init) /\
  elements (SimpleVector_init init) = init /\
  wf (SimpleVector_init init).
Proof. apply SimpleVector_init_spec. Qed.

(** ** Further properties: moving *)

(** X5.  The move constructor gives the new object the size, the capacity
    and the array of the source and leaves the source default-constructed:
    empty, with capacity 0 and no storage. *)
Theorem move_construct_transfers
    (this other : nat) (o : SimpleVector) (st : gmap nat SimpleVector) :
  st !! other = Some o ->
  st !! this = None ->
  exists st',
    run (new_move this other) st = Ok st' /\
    st' !! this = Some o /\
    st' !! other = Some SimpleVector_default /\
    forall a, a <> this -> a <> other -> st' !! a = st !! a.
Proof.
  intros Ho Hthis.
  assert (Hne : this <> other) by congruence.
  simpl. unfold construct_move. rewrite Ho. simpl.
  unfold construct. rewrite lookup_insert_ne by done. rewrite Hthis.
  eexists. split; [reflexivity|].
  rewrite lookup_insert_eq, lookup_insert_ne, lookup_insert_eq by done.
  rewrite record_eta. split; [done|]. split; [done|].
  intros a Ha1 Ha2. by rewrite !lookup_insert_ne.
Qed.

(** X6.  Move assignment between two objects gives the destination the
    size and the capacity of the source and leaves the size and the
    capacity of the source as they were: unlike the move constructor, it
    does not reset the source. *)
Theorem move_assign_keeps_source_counters
    (this rhs : nat) (v r : SimpleVector) (st : gmap nat SimpleVector) :
  this <> rhs ->
  st !! this = Some v ->
  st !! rhs = Some r ->
  exists st' v' r',
    run (assign_move this rhs) st = Ok st' /\
    st' !! this = Some v' /\
    st' !! rhs = Some r' /\
    size_ v' = size_ r /\
    capacity_ v' = capacity_ r /\
    size_ r' = size_ r /\
    capacity_ r' = capacity_ r.
Proof.
  intros Hne Hv Hr. simpl. unfold operator_assign_move. rewrite Hv, Hr.
  destruct (decide (this <> rhs)) as [_|Hn]; [|by destruct Hn].
  simpl. do 3 eexists. split; [reflexivity|].
  rewrite lookup_insert_eq, lookup_insert_ne, lookup_insert_eq by done.
  repeat split; reflexivity.
Qed.

(** ** Further properties: invariants *)

Lemma Insert_Ok_range pos value v r :
  Insert pos value v = Ok r -> 0 <= pos <= size_ v.
Proof.
  unfold Insert, begin, end_.
  destruct ((0 <=? pos) && (pos <=? 0 + size_ v)) eqn:H; [|done].
  apply andb_true_iff in H as [H1%Z.leb_le H2%Z.leb_le]. lia.
Qed.

Lemma Insert_move_Ok_range pos value v r :
  Insert_move pos value v = Ok r -> 0 <= pos <= size_ v.
Proof.
  unfold Insert_move, begin, end_.
  destruct ((0 <=? pos) && (pos <=? 0 + size_ v)) eqn:H; [|done].
  apply andb_true_iff in H as [H1%Z.leb_le H2%Z.leb_le]. lia.
Qed.

Lemma Erase_Ok_range pos v r :
  Erase pos v = Ok r -> 0 <= pos < size_ v.
Proof.
  unfold Erase, begin, end_.
  destruct ((0 <=? pos) && (pos <? 0 + size_ v)) eqn:H; [|done].
  apply andb_true_iff in H as [H1%Z.leb_le H2%Z.ltb_lt]. lia.
Qed.

Lemma Reserve_wf n v : wf v -> is_size_t n -> wf (Reserve n v).
Proof.
  intros Hwf [Hn0 Hn].
  destruct (Z.lt_ge_cases (capacity_ v) n) as [Hlt|Hge].
  - by apply Reserve_grow.
  - by rewrite Reserve_noop.
Qed.

(** A member function applied to a well-formed object leaves it
    well-formed and with at least the capacity it had. *)
Lemma member_step c this st st' v :
  member_call c = Some this ->
  st !! this = Some v ->
  wf v ->
  call_fits c st ->
  run c st = Ok st' ->
  exists v',
    st' = <[this := v']> st /\ wf v' /\ capacity_ v <= capacity_ v'.
Proof.
  intros Hm Hv Hwf Hfit Hrun. pose proof Hwf as (Hs & Hc & Hl).
  destruct c; simpl in Hm; try discriminate; injection Hm as ->;
    simpl in Hrun, Hfit;
    apply on_object_Ok in Hrun as (w & v' & Hw & Hf & ->);
    rewrite Hv in Hw; injection Hw as <-;
    exists v'; (split; [done|]).
  - injection Hf as <-. split; [done|lia].
  - injection Hf as <-. split; [done|lia].
  - injection Hf as <-. split; [done|lia].
  - apply Result_map_Ok in Hf as (x & _ & ->). split; [done|lia].
  - unfold index_assign in Hf. destruct (idx <? size_ v); [|done].
    injection Hf as <-. split; [|simpl; lia].
    unfold wf; simpl. rewrite length_insert. done.
  - apply Result_map_Ok in Hf as (x & _ & ->). split; [done|lia].
  - unfold At_assign in Hf. destruct (size_ v <=? idx); [done|].
    injection Hf as <-. split; [|simpl; lia].
    unfold wf; simpl. rewrite length_insert. done.
  - injection Hf as <-. split; [|simpl; lia].
    unfold wf, Clear; simpl. lia.
  - injection Hf as <-. split; [by apply Reserve_wf|].
    destruct (Z.lt_ge_cases (capacity_ v) new_capacity) as [Hlt|Hge].
    + destruct (Reserve_grow new_capacity v Hwf) as (_ & Rc & _);
        [unfold is_size_t in Hfit; lia|].
      lia.
    + rewrite Reserve_noop by done. lia.
  - injection Hf as <-.
    destruct (Resize_spec new_size v Hwf Hfit) as (_ & Rc & _ & _ & Rwf).
    split; [done|]. rewrite Rc.
    destruct (new_size <=? capacity_ v) eqn:H; [lia|].
    apply Z.leb_gt in H. lia.
  - injection Hf as <-. specialize (Hfit _ Hv).
    destruct (PushBack_spec item v Hwf) as (_ & Pc & _ & Pwf); [done|].
    split; [done|]. rewrite Pc.
    destruct (size_ v =? capacity_ v); [|lia].
    destruct (capacity_ v =? 0) eqn:H0; [apply Z.eqb_eq in H0|]; lia.
  - injection Hf as <-. specialize (Hfit _ Hv). rewrite PushBack_move_fst.
    destruct (PushBack_spec item v Hwf) as (_ & Pc & _ & Pwf); [done|].
    split; [done|]. rewrite Pc.
    destruct (size_ v =? capacity_ v); [|lia].
    destruct (capacity_ v =? 0) eqn:H0; [apply Z.eqb_eq in H0|]; lia.
  - apply Result_map_Ok in Hf as ([it w] & Hf & ->). specialize (Hfit _ Hv).
    pose proof (Insert_Ok_range _ _ _ _ Hf) as Hpos.
    destruct (Insert_spec pos value v Hwf Hpos) as (w' & Hi & _ & Ic & _ & Iwf);
      [done|].
    rewrite Hi in Hf. injection Hf as <- <-. simpl.
    split; [done|]. rewrite Ic.
    destruct (size_ v =? capacity_ v); [|lia].
    destruct (capacity_ v =? 0) eqn:H0; [apply Z.eqb_eq in H0|]; lia.
  - apply Result_map_Ok in Hf as ([it w] & Hf & ->). specialize (Hfit _ Hv).
    pose proof (Insert_move_Ok_range _ _ _ _ Hf) as Hpos.
    rewrite Insert_move_eq in Hf by done.
    destruct (Insert_spec pos value v Hwf Hpos) as (w' & Hi & _ & Ic & _ & Iwf);
      [done|].
    rewrite Hi in Hf. injection Hf as <- <-. simpl.
    split; [done|]. rewrite Ic.
    destruct (size_ v =? capacity_ v); [|lia].
    destruct (capacity_ v =? 0) eqn:H0; [apply Z.eqb_eq in H0|]; lia.
  - unfold PopBack in Hf. destruct (0 <? size_ v) eqn:H; [|done].
    apply Z.ltb_lt in H. injection Hf as <-.
    split; [|simpl; lia].
    unfold wf; simpl. rewrite size_t_wrap_small by lia. lia.
  - apply Result_map_Ok in Hf as ([it w] & Hf & ->).
    pose proof (Erase_Ok_range _ _ _ Hf) as Hpos.
    destruct (Erase_spec pos v Hwf Hpos) as (w' & He & _ & Ec & _ & Ewf).
    rewrite He in Hf. injection Hf as <- <-. simpl.
    split; [done|]. lia.
Qed.

Lemma map_Forall_wf_insert this v' (st : gmap nat SimpleVector) :
  wf v' ->
  (forall a v, st !! a = Some v -> wf v) ->
  forall a v, <[this := v']> st !! a = Some v -> wf v.
Proof.
  intros Hv' Hst a v.
  destruct (decide (this = a)) as [->|Hne].
  - rewrite lookup_insert_eq. by intros [= <-].
  - rewrite lookup_insert_ne by done. apply Hst.
Qed.

(** X7.  The representation invariant ([0 <= size_ <= capacity_], the array
    has [capacity_] slots) is kept, for every object, by every public
    operation; the one exception is the source of a move assignment between
    two objects, whose counters are not reset. *)
Theorem representation_invariant
    (c : call) (st st' : gmap nat SimpleVector) :
  (forall a v, st !! a = Some v -> wf v) ->
  call_fits c st ->
  init_fits c ->
  run c st = Ok st' ->
  forall a v, st' !! a = Some v -> stale_source c <> Some a -> wf v.
Proof.
  intros Hinv Hfit Hinit Hrun.
  destruct (member_call c) as [this|] eqn:Hm.
  { assert (is_Some (st !! this)) as [w Hw].
    { destruct c; simpl in Hm; try discriminate; injection Hm as ->;
        simpl in Hrun; apply on_object_Ok in Hrun as (w & _ & Hw & _);
        by exists w. }
    destruct (member_step c this st st' w Hm Hw (Hinv _ _ Hw) Hfit Hrun)
      as (v' & -> & Hwf' & _).
    intros a v Hv _. by eapply map_Forall_wf_insert. }
  destruct c; simpl in Hm; try discriminate; simpl in Hrun, Hfit, Hinit;
    try (apply construct_Ok in Hrun as [_ ->];
         intros a v Hv _; eapply map_Forall_wf_insert; [|done|done]).
  - apply SimpleVector_default_wf.
  - destruct (reserved_capacity obj) eqn:E;
      unfold SimpleVector_reserved, ReserveProxyObj_GetCapacity, wf,
        ArrayPtr_new, is_size_t in *; simpl;
      rewrite length_replicate; lia.
  - by apply SimpleVector_sized_spec.
  - by apply SimpleVector_filled_spec.
  - by apply SimpleVector_filled_move_wf.
  - by apply SimpleVector_init_spec.
  - unfold construct_copy in Hrun.
    destruct (st !! other) as [o|] eqn:Ho; [|done].
    apply construct_Ok in Hrun as [_ ->].
    intros a v Hv _. eapply map_Forall_wf_insert; [|done|done].
    apply SimpleVector_copy_spec. by apply (Hinv other).
  - unfold construct_move in Hrun.
    destruct (st !! other) as [o|] eqn:Ho; [|done]. simpl in Hrun.
    apply construct_Ok in Hrun as [_ ->].
    intros a v Hv _.
    eapply map_Forall_wf_insert; [| |exact Hv].
    + rewrite record_eta. by apply (Hinv other).
    + apply map_Forall_wf_insert; [|done]. apply SimpleVector_default_wf.
  - unfold operator_assign_copy in Hrun.
    destruct (st !! this) as [w|] eqn:Hw; [|done].
    destruct (st !! rhs) as [r|] eqn:Hr; [|done].
    destruct (decide (this <> rhs)); injection Hrun as <-;
      [|intros a v Hv _; by apply (Hinv a)].
    intros a v Hv _. eapply map_Forall_wf_insert; [|done|done].
    destruct (SimpleVector_copy_spec r (Hinv rhs r Hr)) as (_ & _ & _ & Cwf).
    exact Cwf.
  - unfold operator_assign_move in Hrun.
    destruct (st !! this) as [w|] eqn:Hw; [|done].
    destruct (st !! rhs) as [r|] eqn:Hr; [|done].
    unfold stale_source.
    destruct (decide (this <> rhs)) as [Hne|_]; injection Hrun as <-;
      [|intros a v Hv _; by apply (Hinv a)].
    intros a v Hv Ha.
    destruct (decide (a = this)) as [->|Hat].
    + rewrite lookup_insert_eq in Hv. injection Hv as <-.
      unfold move_assign_body, ArrayPtr_move_assign; simpl.
      rewrite record_eta. by apply (Hinv rhs).
    + rewrite lookup_insert_ne in Hv by done.
      rewrite lookup_insert_ne in Hv by congruence.
      by apply (Hinv a).
  - unfold swap_objects in Hrun.
    destruct (st !! this) as [w|] eqn:Hw; [|done].
    destruct (st !! other) as [o|] eqn:Ho; [|done].
    simpl in Hrun. injection Hrun as <-.
    intros a v Hv _.
    eapply map_Forall_wf_insert; [| |exact Hv].
    + rewrite record_eta. by apply (Hinv other).
    + apply map_Forall_wf_insert; [|done].
      rewrite record_eta. by apply (Hinv this).
Qed.

(** X8.  No member function that works on one object ([operator[]], [At],
    [Clear], [Reserve], [Resize], [PushBack], [Insert], [PopBack], [Erase])
    ever lowers its capacity. *)
Theorem capacity_never_shrinks
    (c : call) (this : nat) (v : SimpleVector) (st st' : gmap nat SimpleVector) :
  member_call c = Some this ->
  st !! this = Some v ->
  wf v ->
  call_fits c st ->
  run c st = Ok st' ->
  exists v', st' !! this = Some v' /\ capacity_ v <= capacity_ v'.
Proof.
  intros Hm Hv Hwf Hfit Hrun.
  destruct (member_step c this st st' v Hm Hv Hwf Hfit Hrun)
    as (v' & -> & _ & Hcap).
  exists v'. by rewrite lookup_insert_eq.
Qed.

(** X9.  A copy is made to fit: after copy construction or copy assignment
    between two objects the capacity of the copy is the size of the source,
    whatever capacity the source or the destination had. *)
Theorem copy_capacity_is_source_size
    (this rhs : nat) (v r : SimpleVector) (st : gmap nat SimpleVector) :
  this <> rhs ->
  st !! this = Some v ->
  st !! rhs = Some r ->
  wf r ->
  capacity_ (SimpleVector_copy r) = size_ r /\
  exists st' v',
    run (assign_copy this rhs) st = Ok st' /\
    st' !! this = Some v' /\
    capacity_ v' = size_ r /\
    size_ v' = size_ r /\
    elements v' = elements r.
Proof.
  intros Hne Hv Hr Hwf.
  destruct (SimpleVector_copy_spec r Hwf) as (Cs & Cc & Ce & _).
  split; [done|].
  simpl. unfold operator_assign_copy. rewrite Hv, Hr.
  destruct (decide (this <> rhs)) as [_|Hn]; [|by destruct Hn].
  do 2 eexists. split; [reflexivity|].
  rewrite lookup_insert_eq. split; [reflexivity|].
  split; [exact Cc|]. split; [exact Cs|exact Ce].
Qed.

(** ** Further properties: single operations *)

(** X10.  [Clear] empties the container and keeps its array: afterwards as
    many items as the capacity allows can be pushed without reallocation,
    and they are then the elements. *)
Theorem Clear_keeps_storage (items : list T) (v : SimpleVector) :
  wf v ->
  Z.of_nat (length items) <= capacity_ v ->
  IsEmpty (Clear v) = true /\
  capacity_ (Clear v) = capacity_ v /\
  data_ (Clear v) = data_ v /\
  elements (PushBack_all items (Clear v)) = items /\
  capacity_ (PushBack_all items (Clear v)) = capacity_ v.
Proof.
  intros Hwf Hlen. pose proof Hwf as (Hs & Hc & Hl).
  assert (Hwf' : wf (Clear v)) by (unfold wf, Clear; simpl; lia).
  destruct (PushBack_all_spare items (Clear v) Hwf') as (_ & Pc & Pe & _).
  { simpl. lia. }
  split; [done|]. split; [done|]. split; [done|]. split; [|done].
  by rewrite Pe.
Qed.

(** X11.  [PopBack] on an empty container fails its assertion; on a
    non-empty one it drops the last element and keeps the others, the
    capacity and the array. *)
Theorem PopBack_removes_last (v : SimpleVector) :
  wf v ->
  (size_ v = 0 -> PopBack v = AssertFailed) /\
  (0 < size_ v ->
   exists v' x,
     PopBack v = Ok v' /\
     elements v = elements v' ++ [x] /\
     size_ v' = size_ v - 1 /\
     capacity_ v' = capacity_ v /\
     data_ v' = data_ v /\
     wf v').
Proof.
  intros Hwf. pose proof Hwf as (Hs & Hc & Hl). split.
  - intros H0. unfold PopBack. by rewrite H0.
  - intros Hpos. rewrite PopBack_spec by done.
    destruct (lookup_lt_is_Some_2 (data_ v) (Z.to_nat (size_ v - 1)))
      as [x Hx]; [lia|].
    eexists _, x. split; [reflexivity|].
    unfold elements, wf; simpl.
    split; [|split; [done|split; [done|split; [done|lia]]]].
    replace (Z.to_nat (size_ v)) with (S (Z.to_nat (size_ v - 1))) by lia.
    by apply take_S_r.
Qed.

(** X12.  [PopBack] after [PushBack] gives back the elements and the size
    the container had. *)
Theorem PushBack_then_PopBack (item : T) (v : SimpleVector) :
  wf v ->
  (size_ v = capacity_ v -> growth_fits v) ->
  exists v',
    PopBack (PushBack item v) = Ok v' /\
    elements v' = elements v /\
    size_ v' = size_ v /\
    wf v'.
Proof.
  intros Hwf Hfit. pose proof Hwf as (Hs & Hc & Hl).
  destruct (PushBack_spec item v Hwf Hfit) as (Ps & Pc & Pe & Pwf).
  pose proof Pwf as (Ps' & Pc' & Pl').
  rewrite PopBack_spec by (done || lia).
  eexists. split; [reflexivity|].
  unfold elements at 1, wf; simpl. rewrite Ps.
  replace (size_ v + 1 - 1) with (size_ v) by lia.
  split; [|split; [done|lia]].
  assert (Hpre : take (Z.to_nat (size_ v)) (elements (PushBack item v))
                 = take (Z.to_nat (size_ v)) (data_ (PushBack item v))).
  { unfold elements. rewrite take_take, Ps. f_equal. lia. }
  rewrite <- Hpre, Pe.
  rewrite take_app_length'; [done|]. by rewrite length_elements.
Qed.

(** X13.  [operator[]] never throws: below the size it returns what [At]
    returns, the element at the index; from the size on it fails its
    assertion where [At] throws. *)
Theorem index_agrees_with_At (idx : Z) (v : SimpleVector) :
  wf v ->
  is_size_t idx ->
  (idx < size_ v ->
   index idx v = At idx v /\
   exists x, index idx v = Ok x /\ elements v !! Z.to_nat idx = Some x) /\
  (size_ v <= idx ->
   index idx v = AssertFailed /\
   At idx v = Throw_out_of_range "index out of range").
Proof.
  intros Hwf [Hidx _]. split.
  - intros Hlt. destruct (At_ok idx v Hwf) as (x & Hx & Hel); [lia|].
    assert (Hi : index idx v = At idx v).
    { unfold index, At.
      replace (idx <? size_ v) with true by (symmetry; apply Z.ltb_lt; lia).
      by replace (size_ v <=? idx) with false
        by (symmetry; apply Z.leb_gt; lia). }
    split; [done|]. exists x. by rewrite Hi.
  - intros Hge. unfold index, At.
    replace (idx <? size_ v) with false by (symmetry; apply Z.ltb_ge; lia).
    by replace (size_ v <=? idx) with true by (symmetry; apply Z.leb_le; lia).
Qed.

(** X14.  Assigning through [operator[]] or through [At] at an index below
    the size replaces that element and no other; reading the index back
    gives the value assigned. *)
Theorem index_assign_then_index (idx : Z) (x : T) (v : SimpleVector) :
  wf v ->
  0 <= idx < size_ v ->
  exists v',
    index_assign idx x v = Ok v' /\
    At_assign idx x v = Ok v' /\
    index idx v' = Ok x /\
    At idx v' = Ok x /\
    elements v' = <[Z.to_nat idx := x]> (elements v) /\
    size_ v' = size_ v /\
    capacity_ v' = capacity_ v.
Proof.
  intros (Hs & Hc & Hl) Hidx. unfold index_assign, At_assign, index, At.
  replace (idx <? size_ v) with true by (symmetry; apply Z.ltb_lt; lia).
  replace (size_ v <=? idx) with false by (symmetry; apply Z.leb_gt; lia).
  eexists. split; [reflexivity|]. split; [reflexivity|]. simpl.
  replace (idx <? size_ v) with true by (symmetry; apply Z.ltb_lt; lia).
  replace (size_ v <=? idx) with false by (symmetry; apply Z.leb_gt; lia).
  rewrite list_lookup_insert_eq by lia.
  split; [done|]. split; [done|]. split; [|done].
  unfold elements; simpl. apply take_insert_lt. lia.
Qed.

(** X15.  [swap] exchanges the two containers, elements, size and capacity,
    and swapping again restores the store; swapping an object with itself
    changes nothing. *)
Theorem swap_twice
    (this other : nat) (v o : SimpleVector) (st : gmap nat SimpleVector) :
  st !! this = Some v ->
  st !! other = Some o ->
  exists st1,
    run (call_swap this other) st = Ok st1 /\
    st1 !! this = Some o /\
    st1 !! other = Some v /\
    run (call_swap this other) st1 = Ok st.
Proof.
  intros Hv Ho. simpl. unfold swap_objects. rewrite Hv, Ho. simpl.
  rewrite !record_eta.
  eexists. split; [reflexivity|].
  destruct (decide (this = other)) as [->|Hne].
  - rewrite Hv in Ho. injection Ho as ->.
    rewrite !lookup_insert_eq. simpl. rewrite !record_eta.
    split; [done|]. split; [done|]. f_equal.
    rewrite !insert_insert_eq. by apply insert_id.
  - rewrite lookup_insert_eq, lookup_insert_ne, lookup_insert_eq by done.
    simpl. rewrite !record_eta.
    split; [done|]. split; [done|]. f_equal.
    apply map_eq. intros a.
    destruct (decide (a = this)) as [->|Hat].
    + by rewrite lookup_insert_eq.
    + rewrite lookup_insert_ne by done.
      destruct (decide (a = other)) as [->|Hao].
      * by rewrite lookup_insert_eq.
      * by rewrite !lookup_insert_ne.
Qed.

(** X16.  [Erase] at the position where a value was just inserted gives
    back the elements and the size the container had. *)
Theorem Insert_then_Erase (pos : Iterator) (value : T) (v : SimpleVector) :
  wf v ->
  begin v <= pos <= end_ v ->
  (size_ v = capacity_ v -> growth_fits v) ->
  exists v1 v2,
    Insert pos value v = Ok (pos, v1) /\
    Erase pos v1 = Ok (pos, v2) /\
    elements v2 = elements v /\
    size_ v2 = size_ v.
Proof.
  intros Hwf Hpos Hfit. unfold begin, end_ in Hpos.
  assert (Hpos' : 0 <= pos <= size_ v) by lia.
  destruct (Insert_spec pos value v Hwf Hpos' Hfit)
    as (v1 & Hins & Hs1 & _ & He1 & Hwf1).
  destruct (Erase_spec pos v1 Hwf1) as (v2 & Her & Hs2 & _ & He2 & _); [lia|].
  exists v1, v2. split; [done|]. split; [done|]. split; [|lia].
  assert (Hlen : length (take (Z.to_nat pos) (elements v)) = Z.to_nat pos).
  { rewrite length_take, length_elements by done. lia. }
  rewrite He2, He1.
  rewrite take_app_length' by done.
  replace (S (Z.to_nat pos)) with (Z.to_nat pos + 1)%nat by lia.
  rewrite drop_app_add' by done.
  simpl. rewrite drop_0. apply take_drop.
Qed.

(** X18.  [Erase] at the last element is [PopBack]: it moves nothing and
    leaves the same container. *)
Theorem Erase_last_is_PopBack (v : SimpleVector) :
  0 < size_ v ->
  exists v',
    PopBack v = Ok v' /\
    Erase (end_ v - 1) v = Ok (end_ v - 1, v').
Proof.
  intros Hs. unfold Erase, PopBack, begin, end_.
  replace (0 <? size_ v) with true by (symmetry; apply Z.ltb_lt; lia).
  replace ((0 <=? 0 + size_ v - 1) && (0 + size_ v - 1 <? 0 + size_ v))
    with true
    by (symmetry; apply andb_true_iff; split;
        [apply Z.leb_le|apply Z.ltb_lt]; lia).
  eexists. split; [reflexivity|].
  replace (0 + size_ v - 1 - 0 + 1) with (size_ v) by lia.
  rewrite Nat.sub_diag. simpl.
  do 3 f_equal. lia.
Qed.

(** X19.  [Erase] has no valid position at or after [end()], so none at all
    in an empty container, and [Insert] has none after [end()]; neither has
    one before [begin()].  Such a call fails its assertion. *)
Theorem positions_out_of_range
    (pos : Iterator) (value : T) (v : SimpleVector) :
  (pos < begin v \/ end_ v <= pos -> Erase pos v = AssertFailed) /\
  (pos < begin v \/ end_ v < pos ->
   Insert pos value v = AssertFailed /\
   Insert_move pos value v = AssertFailed).
Proof.
  unfold Erase, Insert, Insert_move, begin, end_. split.
  - intros H.
    replace ((0 <=? pos) && (pos <? 0 + size_ v)) with false; [done|].
    symmetry. apply andb_false_iff.
    destruct H; [left; apply Z.leb_gt|right; apply Z.ltb_ge]; lia.
  - intros H.
    replace ((0 <=? pos) && (pos <=? 0 + size_ v)) with false; [done|].
    symmetry. apply andb_false_iff.
    destruct H; [left|right]; apply Z.leb_gt; lia.
Qed.

(** ** Further properties: comparison *)

(** [std::equal] on two ranges inside their arrays compares the elements of
    the ranges pairwise. *)
Lemma std_equal_Forall2 (l1 l2 : list T) first1 first2 n :
  (first1 + n <= length l1)%nat ->
  (first2 + n <= length l2)%nat ->
  std_equal l1 first1 n l2 first2 = true <->
  Forall2 (fun x y => Type_eq x y = true)
    (take n (drop first1 l1)) (take n (drop first2 l2)).
Proof.
  revert first1 first2.
  induction n as [|n IH]; intros first1 first2 H1 H2; simpl.
  - rewrite !take_0. split; [constructor|done].
  - destruct (lookup_lt_is_Some_2 l1 first1) as [x Hx]; [lia|].
    destruct (lookup_lt_is_Some_2 l2 first2) as [y Hy]; [lia|].
    rewrite Hx, Hy, (drop_S _ _ _ Hx), (drop_S _ _ _ Hy). simpl.
    rewrite Forall2_cons.
    destruct (Type_eq x y).
    + rewrite IH by lia. split; [done|by intros [_ ?]].
    + split; [done|by intros [? _]].
Qed.

Lemma operator_eq_Forall2 (a b : SimpleVector) :
  wf a ->
  wf b ->
  operator_eq a b = true <->
  size_ a = size_ b /\
  Forall2 (fun x y => Type_eq x y = true) (elements a) (elements b).
Proof.
  intros (Hsa & _ & Hla) (Hsb & _ & Hlb).
  unfold operator_eq, GetSize, begin, end_, elements. simpl.
  rewrite Z.add_0_l, Nat.sub_0_r.
  destruct (size_ a =? size_ b) eqn:Hs; simpl.
  - apply Z.eqb_eq in Hs.
    rewrite std_equal_Forall2 by lia.
    rewrite !drop_0, Hs. split; [done|by intros [_ ?]].
  - apply Z.eqb_neq in Hs. split; [done|by intros [? _]].
Qed.

(** X20.  [operator==] holds exactly when the sizes are equal and the live
    elements are pairwise [==]; the capacities and the slots after the live
    elements play no part.  [operator!=] is its negation. *)
Theorem operator_eq_iff (a b : SimpleVector) :
  wf a ->
  wf b ->
  (operator_eq a b = true <->
   size_ a = size_ b /\
   Forall2 (fun x y => Type_eq x y = true) (elements a) (elements b)) /\
  (operator_ne a b = true <->
   ~ (size_ a = size_ b /\
      Forall2 (fun x y => Type_eq x y = true) (elements a) (elements b))).
Proof.
  intros Hwa Hwb. pose proof (operator_eq_Forall2 a b Hwa Hwb) as Heq.
  split; [done|].
  unfold operator_ne. rewrite negb_true_iff, <- Heq.
  by destruct (operator_eq a b).
Qed.

(** [std::lexicographical_compare] on two ranges inside their arrays is the
    lexicographic order of the elements of the ranges. *)
Lemma std_lexicographical_compare_ranges (l1 l2 : list T) first1 n1 first2 n2 :
  (first1 + n1 <= length l1)%nat ->
  (first2 + n2 <= length l2)%nat ->
  std_lexicographical_compare l1 first1 n1 l2 first2 n2
  = lexicographic_lt (take n1 (drop first1 l1)) (take n2 (drop first2 l2)).
Proof.
  revert first1 first2 n2.
  induction n1 as [|n1 IH]; intros first1 first2 n2 H1 H2.
  - destruct n2 as [|n2]; simpl; [done|].
    destruct (lookup_lt_is_Some_2 l2 first2) as [y Hy]; [lia|].
    by rewrite (drop_S _ _ _ Hy).
  - destruct (lookup_lt_is_Some_2 l1 first1) as [x Hx]; [lia|].
    destruct n2 as [|n2]; simpl.
    + by rewrite (drop_S _ _ _ Hx).
    + destruct (lookup_lt_is_Some_2 l2 first2) as [y Hy]; [lia|].
      rewrite Hx, Hy, (drop_S _ _ _ Hx), (drop_S _ _ _ Hy). simpl.
      destruct (Type_lt x y); [done|].
      destruct (Type_lt y x); [done|].
      apply IH; lia.
Qed.

Lemma operator_lt_spec (a b : SimpleVector) :
  wf a ->
  wf b ->
  operator_lt a b = lexicographic_lt (elements a) (elements b).
Proof.
  intros (Hsa & _ & Hla) (Hsb & _ & Hlb).
  unfold operator_lt, begin, end_, elements. simpl.
  rewrite !Z.add_0_l, !Nat.sub_0_r.
  rewrite std_lexicographical_compare_ranges by lia.
  by rewrite !drop_0.
Qed.

(** X21.  [operator<] is the lexicographic order of the live elements, so a
    proper prefix is smaller; [operator>] is the same order with the sides
    exchanged, and [operator<=] and [operator>=] are the negations of
    [operator>] and [operator<]. *)
Theorem operator_lt_lexicographic (a b : SimpleVector) (more : list T) :
  wf a ->
  wf b ->
  operator_lt a b = lexicographic_lt (elements a) (elements b) /\
  operator_gt a b = lexicographic_lt (elements b) (elements a) /\
  operator_le a b = negb (lexicographic_lt (elements b) (elements a)) /\
  operator_ge a b = negb (lexicographic_lt (elements a) (elements b)) /\
  (elements b = elements a ++ more -> more <> [] ->
   (forall x, Type_lt x x = false) ->
   operator_lt a b = true).
Proof.
  intros Hwa Hwb.
  unfold operator_le, operator_ge, operator_gt.
  rewrite (operator_lt_spec a b), (operator_lt_spec b a) by done.
  split; [done|]. split; [done|]. split; [done|]. split; [done|].
  intros Hb Hmore Hirr. rewrite Hb.
  generalize (elements a) as xs. intros xs.
  induction xs as [|x xs IH]; simpl.
  - by destruct more.
  - by rewrite Hirr.
Qed.

(** The lexicographic order of a strict total order is total. *)
Lemma lexicographic_lt_total (xs ys : list T) :
  (forall x y, Type_lt x y = true -> Type_lt y x = false) ->
  (forall x y, Type_lt x y = false -> Type_lt y x = false -> x = y) ->
  lexicographic_lt ys xs = false <->
  lexicographic_lt xs ys = true \/ xs = ys.
Proof.
  intros Hasym Htot. revert ys.
  induction xs as [|x xs IH]; intros [|y ys]; simpl.
  - split; [by right|done].
  - split; [by left|done].
  - split; [done|]. by intros [?|?].
  - destruct (Type_lt y x) eqn:Hyx.
    + rewrite (Hasym _ _ Hyx). split; [done|].
      intros [?|[= -> _]]; [done|].
      rewrite (Hasym _ _ Hyx) in Hyx. done.
    + destruct (Type_lt x y) eqn:Hxy.
      * split; [by left|done].
      * rewrite (Htot _ _ Hxy Hyx). rewrite IH.
        split; (intros [?|?]; [by left|right; congruence]).
Qed.

(** X22.  When [operator<] of [Type] is a strict total order and
    [operator==] of [Type] is equality, the comparisons of containers agree
    with each other: [<=] is [<] or [==], [>=] is [>] or [==], [<] excludes
    [>] and [==], and one of [<], [==], [>] always holds. *)
Theorem comparisons_agree (a b : SimpleVector) :
  (forall x y, Type_eq x y = true <-> x = y) ->
  (forall x y, Type_lt x y = true -> Type_lt y x = false) ->
  (forall x y, Type_lt x y = false -> Type_lt y x = false -> x = y) ->
  wf a ->
  wf b ->
  (operator_le a b = true <->
   operator_lt a b = true \/ operator_eq a b = true) /\
  (operator_ge a b = true <->
   operator_gt a b = true \/ operator_eq a b = true) /\
  (operator_lt a b = true ->
   operator_gt a b = false /\ operator_eq a b = false) /\
  (operator_lt a b = true \/ operator_eq a b = true \/
   operator_gt a b = true).
Proof.
  intros Heq Hasym Htot Hwa Hwb.
  assert (Hlt : operator_lt a b
                = lexicographic_lt (elements a) (elements b))
    by (by apply operator_lt_spec).
  assert (Hgt : operator_gt a b
                = lexicographic_lt (elements b) (elements a))
    by (by apply operator_lt_spec).
  assert (Hle : operator_le a b
                = negb (lexicographic_lt (elements b) (elements a)))
    by (unfold operator_le; by rewrite Hgt).
  assert (Hge : operator_ge a b
                = negb (lexicographic_lt (elements a) (elements b)))
    by (unfold operator_ge; by rewrite Hlt).
  assert (He : operator_eq a b = true <-> elements a = elements b).
  { rewrite operator_eq_Forall2 by done. rewrite list_eq_Forall2. split.
    - intros [_ H]. eapply Forall2_impl; [exact H|].
      intros x y. apply Heq.
    - intros H. split.
      + apply Forall2_length in H.
        rewrite !length_elements in H by done.
        destruct Hwa as (? & _), Hwb as (? & _). lia.
      + eapply Forall2_impl; [exact H|]. intros x y. apply Heq. }
  pose proof (lexicographic_lt_total (elements a) (elements b) Hasym Htot)
    as Hab.
  pose proof (lexicographic_lt_total (elements b) (elements a) Hasym Htot)
    as Hba.
  rewrite Hlt, Hgt, Hle, Hge, He.
  rewrite !negb_true_iff.
  split; [done|]. split.
  { rewrite Hba. split; (intros [?|?]; [by left|by right]). }
  split.
  - intros Hl. split.
    + apply Hab. by left.
    + apply not_true_is_false. rewrite He. intros Hel.
      assert (lexicographic_lt (elements b) (elements a) = false) as Hg
        by (apply Hab; by left).
      rewrite Hel in Hl, Hg. congruence.
  - destruct (lexicographic_lt (elements b) (elements a)) eqn:Hg.
    + by right; right.
    + destruct (proj1 Hab eq_refl) as [?|?]; [by left|by right; left].
Qed.

(** ** Further properties: operations one after the other *)

(** X23.  Shrinking with [Resize] and growing again does not bring the old
    values back: the elements kept by the first call are followed by new
    default values. *)
Theorem Resize_down_then_up (m n : Z) (v : SimpleVector) :
  wf v ->
  0 <= m <= size_ v ->
  m <= n <= SIZE_MAX ->
  elements (Resize n (Resize m v))
  = take (Z.to_nat m) (elements v)
    ++ replicate (Z.to_nat n - Z.to_nat m) Type_default /\
  size_ (Resize n (Resize m v)) = n.
Proof.
  intros Hwf Hm Hn. pose proof Hwf as (Hs & Hc & Hl).
  destruct (Resize_spec m v Hwf) as (Rs1 & _ & Re1 & _ & Rwf1).
  { unfold is_size_t. lia. }
  destruct (Resize_spec n (Resize m v) Rwf1) as (Rs2 & _ & Re2 & _).
  { unfold is_size_t. lia. }
  split; [|done].
  rewrite Re2, Re1, Rs1.
  replace (Z.to_nat m - Z.to_nat (size_ v))%nat with 0%nat by lia.
  simpl. rewrite app_nil_r. f_equal.
  apply take_ge. rewrite length_take, length_elements by done. lia.
Qed.

Lemma SimpleVector_reserved_spec (n : Z) :
  is_size_t n ->
  size_ (SimpleVector_reserved (Reserve_proxy n)) = 0 /\
  capacity_ (SimpleVector_reserved (Reserve_proxy n)) = n /\
  elements (SimpleVector_reserved (Reserve_proxy n)) = [] /\
  wf (SimpleVector_reserved (Reserve_proxy n)).
Proof.
  intros [Hn0 Hn].
  unfold SimpleVector_reserved, Reserve_proxy, elements, wf, ArrayPtr_new;
    simpl.
  rewrite length_replicate. repeat split; (done || lia).
Qed.

(** X24.  A container constructed with [Reserve(n)] takes up to [n] pushes
    without reallocation: the capacity is [n] after each of them and the
    items pushed are the elements. *)
Theorem reserved_then_PushBack_all (n : Z) (items : list T) :
  is_size_t n ->
  Z.of_nat (length items) <= n ->
  elements (PushBack_all items (SimpleVector_reserved (Reserve_proxy n)))
  = items /\
  forall k, (k <= length items)%nat ->
    capacity_
      (PushBack_all (take k items) (SimpleVector_reserved (Reserve_proxy n)))
    = n.
Proof.
  intros Hn Hlen.
  destruct (SimpleVector_reserved_spec n Hn) as (Hs0 & Hc0 & He0 & Hwf0).
  split.
  - destruct (PushBack_all_spare items _ Hwf0) as (_ & _ & Pe & _).
    { rewrite Hs0, Hc0. lia. }
    by rewrite Pe, He0.
  - intros k Hk.
    destruct (PushBack_all_spare (take k items) _ Hwf0) as (_ & Pc & _).
    { rewrite Hs0, Hc0, length_take. lia. }
    by rewrite Pc.
Qed.

(** ** Further properties: arguments inside the container *)

(** The source slots of [std::move] are left moved-from. *)
Lemma std_move_fst_moved src first n dst d_first i :
  (first + n <= length src)%nat ->
  (first <= i < first + n)%nat ->
  fst (std_move src first n dst d_first) !! i = moved_from <$> src !! i.
Proof.
  revert src first dst d_first.
  induction n as [|n IH]; intros src first dst d_first Hlen Hi; [lia|].
  simpl.
  destruct (lookup_lt_is_Some_2 src first) as [x Hx]; [lia|].
  rewrite Hx.
  destruct (decide (i = first)) as [->|Hne].
  - rewrite std_move_fst_lookup by lia.
    rewrite list_lookup_insert_eq by lia. by rewrite Hx.
  - rewrite IH by (rewrite ?length_insert; lia).
    by rewrite list_lookup_insert_ne by lia.
Qed.

(** X26.  [v.PushBack(v[idx])] appends a copy of element [idx] as long as
    the array is kept; when the container is full the elements are moved to
    the new array first, and what is appended is the moved-from state of
    that element. *)
Theorem PushBack_own_element (idx : Z) (v : SimpleVector) :
  wf v ->
  0 <= idx < size_ v ->
  (size_ v = capacity_ v -> growth_fits v) ->
  exists x,
    elements v !! Z.to_nat idx = Some x /\
    PushBack_own idx v
    = Ok (PushBack (if size_ v =? capacity_ v then moved_from x else x) v) /\
    elements (PushBack (if size_ v =? capacity_ v then moved_from x else x) v)
    = elements v
      ++ [if size_ v =? capacity_ v then moved_from x else x].
Proof.
  intros Hwf Hidx Hfit. pose proof Hwf as (Hs & Hc & Hl).
  destruct (lookup_lt_is_Some_2 (data_ v) (Z.to_nat idx)) as [x Hx]; [lia|].
  exists x. split.
  { unfold elements. by rewrite lookup_take_lt by lia. }
  split; [|by apply PushBack_spec].
  unfold PushBack_own, PushBack.
  replace (idx <? size_ v) with true by (symmetry; apply Z.ltb_lt; lia).
  destruct (size_ v =? capacity_ v); [|by rewrite Hx].
  set (new_capacity :=
         if capacity_ v =? 0 then 1 else size_t_wrap (capacity_ v * 2)).
  pose proof (std_move_fst_moved (data_ v) 0 (Z.to_nat (size_ v))
                (ArrayPtr_new new_capacity) 0 (Z.to_nat idx)) as Hold.
  destruct (std_move (data_ v) 0 (Z.to_nat (size_ v)) _ 0)
    as [old_data new_data].
  simpl in Hold. rewrite Hold by lia. by rewrite Hx.
Qed.

(** Shifting right by one slot, slot by slot. *)
Lemma std_copy_backward_shift_lookup buf first n i :
  (first + n < length buf)%nat ->
  std_copy_backward buf first n (S (first + n)) !! i
  = if decide (first < i <= first + n)%nat then buf !! pred i else buf !! i.
Proof.
  intros Hlen.
  rewrite std_copy_backward_closed by lia.
  replace (S (first + n) - n)%nat with (S first) by lia.
  destruct (decide (i < S first)%nat) as [Hlt|Hge].
  - rewrite lookup_app_l by (rewrite length_take; lia).
    rewrite lookup_take_lt by lia.
    by rewrite decide_False by lia.
  - rewrite lookup_app_r by (rewrite length_take; lia).
    rewrite length_take.
    replace (i - S first `min` length buf)%nat with (i - S first)%nat by lia.
    destruct (decide (i <= first + n)%nat) as [Hin|Hout].
    + rewrite lookup_app_l by (rewrite length_take, length_drop; lia).
      rewrite lookup_take_lt by lia. rewrite lookup_drop.
      rewrite decide_True by lia. f_equal. lia.
    + rewrite lookup_app_r by (rewrite length_take, length_drop; lia).
      rewrite length_take, length_drop, lookup_drop.
      rewrite decide_False by lia. f_equal. lia.
Qed.

(** X27.  [v.Insert(pos, v[idx])] inserts element [idx] when the container
    is full or [idx] is not after [pos]; when the array is kept and [idx]
    is after [pos], the suffix is shifted before the argument is read, and
    what is inserted is the element before [idx]. *)
Theorem Insert_own_element (pos : Iterator) (idx : Z) (v : SimpleVector) :
  wf v ->
  begin v <= pos <= end_ v ->
  0 <= idx < size_ v ->
  (size_ v = capacity_ v -> growth_fits v) ->
  exists y,
    elements v
      !! Z.to_nat (if (size_ v =? capacity_ v) || (idx <=? pos)
                   then idx else idx - 1)
    = Some y /\
    Insert_own pos idx v = Insert pos y v /\
    exists v',
      Insert pos y v = Ok (pos, v') /\
      elements v'
      = take (Z.to_nat pos) (elements v)
        ++ y :: drop (Z.to_nat pos) (elements v).
Proof.
  intros Hwf Hpos Hidx Hfit. pose proof Hwf as (Hs & Hc & Hl).
  unfold begin, end_ in Hpos.
  set (j := if (size_ v =? capacity_ v) || (idx <=? pos)
            then idx else idx - 1).
  assert (Hj : 0 <= j < size_ v).
  { unfold j. destruct (size_ v =? capacity_ v); simpl; [lia|].
    destruct (idx <=? pos) eqn:H; [lia|]. apply Z.leb_gt in H. lia. }
  destruct (lookup_lt_is_Some_2 (data_ v) (Z.to_nat j)) as [y Hy]; [lia|].
  exists y. split.
  { unfold elements. by rewrite lookup_take_lt by lia. }
  split.
  - unfold Insert_own, Insert, begin, end_.
    replace (idx <? size_ v) with true by (symmetry; apply Z.ltb_lt; lia).
    replace ((0 <=? pos) && (pos <=? 0 + size_ v)) with true
      by (symmetry; apply andb_true_iff; split; apply Z.leb_le; lia).
    replace (pos - 0) with pos by lia.
    unfold j in Hy.
    destruct (size_ v =? capacity_ v) eqn:Hfull; simpl in Hy.
    + by rewrite Hy.
    + apply Z.eqb_neq in Hfull.
      replace (Z.to_nat (size_ v + 1))
        with (S (Z.to_nat pos + (Z.to_nat (size_ v) - Z.to_nat pos))) by lia.
      rewrite std_copy_backward_shift_lookup by lia.
      destruct (idx <=? pos) eqn:Hle.
      * apply Z.leb_le in Hle. rewrite decide_False by lia. by rewrite Hy.
      * apply Z.leb_gt in Hle. rewrite decide_True by lia.
        replace (pred (Z.to_nat idx)) with (Z.to_nat (idx - 1)) by lia.
        by rewrite Hy.
  - assert (Hpos' : 0 <= pos <= size_ v) by lia.
    destruct (Insert_spec pos y v Hwf Hpos' Hfit) as (v' & Hi & _ & _ & He & _).
    by exists v'.
Qed.

(** ** The claims on arguments passed by reference *)

(** [v.PushBack(v[idx])] is [PushBack] of the value slot [idx] holds when
    the argument is read: the element itself while the array is kept, its
    moved-from state after the elements were moved to a new array. *)
Lemma PushBack_own_spec idx x v :
  wf v ->
  index idx v = Ok x ->
  PushBack_own idx v
  = Ok (PushBack (if size_ v =? capacity_ v then moved_from x else x) v).
Proof.
  intros (Hs & Hc & Hl). unfold index.
  destruct (idx <? size_ v) eqn:Hlt; [|done].
  destruct (data_ v !! Z.to_nat idx) as [y|] eqn:Hy; [|done].
  intros [= ->].
  unfold PushBack_own, PushBack. rewrite Hlt.
  destruct (size_ v =? capacity_ v) eqn:Hfull; [|by rewrite Hy].
  apply Z.eqb_eq in Hfull. pose proof (lookup_lt_Some _ _ _ Hy) as Hk.
  set (new_capacity :=
         if capacity_ v =? 0 then 1 else size_t_wrap (capacity_ v * 2)).
  pose proof (std_move_fst_moved (data_ v) 0 (Z.to_nat (size_ v))
                (ArrayPtr_new new_capacity) 0 (Z.to_nat idx)) as Hold.
  destruct (std_move (data_ v) 0 (Z.to_nat (size_ v)) _ 0)
    as [old_data new_data].
  simpl in Hold. rewrite Hold by lia. by rewrite Hy.
Qed.

(** [v.Insert(pos, v[idx])] is [Insert] of the value slot [idx] holds when
    the argument is read: the element itself when a new array is filled or
    [idx] is not after [pos], the element before it after the suffix was
    shifted. *)
Lemma Insert_own_spec pos idx x v :
  wf v ->
  0 <= pos <= size_ v ->
  index idx v = Ok x ->
  exists y,
    Insert_own pos idx v = Insert pos y v /\
    if (size_ v =? capacity_ v) || (idx <=? pos) then y = x
    else elements v !! Z.to_nat (idx - 1) = Some y.
Proof.
  intros (Hs & Hc & Hl) Hpos. unfold index.
  destruct (idx <? size_ v) eqn:Hlt; [|done].
  destruct (data_ v !! Z.to_nat idx) as [z|] eqn:Hz; [|done].
  intros [= ->]. apply Z.ltb_lt in Hlt.
  unfold Insert_own, Insert, begin, end_.
  replace (idx <? size_ v) with true by (symmetry; apply Z.ltb_lt; lia).
  replace ((0 <=? pos) && (pos <=? 0 + size_ v)) with true
    by (symmetry; apply andb_true_iff; split; apply Z.leb_le; lia).
  replace (pos - 0) with pos by lia.
  destruct (size_ v =? capacity_ v) eqn:Hfull; simpl.
  { exists x. by rewrite Hz. }
  apply Z.eqb_neq in Hfull.
  replace (Z.to_nat (size_ v + 1))
    with (S (Z.to_nat pos + (Z.to_nat (size_ v) - Z.to_nat pos))) by lia.
  rewrite std_copy_backward_shift_lookup by lia.
  destruct (idx <=? pos) eqn:Hle.
  - apply Z.leb_le in Hle. rewrite decide_False by lia.
    exists x. by rewrite Hz.
  - apply Z.leb_gt in Hle. rewrite decide_True by lia.
    replace (pred (Z.to_nat idx)) with (Z.to_nat (idx - 1)) by lia.
    destruct (lookup_lt_is_Some_2 (data_ v) (Z.to_nat (idx - 1))) as [y Hy];
      [lia|].
    exists y. rewrite Hy. split; [done|].
    unfold elements. by rewrite lookup_take_lt by lia.
Qed.

(** [Insert] at [end()] leaves the container [PushBack] of the same value
    leaves. *)
Lemma Insert_end_eq value v :
  0 <= size_ v ->
  Insert (end_ v) value v = Ok (end_ v, PushBack value v).
Proof.
  intros Hs. unfold Insert, PushBack, begin, end_.
  replace ((0 <=? 0 + size_ v) && (0 + size_ v <=? 0 + size_ v)) with true
    by (symmetry; apply andb_true_iff; split; apply Z.leb_le; lia).
  replace (0 + size_ v - 0) with (size_ v) by lia.
  rewrite Nat.sub_diag.
  destruct (size_ v =? capacity_ v).
  - std_move_dest. simpl. done.
  - simpl. done.
Qed.

(** C2.  [PushBack(const Type& item)] adds one to the size and appends one
    element after the live ones, which keep their order; a full container
    doubles its capacity first, a capacity of 0 becoming 1.  The element
    appended is the value [item] referred to when the call started, with
    one exception: when [item] is an element of the container itself and
    the container is full, the elements are moved to the new array before
    [item] is read, and what is appended is the moved-from state of that
    element.  For an argument outside the container [PushBack(Type&&)]
    leaves the same container; pushing the items of a list into a
    default-constructed container gives the list, and after each push the
    capacity is the matching term of 0, 1, 2, 4, 8, ... *)
Theorem PushBack_ref_appends_and_doubles
    (item : Arg) (x : T) (v : SimpleVector) (items : list T) :
  wf v ->
  (size_ v = capacity_ v -> growth_fits v) ->
  Arg_value item v = Ok x ->
  Z.of_nat (length items) <= 2 ^ 63 ->
  (exists v',
     PushBack_ref item v = Ok v' /\
     size_ v' = size_ v + 1 /\
     elements v'
     = elements v
       ++ [match item with
           | Outside _ => x
           | Own _ => if size_ v =? capacity_ v then moved_from x else x
           end] /\
     capacity_ v'
     = (if size_ v =? capacity_ v
        then if capacity_ v =? 0 then 1 else capacity_ v * 2
        else capacity_ v) /\
     wf v') /\
  fst (PushBack_move x v) = PushBack x v /\
  (size_ (PushBack_all items SimpleVector_default) = Z.of_nat (length items) /\
   elements (PushBack_all items SimpleVector_default) = items /\
   forall k, (k <= length items)%nat ->
     capacity_ (PushBack_all (take k items) SimpleVector_default)
     = doubled_capacity (Z.of_nat k)).
Proof.
  intros Hwf Hfit Hx Hlen. split; [|split].
  - destruct item as [x'|idx]; unfold PushBack_ref; simpl in Hx.
    + injection Hx as ->.
      destruct (PushBack_spec x v Hwf Hfit) as (Hs & Hc & He & Hwf').
      by exists (PushBack x v).
    + rewrite (PushBack_own_spec idx x v Hwf Hx).
      destruct (PushBack_spec
                  (if size_ v =? capacity_ v then moved_from x else x)
                  v Hwf Hfit) as (Hs & Hc & He & Hwf').
      by eexists.
  - apply PushBack_move_fst.
  - destruct (PushBack_all_spec items SimpleVector_default)
      as (Hs & _ & He & _);
      [apply SimpleVector_default_wf|simpl; lia|done|].
    split; [done|]. split; [done|].
    intros k Hk.
    destruct (PushBack_all_spec (take k items) SimpleVector_default)
      as (_ & Hc & _);
      [apply SimpleVector_default_wf|simpl; rewrite length_take; lia|done|].
    rewrite Hc, length_take. simpl. f_equal. lia.
Qed.

(** C4.  For a position in [[begin, end]],
    [Insert(ConstIterator pos, const Type& value)] puts one element before
    that position (at the end for [end]), keeps the other elements in
    order, adds one to the size and returns the position of the inserted
    element; a full container doubles its capacity first, a capacity of 0
    becoming 1.  The element inserted is the value [value] referred to when
    the call started, with one exception: when [value] is an element of the
    container itself that lies after [pos] and the array is kept, the
    suffix is shifted before [value] is read, and what is inserted is the
    element before it.  For an argument outside the container
    [Insert(ConstIterator pos, Type&& value)] does the same. *)
Theorem Insert_ref_before_position
    (pos : Iterator) (value : Arg) (x : T) (v : SimpleVector) :
  wf v ->
  begin v <= pos <= end_ v ->
  (size_ v = capacity_ v -> growth_fits v) ->
  Arg_value value v = Ok x ->
  (exists y v',
     Insert_ref pos value v = Ok (pos, v') /\
     elements v'
     = take (Z.to_nat pos) (elements v)
       ++ y :: drop (Z.to_nat pos) (elements v) /\
     size_ v' = size_ v + 1 /\
     elements v' !! Z.to_nat pos = Some y /\
     capacity_ v'
     = (if size_ v =? capacity_ v
        then if capacity_ v =? 0 then 1 else capacity_ v * 2
        else capacity_ v) /\
     wf v' /\
     match value with
     | Outside _ => y = x
     | Own idx =>
         if (size_ v =? capacity_ v) || (idx <=? pos) then y = x
         else elements v !! Z.to_nat (idx - 1) = Some y
     end) /\
  Insert_move pos x v = Insert pos x v.
Proof.
  intros Hwf Hpos Hfit Hx. unfold begin, end_ in Hpos.
  assert (Hpos' : 0 <= pos <= size_ v) by lia.
  split; [|by apply Insert_move_eq].
  assert (Hy : exists y,
            Insert_ref pos value v = Insert pos y v /\
            match value with
            | Outside _ => y = x
            | Own idx =>
                if (size_ v =? capacity_ v) || (idx <=? pos) then y = x
                else elements v !! Z.to_nat (idx - 1) = Some y
            end).
  { destruct value as [x'|idx]; simpl in Hx.
    - injection Hx as ->. by exists x.
    - apply Insert_own_spec; done. }
  destruct Hy as (y & Hins & Hy).
  destruct (Insert_spec pos y v Hwf Hpos' Hfit)
    as (v' & Hi & Hs & Hc & He & Hwf').
  exists y, v'. rewrite Hins.
  split; [done|]. split; [done|]. split; [done|]. split; [|done].
  rewrite He. rewrite lookup_app_r; rewrite length_take, length_elements by done.
  - by replace (Z.to_nat pos - Z.to_nat pos `min` Z.to_nat (size_ v))%nat
      with 0%nat by lia.
  - lia.
Qed.

(** X17.  [Insert] at [end()] appends the value its argument referred to
    when the call started and returns the position of the new last element;
    the container it leaves is the one [PushBack] of that value leaves.
    [PushBack] of the same argument leaves the same container unless the
    argument is an element of a full container, where [PushBack] appends
    the moved-from state of the element. *)
Theorem Insert_at_end_and_PushBack (item : Arg) (x : T) (v : SimpleVector) :
  wf v ->
  Arg_value item v = Ok x ->
  Insert_ref (end_ v) item v = Ok (end_ v, PushBack x v) /\
  PushBack_ref item v
  = Ok (PushBack
          match item with
          | Outside _ => x
          | Own _ => if size_ v =? capacity_ v then moved_from x else x
          end v).
Proof.
  intros Hwf Hx. pose proof Hwf as (Hs & Hc & Hl).
  destruct item as [x'|idx]; simpl in *.
  - injection Hx as ->. split; [|done]. apply Insert_end_eq. lia.
  - split; [|by apply PushBack_own_spec].
    destruct (Insert_own_spec (end_ v) idx x v Hwf) as (y & Hins & Hy);
      [unfold end_; lia|done|].
    rewrite Hins.
    replace ((size_ v =? capacity_ v) || (idx <=? end_ v)) with true in Hy.
    + subst y. apply Insert_end_eq. lia.
    + symmetry. apply orb_true_iff. right. apply Z.leb_le.
      unfold index in Hx. destruct (idx <? size_ v) eqn:Hlt; [|done].
      apply Z.ltb_lt in Hlt. unfold end_. lia.
Qed.

(** X25.  What [PushBack] stored, [At] reads back: after
    [PushBack(const Type& item)], [At] at the old size returns the element
    appended, which is the value [item] referred to, or its moved-from
    state when [item] is an element of a full container, and [At] at every
    earlier index returns what it returned before. *)
Theorem PushBack_then_At (item : Arg) (x : T) (v : SimpleVector) :
  wf v ->
  (size_ v = capacity_ v -> growth_fits v) ->
  Arg_value item v = Ok x ->
  exists v',
    PushBack_ref item v = Ok v' /\
    At (size_ v) v'
    = Ok match item with
         | Outside _ => x
         | Own _ => if size_ v =? capacity_ v then moved_from x else x
         end /\
    forall i, 0 <= i < size_ v -> At i v' = At i v.
Proof.
  intros Hwf Hfit Hx. pose proof Hwf as (Hs & Hc & Hl).
  set (z := match item with
            | Outside _ => x
            | Own _ => if size_ v =? capacity_ v then moved_from x else x
            end).
  assert (Hpush : PushBack_ref item v = Ok (PushBack z v)).
  { unfold z. destruct item as [x'|idx]; simpl in *.
    - by injection Hx as ->.
    - by apply PushBack_own_spec. }
  destruct (PushBack_spec z v Hwf Hfit) as (Ps & _ & Pe & Pwf).
  exists (PushBack z v). split; [done|]. split.
  - destruct (At_ok (size_ v) (PushBack z v) Pwf) as (y & Hy & Hel); [lia|].
    rewrite Hy. f_equal.
    rewrite Pe, lookup_app_r in Hel by (rewrite length_elements by done; lia).
    rewrite length_elements, Nat.sub_diag in Hel by done.
    simpl in Hel. congruence.
  - intros i Hi.
    destruct (At_ok i (PushBack z v) Pwf) as (y & Hy & Hel); [lia|].
    destruct (At_ok i v Hwf) as (y' & Hy' & Hel'); [lia|].
    rewrite Hy, Hy'. f_equal.
    rewrite Pe, lookup_app_l in Hel by (rewrite length_elements by done; lia).
    congruence.
Qed.

(** ** The claim on copies: objects and arrays in memory *)

Lemma array_at_set_object a o m p :
  array_at (set_object a o m) p = array_at m p.
Proof. done. Qed.

Lemma array_at_release p q m :
  (forall l, q = Some l -> p <> Some l) ->
  array_at (ArrayPtr_release p m) q = array_at m q.
Proof.
  intros Hne. destruct p as [l|], q as [k|]; simpl; try done.
  rewrite lookup_delete_ne; [done|]. intros ->. by apply (Hne k).
Qed.

Lemma array_at_write p q contents m :
  (forall l, q = Some l -> p <> Some l) ->
  array_at (ArrayPtr_write p contents m) q = array_at m q.
Proof.
  intros Hne. destruct p as [l|], q as [k|]; simpl; try done.
  rewrite lookup_insert_ne; [done|]. intros ->. by apply (Hne k).
Qed.

Lemma array_at_alloc size contents m p m1 q :
  ArrayPtr_alloc size contents m = (p, m1) ->
  (forall l, q = Some l -> (l < next_array m)%nat) ->
  array_at m1 q = array_at m q.
Proof.
  unfold ArrayPtr_alloc.
  destruct (size =? 0); intros [= <- <-] Hq; [done|].
  destruct q as [k|]; simpl; [|done].
  rewrite lookup_insert_ne; [done|]. specialize (Hq k eq_refl). lia.
Qed.

(** The pointer [ArrayPtr(size)] returns refers to the new array. *)
Lemma array_at_alloc_new size contents m p m1 :
  ArrayPtr_alloc size contents m = (p, m1) ->
  length contents = Z.to_nat size ->
  array_at m1 p = contents.
Proof.
  unfold ArrayPtr_alloc.
  destruct (size =? 0) eqn:H; intros [= <- <-] Hl; simpl.
  - apply Z.eqb_eq in H. subst. symmetry. by apply nil_length_inv.
  - by rewrite lookup_insert_eq.
Qed.

(** What [ArrayPtr(size)] changes: one array is added at the next address. *)
Lemma ArrayPtr_alloc_spec size contents m p m1 :
  ArrayPtr_alloc size contents m = (p, m1) ->
  objects m1 = objects m /\
  (next_array m <= next_array m1)%nat /\
  (forall l, p = Some l -> l = next_array m /\ (l < next_array m1)%nat) /\
  (forall l, is_Some (arrays m1 !! l) <->
             is_Some (arrays m !! l) \/ p = Some l).
Proof.
  unfold ArrayPtr_alloc.
  destruct (size =? 0); intros [= <- <-]; simpl.
  - split; [done|]. split; [done|]. split; [done|].
    intros l. split; [by left|]. by intros [H|H].
  - split; [done|]. split; [lia|]. split.
    + intros l [= <-]. split; [done|lia].
    + intros l. destruct (decide (l = next_array m)) as [->|Hne].
      * rewrite lookup_insert_eq. split; [by right|by eexists].
      * rewrite lookup_insert_ne by done. split; [by left|].
        intros [H|[= H]]; [done|]. by destruct Hne.
Qed.

Lemma ArrayPtr_release_spec p m l :
  is_Some (arrays (ArrayPtr_release p m) !! l) <->
  is_Some (arrays m !! l) /\ p <> Some l.
Proof.
  destruct p as [k|]; simpl.
  2: { split; [|by intros [H _]]. intros H. by split. }
  destruct (decide (k = l)) as [->|Hne].
  - rewrite lookup_delete_eq. split.
    + by intros [? ?].
    + by intros [_ H].
  - rewrite lookup_delete_ne by done. split; [|by intros [H _]].
    intros H. split; [done|]. by intros [= ?].
Qed.

Lemma ArrayPtr_write_spec p contents m l :
  (forall k, p = Some k -> is_Some (arrays m !! k)) ->
  is_Some (arrays (ArrayPtr_write p contents m) !! l) <->
  is_Some (arrays m !! l).
Proof.
  intros Hp. destruct p as [k|]; simpl; [|done].
  destruct (decide (k = l)) as [->|Hne].
  - rewrite lookup_insert_eq. split; [intros _; by apply Hp|by eexists].
  - by rewrite lookup_insert_ne.
Qed.

(** One object changes: the views of the others stay when their arrays
    do. *)
Lemma views_step this o' v' m m' :
  objects m' = <[this := o']> (objects m) ->
  load m' o' = v' ->
  (forall a o, a <> this -> objects m !! a = Some o ->
     array_at m' (raw_ptr_ o) = array_at m (raw_ptr_ o)) ->
  views m' = <[this := v']> (views m).
Proof.
  intros Hobj Hload Hothers. unfold views.
  rewrite Hobj, fmap_insert, Hload.
  apply map_eq. intros a.
  destruct (decide (a = this)) as [->|Hne].
  - by rewrite !lookup_insert_eq.
  - rewrite !lookup_insert_ne by done. rewrite !lookup_fmap.
    destruct (objects m !! a) as [o|] eqn:Ho; simpl; [|done].
    unfold load. by rewrite (Hothers a o).
Qed.

(** One object changes its pointer: ownership stays exclusive when the new
    pointer refers to an array no other object holds. *)
Lemma owns_step this o' m m' :
  owns m ->
  objects m' = <[this := o']> (objects m) ->
  (forall a o l, a <> this -> objects m !! a = Some o -> raw_ptr_ o = Some l ->
     is_Some (arrays m' !! l) /\ raw_ptr_ o' <> Some l) ->
  (forall l, raw_ptr_ o' = Some l -> is_Some (arrays m' !! l)) ->
  (forall l, is_Some (arrays m' !! l) -> (l < next_array m')%nat) ->
  owns m'.
Proof.
  intros (HV & HI & HB) Hobj Hothers Hnew Hbound.
  split; [|split; [|done]].
  - intros a o l. rewrite Hobj.
    destruct (decide (a = this)) as [->|Hne].
    + rewrite lookup_insert_eq. intros [= <-]. apply Hnew.
    + rewrite lookup_insert_ne by done. intros Ho Hl.
      by destruct (Hothers a o l).
  - intros a b o1 o2 l. rewrite Hobj.
    destruct (decide (a = this)) as [->|Ha], (decide (b = this)) as [->|Hb];
      try done.
    + rewrite lookup_insert_eq, lookup_insert_ne by done.
      intros [= <-] Ho2 Hl1 Hl2.
      by destruct (Hothers b o2 l).
    + rewrite lookup_insert_eq, lookup_insert_ne by done.
      intros Ho1 [= <-] Hl1 Hl2.
      by destruct (Hothers a o1 l).
    + rewrite !lookup_insert_ne by done. apply HI.
Qed.

(** A constructor on the memory does what it does on the store. *)
Lemma mem_construct_step this v m m' :
  owns m ->
  length (data_ v) = Z.to_nat (capacity_ v) ->
  mem_construct this v m = Ok m' ->
  owns m' /\ construct this v (views m) = Ok (views m').
Proof.
  intros Hown Hlen. pose proof Hown as (HV & HI & HB).
  unfold mem_construct, construct.
  unfold views at 1. rewrite lookup_fmap.
  destruct (objects m !! this) as [o|] eqn:Ho; simpl; [done|].
  destruct (ArrayPtr_alloc (capacity_ v) (data_ v) m) as [p m1] eqn:Ha.
  intros [= <-].
  destruct (ArrayPtr_alloc_spec _ _ _ _ _ Ha) as (Hobj & Hnext & Hp & Harr).
  split.
  - eapply (owns_step this); [done|by simpl; rewrite Hobj| | |]; simpl.
    + intros a o l Hne Hao Hl. split.
      * apply Harr. left. by eapply HV.
      * intros Hpl. destruct (Hp l Hpl) as [-> _].
        assert (next_array m < next_array m)%nat; [|lia].
        apply HB. by eapply HV.
    + intros l Hl. apply Harr. by right.
    + intros l [Hl|Hl]%Harr; [|by apply Hp].
      apply HB in Hl. lia.
  - f_equal. symmetry.
    apply (views_step this (mkObject (size_ v) (capacity_ v) p));
      [by simpl; rewrite Hobj| |].
    + unfold load. rewrite array_at_set_object. simpl.
      rewrite (array_at_alloc_new _ _ _ _ _ Ha Hlen). by destruct v.
    + intros a o Hne Hao. rewrite array_at_set_object.
      apply (array_at_alloc _ _ _ _ _ _ Ha).
      intros l Hl. apply HB. by eapply HV.
Qed.

Lemma ArrayPtr_release_fields p m :
  objects (ArrayPtr_release p m) = objects m /\
  next_array (ArrayPtr_release p m) = next_array m.
Proof. by destruct p. Qed.

Lemma ArrayPtr_write_fields p contents m :
  objects (ArrayPtr_write p contents m) = objects m /\
  next_array (ArrayPtr_write p contents m) = next_array m.
Proof. by destruct p. Qed.

(** Writing through the pointer of an object changes the array it refers
    to; behind [nullptr] there is no slot to write. *)
Lemma array_at_write_same p contents m :
  length contents = length (array_at m p) ->
  array_at (ArrayPtr_write p contents m) p = contents.
Proof.
  destruct p as [l|]; simpl.
  - intros _. by rewrite lookup_insert_eq.
  - intros H. symmetry. by apply nil_length_inv.
Qed.

(** A member function on the memory does what it does on the store, given
    that it leaves an array of [capacity_] slots where it allocates and an
    array of the old length where it does not. *)
Lemma mem_member_step this f (reallocates : SimpleVector -> bool) m m' :
  owns m ->
  (forall v v' : SimpleVector, f v = Ok v' ->
     if reallocates v then length (data_ v') = Z.to_nat (capacity_ v')
     else length (data_ v') = length (data_ v)) ->
  mem_member this f reallocates m = Ok m' ->
  owns m' /\ on_object this f (views m) = Ok (views m').
Proof.
  intros Hown Hshape. pose proof Hown as (HV & HI & HB).
  unfold mem_member, on_object.
  unfold views at 1. rewrite lookup_fmap.
  destruct (objects m !! this) as [o|] eqn:Ho; simpl; [|done].
  intros (v' & Hf & ->)%Result_map_Ok. rewrite Hf. simpl.
  specialize (Hshape _ _ Hf).
  assert (Hapart : forall a o2 l, a <> this -> objects m !! a = Some o2 ->
            raw_ptr_ o2 = Some l -> raw_ptr_ o <> Some l).
  { intros a o2 l Hne Hao Hl Hol. apply Hne. by eapply (HI a this). }
  destruct (reallocates (load m o)).
  - destruct (ArrayPtr_alloc (capacity_ v') (data_ v') m) as [p m1] eqn:Ha.
    destruct (ArrayPtr_alloc_spec _ _ _ _ _ Ha) as (Hobj & Hnext & Hp & Harr).
    destruct (ArrayPtr_release_fields (raw_ptr_ o) m1) as [Robj Rnext].
    assert (Hfresh : forall l, p = Some l -> ~ is_Some (arrays m !! l)).
    { intros l Hpl Hl. destruct (Hp l Hpl) as [-> _]. apply HB in Hl. lia. }
    split.
    + eapply (owns_step this); [done|by simpl; rewrite Robj, Hobj| | |]; simpl.
      * intros a o2 l Hne Hao Hl. split.
        -- apply ArrayPtr_release_spec. split; [|by eapply Hapart].
           apply Harr. left. by eapply HV.
        -- intros Hpl. apply (Hfresh l Hpl). by eapply HV.
      * intros l Hl. apply ArrayPtr_release_spec. split; [apply Harr; by right|].
        intros Hol. apply (Hfresh l Hl). by eapply HV.
      * intros l [[Hl|Hl]%Harr _]%ArrayPtr_release_spec; rewrite Rnext.
        -- apply HB in Hl. lia.
        -- by apply Hp.
    + f_equal. symmetry.
      apply (views_step this (mkObject (size_ v') (capacity_ v') p));
        [by simpl; rewrite Robj, Hobj| |].
      * unfold load. rewrite array_at_set_object. simpl.
        rewrite array_at_release.
        -- rewrite (array_at_alloc_new _ _ _ _ _ Ha Hshape). by destruct v'.
        -- intros l Hpl Hol. apply (Hfresh l Hpl). by eapply HV.
      * intros a o2 Hne Hao. rewrite array_at_set_object, array_at_release.
        -- apply (array_at_alloc _ _ _ _ _ _ Ha).
           intros l Hl. apply HB. by eapply HV.
        -- intros l Hl. by eapply Hapart.
  - destruct (ArrayPtr_write_fields (raw_ptr_ o) (data_ v') m) as [Wobj Wnext].
    assert (Hvalid : forall k, raw_ptr_ o = Some k -> is_Some (arrays m !! k)).
    { intros k Hk. by eapply HV. }
    split.
    + eapply (owns_step this); [done|by simpl; rewrite Wobj| | |]; simpl.
      * intros a o2 l Hne Hao Hl. split; [|by eapply Hapart].
        apply ArrayPtr_write_spec; [done|]. by eapply HV.
      * intros l Hl. apply ArrayPtr_write_spec; [done|]. by apply Hvalid.
      * intros l Hl%ArrayPtr_write_spec; [|done]. rewrite Wnext. by apply HB.
    + f_equal. symmetry.
      apply (views_step this (mkObject (size_ v') (capacity_ v') (raw_ptr_ o)));
        [by simpl; rewrite Wobj| |].
      * unfold load. rewrite array_at_set_object. simpl.
        rewrite array_at_write_same by done. by destruct v'.
      * intros a o2 Hne Hao. rewrite array_at_set_object.
        apply array_at_write. intros l Hl. by eapply Hapart.
Qed.

(** Two objects change. *)
Lemma views_step2 this other o1 o2 v1 v2 m m' :
  objects m' = <[this := o1]> (<[other := o2]> (objects m)) ->
  load m' o1 = v1 ->
  load m' o2 = v2 ->
  (forall a o, a <> this -> a <> other -> objects m !! a = Some o ->
     array_at m' (raw_ptr_ o) = array_at m (raw_ptr_ o)) ->
  views m' = <[this := v1]> (<[other := v2]> (views m)).
Proof.
  intros Hobj Hload1 Hload2 Hothers. unfold views.
  rewrite Hobj, !fmap_insert, Hload1, Hload2.
  apply map_eq. intros a.
  destruct (decide (a = this)) as [->|Hne1].
  { by rewrite !lookup_insert_eq. }
  rewrite !(lookup_insert_ne _ this) by done.
  destruct (decide (a = other)) as [->|Hne2].
  { by rewrite !lookup_insert_eq. }
  rewrite !lookup_insert_ne by done. rewrite !lookup_fmap.
  destruct (objects m !! a) as [o|] eqn:Ho; simpl; [|done].
  unfold load. by rewrite (Hothers a o).
Qed.

(** [swap] on the memory: the two objects exchange their arrays. *)
Lemma mem_swap_step this other m m' :
  owns m ->
  mem_swap this other m = Ok m' ->
  owns m' /\ swap_objects this other (views m) = Ok (views m').
Proof.
  intros (HV & HI & HB).
  unfold mem_swap, swap_objects. unfold views at 1 2. rewrite !lookup_fmap.
  destruct (objects m !! this) as [t|] eqn:Ht; simpl; [|done].
  destruct (objects m !! other) as [o|] eqn:Ho; simpl; [|done].
  intros [= <-].
  assert (Hlook : forall a,
            objects (set_object this o (set_object other t m)) !! a
            = objects m !! (if decide (a = this) then other
                            else if decide (a = other) then this else a)).
  { intros a. simpl.
    destruct (decide (a = this)) as [->|Hne1].
    { by rewrite lookup_insert_eq. }
    rewrite lookup_insert_ne by done.
    destruct (decide (a = other)) as [->|Hne2].
    { by rewrite lookup_insert_eq. }
    by rewrite lookup_insert_ne. }
  split.
  - split; [|split; [|done]].
    + intros a o1 l. rewrite Hlook. apply HV.
    + intros a b o1 o2 l. rewrite !Hlook. intros Ha Hb Hl1 Hl2.
      pose proof (HI _ _ _ _ _ Ha Hb Hl1 Hl2) as Heq.
      repeat destruct (decide _); congruence.
  - f_equal. symmetry.
    by apply (views_step2 this other o t).
Qed.

(** Move construction on the memory: the array changes its owner. *)
Lemma mem_construct_move_step this other m m' :
  owns m ->
  mem_construct_move this other m = Ok m' ->
  owns m' /\ construct_move this other (views m) = Ok (views m').
Proof.
  intros (HV & HI & HB).
  unfold mem_construct_move, construct_move, construct.
  unfold views at 1. rewrite lookup_fmap.
  destruct (objects m !! other) as [o|] eqn:Ho; simpl; [|done].
  destruct (decide (this = other)) as [->|Hne].
  { by rewrite lookup_insert_eq. }
  rewrite !lookup_insert_ne by done.
  unfold views at 1. rewrite lookup_fmap.
  destruct (objects m !! this) as [t|] eqn:Ht; simpl; [done|].
  intros [= <-].
  split.
  - split; [|split; [|done]]; simpl.
    + intros a o1 l.
      destruct (decide (a = this)) as [->|Ha].
      { rewrite lookup_insert_eq. intros [= <-]. by apply (HV other). }
      rewrite lookup_insert_ne by done.
      destruct (decide (a = other)) as [->|Hb].
      { rewrite lookup_insert_eq. by intros [= <-]. }
      rewrite lookup_insert_ne by done. apply HV.
    + assert (Hone : forall b o2 l, b <> this ->
                <[other := mkObject 0 0 None]> (objects m) !! b = Some o2 ->
                raw_ptr_ o2 = Some l -> raw_ptr_ o = Some l -> False).
      { intros b o2 l Hb.
        destruct (decide (b = other)) as [->|Hbo].
        { rewrite lookup_insert_eq. by intros [= <-]. }
        rewrite lookup_insert_ne by done. intros Hb2 Hl2 Hl.
        apply Hbo. by eapply (HI b other). }
      intros a b o1 o2 l.
      destruct (decide (a = this)) as [->|Ha], (decide (b = this)) as [->|Hb];
        try done.
      * rewrite lookup_insert_eq, lookup_insert_ne by done.
        intros [= <-] Hb2 Hl1 Hl2. by destruct (Hone b o2 l).
      * rewrite lookup_insert_eq, lookup_insert_ne by done.
        intros Ha1 [= <-] Hl1 Hl2. by destruct (Hone a o1 l).
      * rewrite !(lookup_insert_ne _ this) by done.
        destruct (decide (a = other)) as [->|Hao].
        { rewrite lookup_insert_eq. by intros [= <-]. }
        destruct (decide (b = other)) as [->|Hbo].
        { rewrite lookup_insert_eq. by intros _ [= <-]. }
        rewrite !lookup_insert_ne by done. apply HI.
  - f_equal. symmetry.
    by apply (views_step2 this other o (mkObject 0 0 None)).
Qed.

(** Move assignment on the memory: the array of the destination is
    released and the array of the source changes its owner. *)
Lemma mem_assign_move_step this rhs m m' :
  owns m ->
  mem_assign_move this rhs m = Ok m' ->
  owns m' /\ operator_assign_move this rhs (views m) = Ok (views m').
Proof.
  intros (HV & HI & HB).
  unfold mem_assign_move, operator_assign_move.
  unfold views at 1 2. rewrite !lookup_fmap.
  destruct (objects m !! this) as [t|] eqn:Ht; simpl; [|done].
  destruct (objects m !! rhs) as [r|] eqn:Hr; simpl; [|done].
  destruct (decide (this <> rhs)) as [Hne|_]; intros [= <-]; [|done].
  destruct (ArrayPtr_release_fields (raw_ptr_ t) m) as [Robj Rnext].
  assert (Hapart : forall a o2 l, a <> this -> objects m !! a = Some o2 ->
            raw_ptr_ o2 = Some l -> raw_ptr_ t <> Some l).
  { intros a o2 l Ha Hao Hl Htl. apply Ha. by eapply (HI a this). }
  split.
  - split; [|split]; simpl.
    + intros a o1 l.
      destruct (decide (a = this)) as [->|Ha].
      { rewrite lookup_insert_eq. intros [= <-]. simpl. intros Hl.
        apply ArrayPtr_release_spec. split; [by eapply HV|].
        by eapply (Hapart rhs). }
      rewrite lookup_insert_ne by done.
      destruct (decide (a = rhs)) as [->|Hb].
      { rewrite lookup_insert_eq. by intros [= <-]. }
      rewrite lookup_insert_ne by done. rewrite Robj. intros Hao Hl.
      apply ArrayPtr_release_spec. split; [by eapply HV|].
      by eapply Hapart.
    + assert (Hone : forall b o2 l, b <> this ->
                <[rhs := mkObject (obj_size r) (obj_capacity r) None]>
                  (objects (ArrayPtr_release (raw_ptr_ t) m)) !! b = Some o2 ->
                raw_ptr_ o2 = Some l -> raw_ptr_ r = Some l -> False).
      { intros b o2 l Hb.
        destruct (decide (b = rhs)) as [->|Hbo].
        { rewrite lookup_insert_eq. by intros [= <-]. }
        rewrite lookup_insert_ne by done. rewrite Robj. intros Hb2 Hl2 Hl.
        apply Hbo. by eapply (HI b rhs). }
      intros a b o1 o2 l.
      destruct (decide (a = this)) as [->|Ha], (decide (b = this)) as [->|Hb];
        try done.
      * rewrite lookup_insert_eq, lookup_insert_ne by done.
        intros [= <-] Hb2 Hl1 Hl2. by destruct (Hone b o2 l).
      * rewrite lookup_insert_eq, lookup_insert_ne by done.
        intros Ha1 [= <-] Hl1 Hl2. by destruct (Hone a o1 l).
      * rewrite !(lookup_insert_ne _ this) by done.
        destruct (decide (a = rhs)) as [->|Hao].
        { rewrite lookup_insert_eq. by intros [= <-]. }
        destruct (decide (b = rhs)) as [->|Hbo].
        { rewrite lookup_insert_eq. by intros _ [= <-]. }
        rewrite !lookup_insert_ne by done. rewrite Robj. apply HI.
    + intros l [Hl _]%ArrayPtr_release_spec. rewrite Rnext. by apply HB.
  - f_equal. symmetry.
    apply (views_step2 this rhs
             (mkObject (obj_size r) (obj_capacity r) (raw_ptr_ r))
             (mkObject (obj_size r) (obj_capacity r) None));
      [by simpl; rewrite Robj| | |].
    + unfold load. rewrite !array_at_set_object. simpl.
      rewrite array_at_release; [done|].
      intros l Hl. by eapply (Hapart rhs).
    + done.
    + intros a o Ha1 Ha2 Hao. rewrite !array_at_set_object.
      apply array_at_release. intros l Hl. by eapply Hapart.
Qed.

(** Every constructor leaves an array of [capacity_] slots. *)
Lemma SimpleVector_copy_length o :
  length (data_ (SimpleVector_copy o))
  = Z.to_nat (capacity_ (SimpleVector_copy o)).
Proof.
  unfold SimpleVector_copy, SimpleVector_sized, GetSize, ArrayPtr_new; simpl.
  by rewrite length_std_copy, length_std_generate, length_replicate.
Qed.

Lemma SimpleVector_filled_move_length size value :
  length (data_ (fst (SimpleVector_filled_move size value)))
  = Z.to_nat (capacity_ (fst (SimpleVector_filled_move size value))).
Proof.
  unfold SimpleVector_filled_move, ArrayPtr_new.
  pose proof (length_std_generate gen_move value
                (replicate (Z.to_nat size) Type_default) 0 (Z.to_nat size))
    as Hlen.
  destruct (std_generate gen_move value _ 0 (Z.to_nat size)) as [buf value'].
  simpl in *. by rewrite Hlen, length_replicate.
Qed.

(** Every member function leaves an array of [capacity_] slots where it
    allocates, and an array of the old length where it does not. *)
Lemma Reserve_shape n v :
  if Reserve_reallocates n v
  then length (data_ (Reserve n v)) = Z.to_nat (capacity_ (Reserve n v))
  else length (data_ (Reserve n v)) = length (data_ v).
Proof.
  unfold Reserve_reallocates, Reserve.
  destruct (capacity_ v <? n); [|done].
  std_move_dest. simpl. unfold ArrayPtr_new.
  by rewrite length_std_copy, length_replicate.
Qed.

Lemma Resize_shape n v :
  if Resize_reallocates n v
  then length (data_ (Resize n v)) = Z.to_nat (capacity_ (Resize n v))
  else length (data_ (Resize n v)) = length (data_ v).
Proof.
  unfold Resize_reallocates, Resize.
  destruct (n <=? size_ v); simpl; [done|].
  destruct (n <=? capacity_ v); simpl.
  - by rewrite length_std_generate.
  - std_move_dest. simpl. unfold ArrayPtr_new.
    by rewrite length_std_generate, length_std_copy, length_replicate.
Qed.

Lemma PushBack_shape item v :
  if PushBack_reallocates v
  then length (data_ (PushBack item v)) = Z.to_nat (capacity_ (PushBack item v))
  else length (data_ (PushBack item v)) = length (data_ v).
Proof.
  unfold PushBack_reallocates, PushBack.
  destruct (size_ v =? capacity_ v).
  - std_move_dest. simpl. unfold ArrayPtr_new.
    by rewrite length_insert, length_std_copy, length_replicate.
  - simpl. by rewrite length_insert.
Qed.

Lemma PushBack_own_shape idx v v' :
  PushBack_own idx v = Ok v' ->
  if PushBack_reallocates v
  then length (data_ v') = Z.to_nat (capacity_ v')
  else length (data_ v') = length (data_ v).
Proof.
  unfold PushBack_reallocates, PushBack_own.
  destruct (idx <? size_ v); [|done].
  destruct (size_ v =? capacity_ v).
  - std_move_dest. destruct (old_data !! Z.to_nat idx); [|done].
    intros [= <-]. simpl. unfold ArrayPtr_new.
    by rewrite length_insert, length_std_copy, length_replicate.
  - destruct (data_ v !! Z.to_nat idx); [|done].
    intros [= <-]. simpl. by rewrite length_insert.
Qed.

Lemma Insert_shape pos value v r :
  Insert pos value v = Ok r ->
  if Insert_reallocates v
  then length (data_ (snd r)) = Z.to_nat (capacity_ (snd r))
  else length (data_ (snd r)) = length (data_ v).
Proof.
  unfold Insert_reallocates, Insert.
  destruct (_ && _); [|done].
  destruct (size_ v =? capacity_ v); intros [= <-]; simpl.
  - unfold ArrayPtr_new.
    by rewrite length_std_copy, length_insert, length_std_copy,
      length_replicate.
  - by rewrite length_insert, length_std_copy_backward.
Qed.

Lemma Insert_move_shape pos value v r :
  Insert_move pos value v = Ok r ->
  if Insert_reallocates v
  then length (data_ (snd r)) = Z.to_nat (capacity_ (snd r))
  else length (data_ (snd r)) = length (data_ v).
Proof.
  unfold Insert_reallocates, Insert_move.
  destruct (_ && _); [|done].
  destruct (size_ v =? capacity_ v).
  - std_move_dest. std_move_dest. intros [= <-]. simpl. unfold ArrayPtr_new.
    by rewrite length_std_copy, length_insert, length_std_copy,
      length_replicate.
  - intros [= <-]. simpl.
    by rewrite length_insert, length_std_move_backward.
Qed.

Lemma Insert_own_shape pos idx v r :
  Insert_own pos idx v = Ok r ->
  if Insert_reallocates v
  then length (data_ (snd r)) = Z.to_nat (capacity_ (snd r))
  else length (data_ (snd r)) = length (data_ v).
Proof.
  unfold Insert_reallocates, Insert_own.
  destruct (idx <? size_ v); [|done].
  destruct (_ && _); [|done].
  destruct (size_ v =? capacity_ v).
  - destruct (data_ v !! Z.to_nat idx); [|done].
    intros [= <-]. simpl. unfold ArrayPtr_new.
    by rewrite length_std_copy, length_insert, length_std_copy,
      length_replicate.
  - destruct (std_copy_backward _ _ _ _ !! Z.to_nat idx) eqn:Hv; [|done].
    intros [= <-]. simpl.
    by rewrite length_insert, length_std_copy_backward.
Qed.

(** Copy assignment on the memory. *)
Lemma mem_assign_copy_step this rhs m m' :
  owns m ->
  mem_assign_copy this rhs m = Ok m' ->
  owns m' /\ operator_assign_copy this rhs (views m) = Ok (views m').
Proof.
  intros Hown. unfold mem_assign_copy, operator_assign_copy, view.
  unfold views at 1 2. rewrite !lookup_fmap.
  destruct (objects m !! this) as [t|] eqn:Ht; simpl; [|done].
  destruct (objects m !! rhs) as [r|] eqn:Hr; simpl; [|done].
  destruct (decide (this <> rhs)) as [Hne|_]; [|by intros [= <-]].
  intros Hrun.
  destruct (mem_member_step this
              (fun _ => Ok (SimpleVector_copy (load m r)))
              (fun _ => true) m m' Hown) as [Hown' Hv].
  { intros v v' [= <-]. apply SimpleVector_copy_length. }
  { unfold mem_member. rewrite Ht. simpl.
    by destruct (ArrayPtr_alloc _ _ m). }
  split; [done|].
  unfold on_object in Hv. unfold views at 1 in Hv.
  rewrite lookup_fmap, Ht in Hv. simpl in Hv. rewrite <- Hv.
  f_equal.
Qed.


(** The memory and the store run in step: a call on a memory with
    exclusive ownership keeps ownership exclusive, and what it does to the
    objects as containers is what [run] does to the store. *)
Lemma mem_run_simulates c m m' :
  owns m ->
  mem_run c m = Ok m' ->
  owns m' /\ run c (views m) = Ok (views m').
Proof.
  intros Hown Hrun.
  destruct c; simpl in *;
    try (apply mem_construct_step; [done| |done]);
    try (eapply mem_member_step; [done| |done]; unfold keeps_array;
         intros v v' Hf).
  - done.
  - unfold SimpleVector_reserved, ArrayPtr_new; simpl.
    by rewrite length_replicate.
  - unfold SimpleVector_sized, ArrayPtr_new; simpl.
    by rewrite length_std_generate, length_replicate.
  - unfold SimpleVector_filled, ArrayPtr_new; simpl.
    by rewrite length_std_fill, length_replicate.
  - apply SimpleVector_filled_move_length.
  - unfold SimpleVector_init, ArrayPtr_new; simpl.
    by rewrite length_std_copy, length_replicate, Nat2Z.id.
  - unfold mem_construct_copy, view in Hrun. unfold construct_copy.
    unfold views at 1. rewrite lookup_fmap.
    destruct (objects m !! other) as [o|]; simpl in *; [|done].
    apply mem_construct_step; [done| |done].
    apply SimpleVector_copy_length.
  - by apply mem_construct_move_step.
  - by apply mem_assign_copy_step.
  - by apply mem_assign_move_step.
  - by injection Hf as <-.
  - by injection Hf as <-.
  - by injection Hf as <-.
  - by apply Result_map_Ok in Hf as (x & _ & ->).
  - unfold index_assign in Hf. destruct (idx <? size_ v); [|done].
    injection Hf as <-. simpl. by rewrite length_insert.
  - by apply Result_map_Ok in Hf as (x & _ & ->).
  - unfold At_assign in Hf. destruct (size_ v <=? idx); [done|].
    injection Hf as <-. simpl. by rewrite length_insert.
  - by injection Hf as <-.
  - injection Hf as <-. apply Reserve_shape.
  - injection Hf as <-. apply Resize_shape.
  - injection Hf as <-. apply PushBack_shape.
  - injection Hf as <-. rewrite PushBack_move_fst. apply PushBack_shape.
  - apply Result_map_Ok in Hf as (r & Hf & ->). by eapply Insert_shape.
  - apply Result_map_Ok in Hf as (r & Hf & ->). by eapply Insert_move_shape.
  - unfold PopBack in Hf. destruct (0 <? size_ v); [|done].
    by injection Hf as <-.
  - apply Result_map_Ok in Hf as (r & Hf & ->).
    unfold Erase in Hf. destruct (_ && _); [|done].
    injection Hf as <-. simpl. by rewrite length_std_copy_move_iterator.
  - by apply mem_swap_step.
Qed.

Lemma view_views m a : view m a = views m !! a.
Proof. unfold view, views. by rewrite lookup_fmap. Qed.

(** A call keeps ownership exclusive and leaves the objects it does not
    write as they were, elements included. *)
Lemma mem_step_frame c m m' a :
  owns m ->
  mem_step c m = Ok m' ->
  owns m' /\ (a ∉ mem_written c -> view m' a = view m a).
Proof.
  intros Hown Hrun. rewrite !view_views.
  destruct c as [c|this idx|this pos idx]; simpl in *.
  - destruct (mem_run_simulates c m m' Hown Hrun) as [Hown' Hv].
    split; [done|]. intros Ha. by apply (run_frame c).
  - destruct (mem_member_step _ _ _ _ _ Hown (PushBack_own_shape idx) Hrun)
      as [Hown' Hv].
    split; [done|]. intros Ha.
    apply on_object_Ok in Hv as (v & v' & _ & _ & ->).
    apply lookup_insert_ne. not_written.
  - destruct (mem_member_step this
                (fun v => Result_map snd (Insert_own pos idx v))
                Insert_reallocates m m' Hown) as [Hown' Hv]; [|done|].
    { intros v v' (r & Hf & ->)%Result_map_Ok. by eapply Insert_own_shape. }
    split; [done|]. intros Ha.
    apply on_object_Ok in Hv as (v & v' & _ & _ & ->).
    apply lookup_insert_ne. not_written.
Qed.


(** Exclusive ownership is an invariant: it holds of every memory a program
    reaches from the empty one. *)
Lemma mem_step_all_owns cs m m' :
  owns m -> mem_step_all cs m = Ok m' -> owns m'.
Proof.
  revert m.
  induction cs as [|c cs IH]; intros m Hown Hrun; simpl in Hrun.
  - by injection Hrun as <-.
  - destruct (mem_step c m) as [m1| | |] eqn:Hc1; try done. simpl in Hrun.
    apply (IH m1); [|done].
    by destruct (mem_step_frame c m m1 0%nat Hown Hc1).
Qed.


End SimpleVector.

(** ** The claims at containers of integers *)

Arguments mkSimpleVector {T} _ _ _.
Arguments size_ {T} _.
Arguments capacity_ {T} _.
Arguments data_ {T} _.
Arguments elements {T} _.

(** Closes a goal about concrete containers by evaluation. *)
Ltac by_evaluation :=
  vm_compute; repeat split; (reflexivity || (intros; discriminate)).

(** One call of a concrete run: the call fits its store, and the run goes on
    from the store the call leaves. *)
Ltac fit_step :=
  cbn [all_fit]; split;
  [ first [ exact I
          | let v := fresh "v" in
            let H := fresh "H" in
            intros v H; vm_compute in H; injection H as <-; by_evaluation
          | by_evaluation ]
  | lazymatch goal with
    | |- match ?r with _ => _ end =>
        let r' := eval vm_compute in r in
        change r with r'; cbv beta iota
    end ].

Lemma size_le_capacity_invariant_witness :
  0 <= size_ (mkSimpleVector 3 4 [7; 9; 8; 0])
    <= capacity_ (mkSimpleVector 3 4 [7; 9; 8; 0]).
Proof.
  apply (size_le_capacity_invariant Z 0 (fun x => x)
           [new_default Z 0%nat; call_PushBack Z 0%nat 7;
            call_PushBack Z 0%nat 8; new_copy Z 1%nat 0%nat;
            call_Insert Z 1%nat 1 9]
           ∅
           (<[1%nat := mkSimpleVector 3 4 [7; 9; 8; 0]]>
              (<[0%nat := mkSimpleVector 2 2 [7; 8]]> ∅)))
    with (a := 1%nat).
  - intros a v H. rewrite lookup_empty in H. discriminate H.
  - do 5 fit_step. exact I.
  - vm_compute. reflexivity.
  - vm_compute. reflexivity.
Defined.

Lemma Resize_three_way_witness :
  (capacity_ (Resize Z 0 (fun x => x) 3
                (Resize Z 0 (fun x => x) 0 (SimpleVector_init Z 0 [1; 2; 3; 4])))
   = 4 /\
   elements (Resize Z 0 (fun x => x) 3
               (Resize Z 0 (fun x => x) 0 (SimpleVector_init Z 0 [1; 2; 3; 4])))
   = [0; 0; 0]) /\
  (capacity_ (Resize Z 0 (fun x => x) 5 (SimpleVector_init Z 0 [1; 2; 3; 4]))
   = 8 /\
   elements (Resize Z 0 (fun x => x) 5 (SimpleVector_init Z 0 [1; 2; 3; 4]))
   = [1; 2; 3; 4; 0]).
Proof.
  split.
  - destruct (Resize_three_way Z 0 (fun x => x) 3
                (Resize Z 0 (fun x => x) 0 (SimpleVector_init Z 0 [1; 2; 3; 4]))
                1 2 3 4)
      as (_ & Hwithin & _ & _).
    + by_evaluation.
    + by_evaluation.
    + destruct Hwithin as (_ & Hc & He); [by_evaluation|].
      split; [exact Hc|exact He].
  - destruct (Resize_three_way Z 0 (fun x => x) 5
                (SimpleVector_init Z 0 [1; 2; 3; 4]) 1 2 3 4)
      as (_ & _ & Hgrow & _).
    + by_evaluation.
    + by_evaluation.
    + destruct Hgrow as (_ & Hc & _ & He); [by_evaluation|by_evaluation|].
      split; [exact Hc|exact He].
Defined.

Lemma Insert_ref_before_position_witness :
  Arg_value Z (Own Z 2)
    (Reserve Z 0 (fun x => x) 5 (SimpleVector_init Z 0 [1; 2; 3])) = Ok 3 /\
  exists y v',
    Insert_ref Z 0 0 (Own Z 2)
      (Reserve Z 0 (fun x => x) 5 (SimpleVector_init Z 0 [1; 2; 3]))
    = Ok (0, v') /\
    elements v' = [y; 1; 2; 3] /\
    y = 2.
Proof.
  destruct (Insert_ref_before_position Z 0 (fun x => x)
              0 (Own Z 2) 3
              (Reserve Z 0 (fun x => x) 5 (SimpleVector_init Z 0 [1; 2; 3])))
    as ((y & v' & Hins & He & _ & _ & _ & _ & Hy) & _).
  - by_evaluation.
  - by_evaluation.
  - intros H. vm_compute in H. discriminate H.
  - vm_compute. reflexivity.
  - split; [vm_compute; reflexivity|].
    exists y, v'. split; [exact Hins|]. split; [exact He|].
    vm_compute in Hy. by injection Hy as <-.
Defined.

Lemma Erase_at_position_witness :
  exists v',
    Erase Z (fun x => x) 0 (SimpleVector_init Z 0 [1; 2; 3]) = Ok (0, v') /\
    elements v' = [2; 3] /\
    elements v' !! 0%nat = Some 2 /\
    size_ v' = 2.
Proof.
  destruct (Erase_at_position Z (fun x => x)
              0 (SimpleVector_init Z 0 [1; 2; 3]))
    as (v' & Her & He & Hs & _ & Hat & _).
  - by_evaluation.
  - by_evaluation.
  - exists v'. split; [exact Her|]. split; [exact He|].
    split; [exact Hat|exact Hs].
Defined.

(** C6 as stated fails: three elements, [Reserve(4)], then two pushes, which
    are no more than 4, reallocate and leave a capacity of 8. *)
Lemma Reserve_then_PushBack_reallocates :
  (length [4; 5] <= 4)%nat /\
  capacity_
    (PushBack_all Z 0 (fun x => x) [4; 5]
       (Reserve Z 0 (fun x => x) 4 (SimpleVector_init Z 0 [1; 2; 3])))
  <> 4.
Proof. split; [vm_compute; lia|]. vm_compute. discriminate. Qed.

Lemma Reserve_then_PushBack_witness :
  capacity_
    (PushBack_all Z 0 (fun x => x) [4; 5]
       (Reserve Z 0 (fun x => x) 5 (SimpleVector_init Z 0 [1; 2; 3])))
  = 5 /\
  elements
    (PushBack_all Z 0 (fun x => x) [4; 5]
       (Reserve Z 0 (fun x => x) 5 (SimpleVector_init Z 0 [1; 2; 3])))
  = [1; 2; 3; 4; 5].
Proof.
  destruct (Reserve_then_PushBack Z 0 (fun x => x)
              5 (SimpleVector_init Z 0 [1; 2; 3]) [4; 5])
    as (_ & _ & _ & Hpush).
  - by_evaluation.
  - by_evaluation.
  - by_evaluation.
  - apply (Hpush 2%nat). vm_compute. reflexivity.
Defined.

Lemma At_checked_access_witness :
  (exists what, At Z 3 (SimpleVector_init Z 0 [1; 2; 3])
                = Throw_out_of_range what) /\
  (exists x, At Z 2 (SimpleVector_init Z 0 [1; 2; 3]) = Ok x).
Proof.
  destruct (At_checked_access Z 0 (fun x => x)
              3 (SimpleVector_init Z 0 [1; 2; 3]))
    as (_ & _ & Hend & Hlast & _).
  - by_evaluation.
  - by_evaluation.
  - split; [exact Hend|]. apply Hlast. by_evaluation.
Defined.


(** Two objects that hold the same pointer are not independent: a write
    through one is seen through the other. *)
Example shared_array_is_seen :
  exists m',
    mem_run Z 0 (fun x => x) (call_index_assign Z 1%nat 0 5)
      (mkMemory Z
         (<[1%nat := mkObject 2 2 (Some 0%nat)]>
            (<[0%nat := mkObject 2 2 (Some 0%nat)]> ∅))
         (<[0%nat := [7; 8]]> ∅) 1)
    = Ok m' /\
    view Z m' 0 = Some (mkSimpleVector 2 2 [5; 8]).
Proof. eexists. split; vm_compute; reflexivity. Qed.

Lemma reserved_constructor_witness :
  size_ (SimpleVector_reserved Z 0 (Reserve_proxy 5)) = 0 /\
  capacity_ (SimpleVector_reserved Z 0 (Reserve_proxy 5)) = 5.
Proof.
  destruct (reserved_constructor Z 0 5) as (Hs & Hc & _).
  - by_evaluation.
  - split; [exact Hs|exact Hc].
Defined.

Lemma self_assignment_unchanged_witness :
  run Z 0 (fun x => x) (assign_copy Z 0%nat 0%nat)
    (<[0%nat := mkSimpleVector 2 2 [7; 8]]> ∅)
  = Ok (<[0%nat := mkSimpleVector 2 2 [7; 8]]> ∅) /\
  run Z 0 (fun x => x) (assign_move Z 0%nat 0%nat)
    (<[0%nat := mkSimpleVector 2 2 [7; 8]]> ∅)
  = Ok (<[0%nat := mkSimpleVector 2 2 [7; 8]]> ∅).
Proof.
  apply (self_assignment_unchanged Z 0 (fun x => x)
           0%nat (mkSimpleVector 2 2 [7; 8])).
  vm_compute. reflexivity.
Defined.

(** ** The further properties at containers of integers *)

(** The objects of a concrete store with one object are well-formed. *)
Ltac one_object_wf :=
  let a := fresh "a" in
  let v := fresh "v" in
  let H := fresh "H" in
  intros a v H;
  destruct (decide (a = 0%nat)) as [->|?];
  [ rewrite lookup_insert_eq in H; injection H as <-; by_evaluation
  | rewrite lookup_insert_ne, lookup_empty in H by done; discriminate H ].

(** Doubling fits for the object a concrete call works on. *)
Ltac receiver_fits :=
  let v := fresh "v" in
  let H := fresh "H" in
  intros v H; vm_compute in H; injection H as <-; by_evaluation.

Lemma SimpleVector_sized_defaults_witness :
  elements (SimpleVector_sized Z 0 3) = [0; 0; 0] /\
  capacity_ (SimpleVector_sized Z 0 3) = 3.
Proof.
  destruct (SimpleVector_sized_defaults Z 0 3) as (_ & Hc & He & _).
  - by_evaluation.
  - split; [exact He|exact Hc].
Defined.

Lemma SimpleVector_filled_copies_witness :
  elements (SimpleVector_filled Z 0 3 7) = [7; 7; 7] /\
  capacity_ (SimpleVector_filled Z 0 3 7) = 3.
Proof.
  destruct (SimpleVector_filled_copies Z 0 3 7) as (_ & Hc & He & _).
  - by_evaluation.
  - split; [exact He|exact Hc].
Defined.

Lemma SimpleVector_filled_move_chain_witness :
  elements (fst (SimpleVector_filled_move Z 0 (fun x => x + 100) 3 7))
  = [7; 107; 207] /\
  snd (SimpleVector_filled_move Z 0 (fun x => x + 100) 3 7) = 307.
Proof.
  destruct (SimpleVector_filled_move_chain Z 0 (fun x => x + 100) 3 7)
    as (He & Hv & _).
  - by_evaluation.
  - split; [exact He|exact Hv].
Defined.

Lemma SimpleVector_init_elements_witness :
  elements (SimpleVector_init Z 0 [1; 2; 3]) = [1; 2; 3] /\
  capacity_ (SimpleVector_init Z 0 [1; 2; 3]) = 3.
Proof.
  destruct (SimpleVector_init_elements Z 0 [1; 2; 3]) as (_ & Hc & He & _).
  - by_evaluation.
  - split; [exact He|exact Hc].
Defined.

Lemma move_construct_transfers_witness :
  exists st',
    run Z 0 (fun x => x) (new_move Z 1%nat 0%nat)
      (<[0%nat := mkSimpleVector 2 5 [7; 8; 1; 2; 3]]> ∅) = Ok st' /\
    st' !! 1%nat = Some (mkSimpleVector 2 5 [7; 8; 1; 2; 3]) /\
    st' !! 0%nat = Some (SimpleVector_default Z).
Proof.
  destruct (move_construct_transfers Z 0 (fun x => x) 1%nat 0%nat
              (mkSimpleVector 2 5 [7; 8; 1; 2; 3])
              (<[0%nat := mkSimpleVector 2 5 [7; 8; 1; 2; 3]]> ∅))
    as (st' & Hrun & Hthis & Hother & _).
  - vm_compute. reflexivity.
  - vm_compute. reflexivity.
  - exists st'. split; [exact Hrun|]. split; [exact Hthis|exact Hother].
Defined.

Lemma move_assign_keeps_source_counters_witness :
  exists st' v' r',
    run Z 0 (fun x => x) (assign_move Z 0%nat 1%nat)
      (<[1%nat := mkSimpleVector 2 5 [7; 8; 1; 2; 3]]>
         (<[0%nat := mkSimpleVector 1 1 [9]]> ∅)) = Ok st' /\
    st' !! 0%nat = Some v' /\
    st' !! 1%nat = Some r' /\
    size_ v' = 2 /\
    capacity_ v' = 5 /\
    size_ r' = 2 /\
    capacity_ r' = 5.
Proof.
  destruct (move_assign_keeps_source_counters Z 0 (fun x => x) 0%nat 1%nat
              (mkSimpleVector 1 1 [9]) (mkSimpleVector 2 5 [7; 8; 1; 2; 3])
              (<[1%nat := mkSimpleVector 2 5 [7; 8; 1; 2; 3]]>
                 (<[0%nat := mkSimpleVector 1 1 [9]]> ∅)))
    as (st' & v' & r' & Hrun & Hv & Hr & Hvs & Hvc & Hs & Hc).
  - discriminate.
  - vm_compute. reflexivity.
  - vm_compute. reflexivity.
  - exists st', v', r'. split; [exact Hrun|]. split; [exact Hv|].
    split; [exact Hr|]. split; [exact Hvs|]. split; [exact Hvc|].
    split; [exact Hs|exact Hc].
Defined.

Lemma representation_invariant_witness :
  wf Z (mkSimpleVector 4 6 [1; 99; 2; 3; 0; 0]).
Proof.
  apply (representation_invariant Z 0 (fun x => x)
           (call_Insert Z 0%nat 1 99)
           (<[0%nat := mkSimpleVector 3 3 [1; 2; 3]]> ∅)
           (<[0%nat := mkSimpleVector 4 6 [1; 99; 2; 3; 0; 0]]> ∅))
    with (a := 0%nat).
  - one_object_wf.
  - receiver_fits.
  - exact I.
  - vm_compute. reflexivity.
  - vm_compute. reflexivity.
  - discriminate.
Defined.

Lemma capacity_never_shrinks_witness :
  exists v',
    (<[0%nat := mkSimpleVector 4 6 [1; 2; 3; 4; 0; 0]]> ∅
     : gmap nat (SimpleVector Z)) !! 0%nat = Some v' /\
    3 <= capacity_ v'.
Proof.
  apply (capacity_never_shrinks Z 0 (fun x => x)
           (call_PushBack Z 0%nat 4) 0%nat (mkSimpleVector 3 3 [1; 2; 3])
           (<[0%nat := mkSimpleVector 3 3 [1; 2; 3]]> ∅)).
  - reflexivity.
  - vm_compute. reflexivity.
  - by_evaluation.
  - receiver_fits.
  - vm_compute. reflexivity.
Defined.

Lemma copy_capacity_is_source_size_witness :
  exists st' v',
    run Z 0 (fun x => x) (assign_copy Z 0%nat 1%nat)
      (<[1%nat := mkSimpleVector 2 5 [7; 8; 1; 2; 3]]>
         (<[0%nat := mkSimpleVector 1 4 [9; 0; 0; 0]]> ∅)) = Ok st' /\
    st' !! 0%nat = Some v' /\
    capacity_ v' = 2 /\
    elements v' = [7; 8].
Proof.
  destruct (copy_capacity_is_source_size Z 0 (fun x => x) 0%nat 1%nat
              (mkSimpleVector 1 4 [9; 0; 0; 0])
              (mkSimpleVector 2 5 [7; 8; 1; 2; 3])
              (<[1%nat := mkSimpleVector 2 5 [7; 8; 1; 2; 3]]>
                 (<[0%nat := mkSimpleVector 1 4 [9; 0; 0; 0]]> ∅)))
    as (_ & st' & v' & Hrun & Hv & Hc & _ & He).
  - discriminate.
  - vm_compute. reflexivity.
  - vm_compute. reflexivity.
  - by_evaluation.
  - exists st', v'. split; [exact Hrun|]. split; [exact Hv|].
    split; [exact Hc|exact He].
Defined.

Lemma Clear_keeps_storage_witness :
  elements
    (PushBack_all Z 0 (fun x => x) [9; 8]
       (Clear Z (SimpleVector_init Z 0 [1; 2; 3])))
  = [9; 8] /\
  capacity_
    (PushBack_all Z 0 (fun x => x) [9; 8]
       (Clear Z (SimpleVector_init Z 0 [1; 2; 3])))
  = 3.
Proof.
  destruct (Clear_keeps_storage Z 0 (fun x => x)
              [9; 8] (SimpleVector_init Z 0 [1; 2; 3]))
    as (_ & _ & _ & He & Hc).
  - by_evaluation.
  - by_evaluation.
  - split; [exact He|exact Hc].
Defined.

Lemma PopBack_removes_last_witness :
  PopBack Z (SimpleVector_default Z) = AssertFailed /\
  exists v' x,
    PopBack Z (SimpleVector_init Z 0 [1; 2; 3]) = Ok v' /\
    [1; 2; 3] = elements v' ++ [x].
Proof.
  split.
  - destruct (PopBack_removes_last Z (SimpleVector_default Z)) as [Hempty _].
    + by_evaluation.
    + apply Hempty. reflexivity.
  - destruct (PopBack_removes_last Z (SimpleVector_init Z 0 [1; 2; 3]))
      as [_ Hpop].
    + by_evaluation.
    + destruct Hpop as (v' & x & Hv' & He & _); [by_evaluation|].
      exists v', x. split; [exact Hv'|exact He].
Defined.

Lemma PushBack_then_PopBack_witness :
  exists v',
    PopBack Z (PushBack Z 0 (fun x => x) 4 (SimpleVector_init Z 0 [1; 2; 3]))
    = Ok v' /\
    elements v' = [1; 2; 3].
Proof.
  destruct (PushBack_then_PopBack Z 0 (fun x => x)
              4 (SimpleVector_init Z 0 [1; 2; 3]))
    as (v' & Hpop & He & _).
  - by_evaluation.
  - intros _. by_evaluation.
  - exists v'. split; [exact Hpop|exact He].
Defined.

Lemma index_agrees_with_At_witness :
  index Z 1 (SimpleVector_init Z 0 [1; 2; 3])
  = At Z 1 (SimpleVector_init Z 0 [1; 2; 3]) /\
  index Z 3 (SimpleVector_init Z 0 [1; 2; 3]) = AssertFailed.
Proof.
  split.
  - destruct (index_agrees_with_At Z 1 (SimpleVector_init Z 0 [1; 2; 3]))
      as [Hin _].
    + by_evaluation.
    + by_evaluation.
    + apply Hin. by_evaluation.
  - destruct (index_agrees_with_At Z 3 (SimpleVector_init Z 0 [1; 2; 3]))
      as [_ Hout].
    + by_evaluation.
    + by_evaluation.
    + apply Hout. by_evaluation.
Defined.

Lemma index_assign_then_index_witness :
  exists v',
    index_assign Z 1 9 (SimpleVector_init Z 0 [1; 2; 3]) = Ok v' /\
    index Z 1 v' = Ok 9 /\
    elements v' = [1; 9; 3].
Proof.
  destruct (index_assign_then_index Z 1 9 (SimpleVector_init Z 0 [1; 2; 3]))
    as (v' & Has & _ & Hrd & _ & He & _).
  - by_evaluation.
  - by_evaluation.
  - exists v'. split; [exact Has|]. split; [exact Hrd|exact He].
Defined.

Lemma swap_twice_witness :
  exists st1,
    run Z 0 (fun x => x) (call_swap Z 0%nat 1%nat)
      (<[1%nat := mkSimpleVector 2 2 [7; 8]]>
         (<[0%nat := mkSimpleVector 1 1 [9]]> ∅)) = Ok st1 /\
    st1 !! 0%nat = Some (mkSimpleVector 2 2 [7; 8]) /\
    st1 !! 1%nat = Some (mkSimpleVector 1 1 [9]) /\
    run Z 0 (fun x => x) (call_swap Z 0%nat 1%nat) st1
    = Ok (<[1%nat := mkSimpleVector 2 2 [7; 8]]>
            (<[0%nat := mkSimpleVector 1 1 [9]]> ∅)).
Proof.
  apply (swap_twice Z 0 (fun x => x) 0%nat 1%nat
           (mkSimpleVector 1 1 [9]) (mkSimpleVector 2 2 [7; 8])).
  - vm_compute. reflexivity.
  - vm_compute. reflexivity.
Defined.

Lemma Insert_then_Erase_witness :
  exists v1 v2,
    Insert Z 0 1 99 (SimpleVector_init Z 0 [1; 2; 3]) = Ok (1, v1) /\
    Erase Z (fun x => x) 1 v1 = Ok (1, v2) /\
    elements v2 = [1; 2; 3].
Proof.
  destruct (Insert_then_Erase Z 0 (fun x => x)
              1 99 (SimpleVector_init Z 0 [1; 2; 3]))
    as (v1 & v2 & Hins & Her & He & _).
  - by_evaluation.
  - by_evaluation.
  - intros _. by_evaluation.
  - exists v1, v2. split; [exact Hins|]. split; [exact Her|exact He].
Defined.

Lemma Insert_at_end_and_PushBack_witness :
  Insert_ref Z 0 3 (Own Z 0) (SimpleVector_init Z 0 [1; 2; 3])
  = Ok (3, PushBack Z 0 (fun x => x + 100) 1 (SimpleVector_init Z 0 [1; 2; 3])) /\
  PushBack_ref Z 0 (fun x => x + 100) (Own Z 0) (SimpleVector_init Z 0 [1; 2; 3])
  = Ok (PushBack Z 0 (fun x => x + 100) 101 (SimpleVector_init Z 0 [1; 2; 3])).
Proof.
  apply (Insert_at_end_and_PushBack Z 0 (fun x => x + 100)
           (Own Z 0) 1 (SimpleVector_init Z 0 [1; 2; 3])).
  - by_evaluation.
  - vm_compute. reflexivity.
Defined.

Lemma Erase_last_is_PopBack_witness :
  exists v',
    PopBack Z (SimpleVector_init Z 0 [1; 2; 3]) = Ok v' /\
    Erase Z (fun x => x) 2 (SimpleVector_init Z 0 [1; 2; 3]) = Ok (2, v').
Proof.
  apply (Erase_last_is_PopBack Z (fun x => x)
           (SimpleVector_init Z 0 [1; 2; 3])).
  by_evaluation.
Defined.

Lemma positions_out_of_range_witness :
  Erase Z (fun x => x) 3 (SimpleVector_init Z 0 [1; 2; 3]) = AssertFailed /\
  Insert Z 0 4 9 (SimpleVector_init Z 0 [1; 2; 3]) = AssertFailed.
Proof.
  split.
  - destruct (positions_out_of_range Z 0 (fun x => x)
                3 9 (SimpleVector_init Z 0 [1; 2; 3])) as [Her _].
    apply Her. right. by_evaluation.
  - destruct (positions_out_of_range Z 0 (fun x => x)
                4 9 (SimpleVector_init Z 0 [1; 2; 3])) as [_ Hins].
    apply Hins. right. by_evaluation.
Defined.

Lemma operator_eq_iff_witness :
  operator_eq Z Z.eqb
    (mkSimpleVector 2 2 [7; 8]) (mkSimpleVector 2 5 [7; 8; 1; 2; 3])
  = true /\
  operator_ne Z Z.eqb
    (mkSimpleVector 2 2 [7; 8]) (mkSimpleVector 2 2 [7; 9])
  = true.
Proof.
  split.
  - destruct (operator_eq_iff Z Z.eqb
                (mkSimpleVector 2 2 [7; 8])
                (mkSimpleVector 2 5 [7; 8; 1; 2; 3])) as [Heq _].
    + by_evaluation.
    + by_evaluation.
    + apply Heq. split; [reflexivity|]. repeat constructor.
  - destruct (operator_eq_iff Z Z.eqb
                (mkSimpleVector 2 2 [7; 8]) (mkSimpleVector 2 2 [7; 9]))
      as [_ Hne].
    + by_evaluation.
    + by_evaluation.
    + apply Hne. intros [_ H].
      apply Forall2_cons in H as [_ H].
      apply Forall2_cons in H as [H _]. discriminate H.
Defined.

Lemma operator_lt_lexicographic_witness :
  operator_lt Z Z.ltb
    (SimpleVector_init Z 0 [1; 2]) (SimpleVector_init Z 0 [1; 2; 3])
  = true /\
  operator_gt Z Z.ltb
    (SimpleVector_init Z 0 [1; 3]) (SimpleVector_init Z 0 [1; 2; 9])
  = true.
Proof.
  split.
  - destruct (operator_lt_lexicographic Z Z.ltb
                (SimpleVector_init Z 0 [1; 2])
                (SimpleVector_init Z 0 [1; 2; 3]) [3])
      as (_ & _ & _ & _ & Hprefix).
    + by_evaluation.
    + by_evaluation.
    + apply Hprefix; [reflexivity|discriminate|apply Z.ltb_irrefl].
  - destruct (operator_lt_lexicographic Z Z.ltb
                (SimpleVector_init Z 0 [1; 3])
                (SimpleVector_init Z 0 [1; 2; 9]) [])
      as (_ & Hgt & _).
    + by_evaluation.
    + by_evaluation.
    + rewrite Hgt. reflexivity.
Defined.

Lemma comparisons_agree_witness :
  operator_le Z Z.ltb
    (SimpleVector_init Z 0 [1; 2]) (SimpleVector_init Z 0 [1; 2; 3])
  = true /\
  operator_gt Z Z.ltb
    (SimpleVector_init Z 0 [1; 2]) (SimpleVector_init Z 0 [1; 2; 3])
  = false.
Proof.
  destruct (comparisons_agree Z Z.eqb Z.ltb
              (SimpleVector_init Z 0 [1; 2]) (SimpleVector_init Z 0 [1; 2; 3]))
    as (Hle & _ & Hlt & _).
  - apply Z.eqb_eq.
  - intros x y H. apply Z.ltb_lt in H. apply Z.ltb_ge. lia.
  - intros x y H1 H2. apply Z.ltb_ge in H1, H2. lia.
  - by_evaluation.
  - by_evaluation.
  - split.
    + apply Hle. left. reflexivity.
    + apply Hlt. reflexivity.
Defined.

Lemma Resize_down_then_up_witness :
  elements
    (Resize Z 0 (fun x => x) 5
       (Resize Z 0 (fun x => x) 2 (SimpleVector_init Z 0 [1; 2; 3; 4])))
  = [1; 2; 0; 0; 0].
Proof.
  destruct (Resize_down_then_up Z 0 (fun x => x)
              2 5 (SimpleVector_init Z 0 [1; 2; 3; 4])) as [He _].
  - by_evaluation.
  - by_evaluation.
  - by_evaluation.
  - exact He.
Defined.

Lemma reserved_then_PushBack_all_witness :
  elements
    (PushBack_all Z 0 (fun x => x) [1; 2; 3]
       (SimpleVector_reserved Z 0 (Reserve_proxy 3)))
  = [1; 2; 3] /\
  capacity_
    (PushBack_all Z 0 (fun x => x) [1; 2; 3]
       (SimpleVector_reserved Z 0 (Reserve_proxy 3)))
  = 3.
Proof.
  destruct (reserved_then_PushBack_all Z 0 (fun x => x) 3 [1; 2; 3])
    as [He Hc].
  - by_evaluation.
  - by_evaluation.
  - split; [exact He|]. apply (Hc 3%nat). vm_compute. reflexivity.
Defined.

Lemma PushBack_then_At_witness :
  exists v',
    PushBack_ref Z 0 (fun x => x + 100) (Own Z 0)
      (SimpleVector_init Z 0 [1; 2; 3]) = Ok v' /\
    At Z 3 v' = Ok 101 /\
    At Z 0 v' = Ok 1.
Proof.
  destruct (PushBack_then_At Z 0 (fun x => x + 100)
              (Own Z 0) 1 (SimpleVector_init Z 0 [1; 2; 3]))
    as (v' & Hpush & Hlast & Hold).
  - by_evaluation.
  - intros _. by_evaluation.
  - vm_compute. reflexivity.
  - exists v'. split; [exact Hpush|]. split; [exact Hlast|].
    rewrite (Hold 0) by by_evaluation.
    vm_compute. reflexivity.
Defined.

Lemma PushBack_own_element_witness :
  PushBack_own Z 0 (fun x => x + 100) 0 (SimpleVector_init Z 0 [1; 2; 3])
  = Ok (mkSimpleVector 4 6 [1; 2; 3; 101; 0; 0]).
Proof.
  destruct (PushBack_own_element Z 0 (fun x => x + 100)
              0 (SimpleVector_init Z 0 [1; 2; 3]))
    as (x & Hx & Hpush & _).
  - by_evaluation.
  - by_evaluation.
  - intros _. by_evaluation.
  - vm_compute in Hx. injection Hx as <-. exact Hpush.
Defined.

Lemma Insert_own_element_witness :
  Insert_own Z 0 0 2
    (Reserve Z 0 (fun x => x) 5 (SimpleVector_init Z 0 [1; 2; 3]))
  = Ok (0, mkSimpleVector 4 5 [2; 1; 2; 3; 0]).
Proof.
  destruct (Insert_own_element Z 0
              0 2 (Reserve Z 0 (fun x => x) 5 (SimpleVector_init Z 0 [1; 2; 3])))
    as (y & Hy & Hins & _).
  - by_evaluation.
  - by_evaluation.
  - by_evaluation.
  - intros H. vm_compute in H. discriminate H.
  - vm_compute in Hy. injection Hy as <-. rewrite Hins. reflexivity.
Defined.

(** ** The claims at containers of strings *)

(** [SimpleVector<std::string> v{"a", "b"}; v.PushBack(v[0]);] where a
    moved-from [std::string] is empty. *)
Lemma PushBack_ref_appends_and_doubles_witness :
  Arg_value string (Own string 0)
    (SimpleVector_init string ""%string ["a"%string; "b"%string])
  = Ok "a"%string /\
  exists v',
    PushBack_ref string ""%string (fun _ => ""%string) (Own string 0)
      (SimpleVector_init string ""%string ["a"%string; "b"%string])
    = Ok v' /\
    elements v' = ["a"%string; "b"%string; ""%string] /\
    capacity_ v' = 4.
Proof.
  destruct (PushBack_ref_appends_and_doubles string ""%string
              (fun _ => ""%string) (Own string 0) "a"%string
              (SimpleVector_init string ""%string ["a"%string; "b"%string])
              [])
    as ((v' & Hpush & _ & He & Hc & _) & _).
  - by_evaluation.
  - intros _. by_evaluation.
  - vm_compute. reflexivity.
  - by_evaluation.
  - split; [vm_compute; reflexivity|].
    exists v'. split; [exact Hpush|]. split; [exact He|exact Hc].
Defined.
